(** * mcp-projects: project discovery and activity classification

    A shallow embedding of the scanner ([src/scanner.ts]), the git
    synchronisation classifier ([src/git.ts]), the activity aggregator
    ([src/activity.ts]), the record store ([src/db.ts]) and the tools
    and the summary resource of [src/index.ts], followed by the
    properties of the specification that were checked against them and
    by further properties of the code.

    Conventions of the embedding:
    - JavaScript strings are [string]: the character of code [c] stands
      for the UTF-16 code unit [c], so the strings represented are those
      whose code units are below 256 (ASCII and Latin-1 text); text with
      other code units (a byte order mark, say) is outside the embedding;
    - integral JavaScript numbers (row ids, counts, limits, offsets,
      millisecond timestamps) are [Z];
    - [null] / [undefined] is [None];
    - a function that can throw, log or touch the store is a computation
      in the monad [M], which threads the mutable [State] and carries the
      thrown value on the left of a sum;
    - everything that is read from outside the process (directory
      listings, file contents, results of [git] commands, the clock) is an
      oracle of the record [Env]. *)

From Stdlib Require Import String Ascii List ZArith Bool Lia Arith.
From Stdlib Require Import Permutation Sorted DecimalString.
Import ListNotations.

Local Open Scope string_scope.
Local Open Scope list_scope.

(* ================================================================= *)
(** ** Strings, as the JavaScript built-ins treat them *)

(** White space and line terminators removed by [String.prototype.trim]:
    of the code units below 256 these are TAB, LF, VT, FF, CR, SPACE and
    the no-break space U+00A0.  The others (U+FEFF, U+2028, U+2029 and
    the spaces of category Zs) are above 255 and do not occur in a
    [string]. *)
Definition isWhiteSpace (c : ascii) : bool :=
  match nat_of_ascii c with
  | 9 | 10 | 11 | 12 | 13 | 32 | 160 => true
  | _ => false
  end.

Fixpoint trimStart (s : string) : string :=
  match s with
  | EmptyString => EmptyString
  | String c s' => if isWhiteSpace c then trimStart s' else s
  end.

Fixpoint trimEnd (s : string) : string :=
  match s with
  | EmptyString => EmptyString
  | String c s' =>
      match trimEnd s' with
      | EmptyString => if isWhiteSpace c then EmptyString else String c EmptyString
      | t => String c t
      end
  end.

(** [s.trim()] *)
Definition trim (s : string) : string := trimEnd (trimStart s).

(** [s.startsWith(p)] *)
Definition startsWith (s p : string) : bool := String.prefix p s.

(** The line feed, the slash and the double quote. *)
Definition LF : ascii := ascii_of_nat 10.
Definition SLASH : ascii := ascii_of_nat 47.
Definition DQ : string := String (ascii_of_nat 34) EmptyString.

(** [s.split(sep)] for a one-character separator: never empty, the empty
    string splits into one empty piece. *)
Fixpoint str_split (sep : ascii) (s : string) : list string :=
  match s with
  | EmptyString => [EmptyString]
  | String c s' =>
      if Ascii.eqb c sep then EmptyString :: str_split sep s'
      else match str_split sep s' with
           | [] => [String c EmptyString]
           | l :: ls => String c l :: ls
           end
  end.

(** A number in a template literal, for a length. *)
Definition show_count (n : nat) : string :=
  NilZero.string_of_uint (Nat.to_uint n).

(** A value interpolated in a template literal. *)
Definition show_nullable (x : option string) : string :=
  match x with
  | Some v => v
  | None => "null"
  end.

(** [Array.prototype.sort(cmp)], which is stable: insertion of each
    element before the first one it does not have to follow. *)
Fixpoint insert_by {A} (cmp : A -> A -> comparison) (x : A) (l : list A) : list A :=
  match l with
  | [] => [x]
  | y :: l' =>
      match cmp x y with
      | Gt => y :: insert_by cmp x l'
      | _ => x :: l
      end
  end.

Definition sort_by {A} (cmp : A -> A -> comparison) (l : list A) : list A :=
  fold_right (insert_by cmp) [] l.

(** [x || null] on a nullable string: the empty string is falsy. *)
Definition or_null (x : option string) : option string :=
  match x with
  | Some EmptyString => None
  | _ => x
  end.

(** [a.localeCompare(b)] on strings of ASCII digits and hyphens (the
    [YYYY-MM-DD] days printed by [git log --date=short]): the collation
    order of such strings is their code-unit order. *)
Definition localeCompare (a b : string) : comparison := String.compare a b.

(* ================================================================= *)
(** ** Records of the store ([src/db.ts]) *)

Record Project : Type := mkProject {
  id : option Z;
  name : string;
  path : string;
  status : string;
  is_git : bool;
  tech_stack : option string;
  last_scanned : string;
  description : option string;
  remote_url : option string;
  sync_status : option string;
  branch_name : option string;
  last_activity_date : option string
}.

Record ActivityStat : Type := mkActivityStat {
  stat_id : Z;
  project_id : Z;
  date : string;
  changes_count : Z
}.

(** The two tables with their AUTOINCREMENT sequences.  Rows are kept in
    insertion (rowid) order. *)
Record Database : Type := mkDatabase {
  projects : list Project;
  projects_seq : Z;
  activity_stats : list ActivityStat;
  activity_stats_seq : Z
}.

Definition empty_database : Database :=
  {| projects := []; projects_seq := 0; activity_stats := []; activity_stats_seq := 0 |}.

(* ================================================================= *)
(** ** Effects *)

(** Values that are thrown. *)
Inductive Err : Type :=
| AccessDenied (rejected : string)
| ExecError (command : string)
| FsError (what : string)
| TypeError (what : string)
| RangeError (what : string).

(** What a call can change: the store, the lines written to the error
    stream (by [console.error] and the logger), and the number of clock
    readings taken so far. *)
Record State : Type := mkState {
  db : Database;
  log : list string;
  ticks : nat
}.

Definition initial_state : State :=
  {| db := empty_database; log := []; ticks := 0 |}.

Definition M (A : Type) : Type := State -> (Err + A) * State.

Definition ret {A} (a : A) : M A := fun s => (inr a, s).

Definition bind {A B} (m : M A) (k : A -> M B) : M B :=
  fun s => match m s with
           | (inr a, s') => k a s'
           | (inl e, s') => (inl e, s')
           end.

Definition throw {A} (e : Err) : M A := fun s => (inl e, s).

(** [try { m } catch (e) { h e }] *)
Definition try_catch {A} (m : M A) (h : Err -> M A) : M A :=
  fun s => match m s with
           | (inl e, s') => h e s'
           | r => r
           end.

Declare Scope m_scope.
Delimit Scope m_scope with m.
Notation "x <- c1 ;; c2" := (bind c1 (fun x => c2))
  (at level 61, c1 at next level, right associativity) : m_scope.
Notation "c1 ;; c2" := (bind c1 (fun _ => c2))
  (at level 61, right associativity) : m_scope.
Local Open Scope m_scope.

(** [console.error(msg, ...)] and the logger's methods append a line. *)
Definition console_error (msg : string) : M unit :=
  fun s => (inr tt, {| db := db s; log := log s ++ [msg]; ticks := ticks s |}).

Definition get_db : M Database := fun s => (inr (db s), s).

Definition put_db (d : Database) : M unit :=
  fun s => (inr tt, {| db := d; log := log s; ticks := ticks s |}).

(** Lifting an oracle's answer: the left of the sum is thrown. *)
Definition lift {A} (r : Err + A) : M A :=
  match r with
  | inl e => throw e
  | inr a => ret a
  end.

(* ================================================================= *)
(** ** The environment *)

Inductive EntryKind : Type := IsDirectory | IsFile | IsOther.

(** A directory tree as [readdir] and [stat] report it: a file with the
    [mtimeMs] of its [stat] (nothing when [stat] throws), a directory
    with its entries (nothing when [readdir] throws), or an entry that
    is neither (a symbolic link, a socket). *)
#[local] Unset Elimination Schemes.
Inductive FsNode : Type :=
| FileNode (n : string) (mtimeMs : option Z)
| DirNode (n : string) (entries : option (list FsNode))
| OtherNode (n : string).
#[local] Set Elimination Schemes.

Definition node_name (e : FsNode) : string :=
  match e with
  | FileNode n _ => n
  | DirNode n _ => n
  | OtherNode n => n
  end.

(** A [Dirent] of [fs.readdir(..., {withFileTypes: true})]. *)
Record Dirent : Type := mkDirent {
  d_name : string;
  d_kind : EntryKind
}.

Record Env : Type := mkEnv {
  (** [fs.readdir(dir, {withFileTypes: true})] *)
  readdir : string -> Err + list Dirent;
  (** [fs.access(file)] succeeds *)
  access : string -> bool;
  (** [fs.readFile(file, 'utf-8')] *)
  readFile : string -> Err + string;
  (** [isGitRepo] and [detectTechStack] of [src/lib/fs.ts], which is
      not among the sources: what they return, or what they throw *)
  isGitRepo : string -> Err + bool;
  detectTechStack : string -> Err + option string;
  (** [exec(command, {cwd})]: standard output, or nothing when the
      command fails or times out.  Within one call of the classifier no
      command line is issued twice. *)
  exec : string -> string -> option string;
  (** [path.join(dir, name)] *)
  path_join : string -> string -> string;
  (** [process.env.HOME] and [process.cwd()] *)
  HOME : option string;
  cwd : string;
  (** the target of the symbolic link at an absolute path, if it is one *)
  readlink : string -> option string;
  (** the entries of the tree below a directory, as the recursive walk
      of the activity aggregator meets them *)
  fs_tree : string -> option (list FsNode);
  (** [new Date().toISOString()] at the n-th reading of the clock *)
  now : nat -> string;
  (** [new Date(ms).toISOString()] for a time value [ms] within the
      range of a [Date] *)
  toISOString : Z -> string
}.

(* ================================================================= *)
(** ** The synchronisation classifier ([src/git.ts]) *)

Inductive SyncStatus : Type :=
| Synced | Ahead | Behind | Diverged | Unknown | NoRemote.

Definition SyncStatus_to_string (s : SyncStatus) : string :=
  match s with
  | Synced => "Synced"
  | Ahead => "Ahead"
  | Behind => "Behind"
  | Diverged => "Diverged"
  | Unknown => "Unknown"
  | NoRemote => "NoRemote"
  end.

Record GitInfo : Type := mkGitInfo {
  remoteUrl : option string;
  branch : option string;
  syncStatus : SyncStatus
}.

Section Program.

Context (env : Env).

(** [await execAsync(command, {cwd, timeout})], returning [stdout]. *)
Definition execAsync (command cwd : string) : M string :=
  match exec env cwd command with
  | Some stdout => ret stdout
  | None => throw (ExecError command)
  end.

(** A [return] from inside a [catch] block leaves the function: the left
    of the sum carries the value returned early. *)
Definition getGitInfo (dirPath : string) : M GitInfo :=
  try_catch
    ((* 1. Get Branch *)
     r1 <- try_catch
             (stdout <- execAsync "git rev-parse --abbrev-ref HEAD" dirPath ;;
              ret (inr (trim stdout)))
             (fun _ => ret (inl {| remoteUrl := None; branch := None;
                                   syncStatus := Unknown |})) ;;
     match r1 with
     | inl early => ret early
     | inr branch0 =>
         (* 2. Get Remote URL *)
         r2 <- try_catch
                 (stdout <- execAsync "git remote get-url origin" dirPath ;;
                  ret (inr (trim stdout)))
                 (fun _ => ret (inl {| remoteUrl := None; branch := Some branch0;
                                       syncStatus := NoRemote |})) ;;
         match r2 with
         | inl early => ret early
         | inr remoteUrl0 =>
             (* 3. Check Sync Status *)
             syncStatus0 <-
               try_catch
                 (execAsync ("git fetch origin " ++ branch0) dirPath ;;
                  localHash <- execAsync "git rev-parse HEAD" dirPath ;;
                  remoteHash <- execAsync ("git rev-parse origin/" ++ branch0) dirPath ;;
                  baseHash <- execAsync ("git merge-base HEAD origin/" ++ branch0) dirPath ;;
                  let local0 := trim localHash in
                  let remote0 := trim remoteHash in
                  let base0 := trim baseHash in
                  ret (if local0 =? remote0 then Synced
                       else if local0 =? base0 then Behind
                       else if remote0 =? base0 then Ahead
                       else Diverged))
                 (fun _ =>
                    console_error ("Failed to check sync status for " ++ dirPath ++ ":") ;;
                    ret Unknown) ;;
             ret {| remoteUrl := Some remoteUrl0; branch := Some branch0;
                    syncStatus := syncStatus0 |}
         end
     end)
    (fun _ =>
       console_error ("Error processing git info for " ++ dirPath ++ ":") ;;
       ret {| remoteUrl := None; branch := None; syncStatus := Unknown |}).

(* ================================================================= *)
(** ** The store ([src/db.ts]) *)

(** The object bound by [stmt.run] in [upsertProject]: the spread of the
    project with the nullable columns passed through [|| null]. *)
Definition bound_parameters (project : Project) : Project :=
  {| id := id project;
     name := name project;
     path := path project;
     status := status project;
     is_git := if is_git project then true else false;
     tech_stack := tech_stack project;
     last_scanned := last_scanned project;
     description := or_null (description project);
     remote_url := or_null (remote_url project);
     sync_status := or_null (sync_status project);
     branch_name := or_null (branch_name project);
     last_activity_date := or_null (last_activity_date project) |}.

(** [ON CONFLICT(path) DO UPDATE SET ...]: every column but [id] and
    [path] is taken from the proposed row. *)
Definition do_update (excluded row : Project) : Project :=
  {| id := id row;
     name := name excluded;
     path := path row;
     status := status excluded;
     is_git := is_git excluded;
     tech_stack := tech_stack excluded;
     last_scanned := last_scanned excluded;
     description := description excluded;
     remote_url := remote_url excluded;
     sync_status := sync_status excluded;
     branch_name := branch_name excluded;
     last_activity_date := last_activity_date excluded |}.

(** The row inserted when nothing conflicts: the [id] column is not in
    the column list, the row gets the next value of the sequence. *)
Definition new_row (rowid : Z) (excluded : Project) : Project :=
  {| id := Some rowid;
     name := name excluded;
     path := path excluded;
     status := status excluded;
     is_git := is_git excluded;
     tech_stack := tech_stack excluded;
     last_scanned := last_scanned excluded;
     description := description excluded;
     remote_url := remote_url excluded;
     sync_status := sync_status excluded;
     branch_name := branch_name excluded;
     last_activity_date := last_activity_date excluded |}.

Definition upsert_projects_table (excluded : Project) (d : Database) : Database :=
  if existsb (fun row => path row =? path excluded) (projects d) then
    {| projects := map (fun row => if path row =? path excluded
                                   then do_update excluded row else row)
                       (projects d);
       (* the rowid prepared for the insert is consumed all the same *)
       projects_seq := projects_seq d + 1;
       activity_stats := activity_stats d;
       activity_stats_seq := activity_stats_seq d |}
  else
    {| projects := projects d ++ [new_row (projects_seq d + 1) excluded];
       projects_seq := projects_seq d + 1;
       activity_stats := activity_stats d;
       activity_stats_seq := activity_stats_seq d |}.

Definition upsertProject (project : Project) : M unit :=
  d <- get_db ;;
  put_db (upsert_projects_table (bound_parameters project) d).

(** An element of the [stats] arrays: [{date, count}]. *)
Record Stat : Type := mkStat {
  s_date : string;
  s_count : Z
}.

(** One [insert.run] of [insertActivityStats]:
    [ON CONFLICT(project_id, date) DO UPDATE SET changes_count = excluded.changes_count].
    SQLite checks a [FOREIGN KEY] only on a connection that turns the
    checks on; the connection is opened in [src/lib/database.ts], which is
    not among the sources, and the insert is taken not to check the
    project id. *)
Definition insert_stat (projectId : Z) (d : Database) (stat : Stat) : Database :=
  let same_key row :=
    (project_id row =? projectId)%Z && (date row =? s_date stat) in
  if existsb same_key (activity_stats d) then
    {| projects := projects d;
       projects_seq := projects_seq d;
       activity_stats :=
         map (fun row => if same_key row
                         then {| stat_id := stat_id row;
                                 project_id := project_id row;
                                 date := date row;
                                 changes_count := s_count stat |}
                         else row)
             (activity_stats d);
       (* the rowid prepared for the insert is consumed all the same *)
       activity_stats_seq := activity_stats_seq d + 1 |}
  else
    {| projects := projects d;
       projects_seq := projects_seq d;
       activity_stats :=
         activity_stats d ++
         [{| stat_id := activity_stats_seq d + 1;
             project_id := projectId;
             date := s_date stat;
             changes_count := s_count stat |}];
       activity_stats_seq := activity_stats_seq d + 1 |}.

(** The transaction runs the insert for each element, in order. *)
Definition insertActivityStats (projectId : Z) (stats : list Stat) : M unit :=
  d <- get_db ;;
  put_db (fold_left (insert_stat projectId) stats d).

(** [SELECT * FROM projects WHERE path = ?], first row or [undefined]. *)
Definition getProjectByPath (p : string) : M (option Project) :=
  d <- get_db ;;
  ret (find (fun row => path row =? p) (projects d)).

(* ================================================================= *)
(** ** The path validator ([src/lib/security.ts]) *)

(** [src/lib/security.ts] is missing from the sources: only the unit
    test of [validatePath] and its call in the scanner are there.  The
    validator and the canonical form it rests on are modelled from
    section 4.1 of the specification. *)

(** Modelled from the spec: the segments of a path (section 4.1 speaks of
    [..] segments). *)
Definition segments (p : string) : list string := str_split SLASH p.

(** Modelled from the spec: the absolute form with given segments. *)
Definition render (segs : list string) : string :=
  "/" ++ String.concat "/" segs.

(** Modelled from the spec: what walking along the segments still to do
    ends in, the segments reached, or a symbolic link whose target is to
    be followed from [base]. *)
Inductive Followed : Type :=
| Reached (segs : list string)
| Redirected (base todo : list string).

(** Modelled from the spec: traversal and symlink resolution.  Empty
    segments and [.] are dropped, [..] leaves the directory reached so
    far, and a name that is a symbolic link is replaced by its target
    (from the root when the target is absolute). *)
Fixpoint follow (reached todo : list string) : Followed :=
  match todo with
  | [] => Reached reached
  | seg :: rest =>
      if (seg =? "") || (seg =? ".") then follow reached rest
      else if seg =? ".." then follow (removelast reached) rest
      else
        let here := reached ++ [seg] in
        match readlink env (render here) with
        | None => follow here rest
        | Some target =>
            Redirected (if startsWith target "/" then [] else reached)
                       (segments target ++ rest)
        end
  end.

(** Modelled from the spec: at most [hops] symbolic links are followed. *)
Fixpoint canonical_from (hops : nat) (reached todo : list string)
  : option (list string) :=
  match follow reached todo with
  | Reached segs => Some segs
  | Redirected base todo' =>
      match hops with
      | O => None
      | S hops' => canonical_from hops' base todo'
      end
  end.

(** Modelled from the spec: the bound on the links followed. *)
Definition MAXSYMLINKS : nat := 40.

(** Modelled from the spec: the canonicalized (symlink-resolved,
    traversal-resolved) absolute form of a path; relative paths start
    from the working directory; nothing when the links do not end. *)
Definition canonicalize (p : string) : option (list string) :=
  canonical_from MAXSYMLINKS []
    (if startsWith p "/" then segments p
     else segments (cwd env) ++ segments p).

(** Modelled from the spec: [candidate] is equal to [root] or a
    descendant of it, segment by segment and not by prefix of the raw
    strings. *)
Fixpoint is_within (root candidate : list string) : bool :=
  match root, candidate with
  | [], _ => true
  | r :: root', c :: candidate' => (r =? c) && is_within root' candidate'
  | _ :: _, [] => false
  end.

(** Modelled from the spec: [validatePath] of [src/lib/security.ts],
    which is missing from the sources.  Section 4.1: the canonicalized
    absolute form of the candidate is produced if and only if it is equal
    to, or a descendant of, at least one canonicalized root; otherwise
    the call fails with [AccessDenied] naming the rejected path. *)
Definition validatePath (p : string) (allowedRoots : list string) : M string :=
  match canonicalize p with
  | None => throw (AccessDenied p)
  | Some c =>
      if existsb (fun root => match canonicalize root with
                              | Some r => is_within r c
                              | None => false
                              end) allowedRoots
      then ret (render c)
      else throw (AccessDenied p)
  end.

(* ================================================================= *)
(** ** The scanner ([src/scanner.ts]) *)

(** Modelled from the spec: the logger of [src/lib/logger.ts], which is
    missing from the sources.  Section 7: failures are logged; the lines
    go where [console.error] writes. *)
Definition logger_info (msg : string) : M unit := console_error msg.

(** Modelled from the spec: as [logger_info]. *)
Definition logger_error (msg : string) : M unit := console_error msg.

(** [new Date().toISOString()] *)
Definition new_Date_toISOString : M string :=
  fun s => (inr (now env (ticks s)),
            {| db := db s; log := log s; ticks := S (ticks s) |}).

(** The loop over the lines of the README: the first line that, trimmed,
    is not empty and is neither a title nor an image. *)
Fixpoint first_description (lines : list string) : option string :=
  match lines with
  | [] => None
  | line :: rest =>
      let trimmed := trim line in
      if negb (trimmed =? "") && negb (startsWith trimmed "#")
         && negb (startsWith trimmed "![")
      then Some trimmed
      else first_description rest
  end.

Definition getProjectDescription (dirPath : string) : M (option string) :=
  try_catch
    (let readmePath := path_join env dirPath "README.md" in
     if negb (access env readmePath) then ret None
     else
       content <- lift (readFile env readmePath) ;;
       let lines := str_split LF content in
       ret (first_description lines))
    (fun _ => ret None).

(** Truthiness of a nullable string. *)
Definition truthy (x : option string) : bool :=
  match or_null x with
  | Some _ => true
  | None => false
  end.

(** The body of [for (const entry of entries)], with the array
    [projects] built so far. *)
Fixpoint scan_entries (rootPath : string) (entries : list Dirent)
    (projects0 : list Project) : M (list Project) :=
  match entries with
  | [] => ret projects0
  | entry :: rest =>
      match d_kind entry with
      | IsDirectory =>
          if negb (startsWith (d_name entry) ".")
             && negb (d_name entry =? "node_modules")
          then
            let projectPath := path_join env rootPath (d_name entry) in
            isGit <- lift (isGitRepo env projectPath) ;;
            techStack <- lift (detectTechStack env projectPath) ;;
            if isGit || truthy techStack then
              description0 <- getProjectDescription projectPath ;;
              gitInfo <- (if isGit
                          then g <- getGitInfo projectPath ;;
                               ret (remoteUrl g, branch g,
                                    Some (SyncStatus_to_string (syncStatus g)))
                          else ret (None, None, None)) ;;
              let '(remoteUrl0, branch0, syncStatus0) := gitInfo in
              stamp <- new_Date_toISOString ;;
              let project :=
                {| id := None;
                   name := d_name entry;
                   path := projectPath;
                   status := "active";
                   is_git := isGit;
                   tech_stack := techStack;
                   last_scanned := stamp;
                   description := description0;
                   remote_url := remoteUrl0;
                   sync_status := syncStatus0;
                   branch_name := branch0;
                   last_activity_date := None |} in
              upsertProject project ;;
              logger_info ("Scanned project: " ++ d_name entry ++ " ("
                           ++ show_nullable techStack ++ ", "
                           ++ show_nullable syncStatus0 ++ ")") ;;
              scan_entries rootPath rest (projects0 ++ [project])
            else scan_entries rootPath rest projects0
          else scan_entries rootPath rest projects0
      | _ => scan_entries rootPath rest projects0
      end
  end.

Definition scanDirectory (rootPath : string) : M (list Project) :=
  validatePath rootPath [match or_null (HOME env) with
                         | Some home => home
                         | None => cwd env
                         end] ;;
  try_catch
    (entries <- lift (readdir env rootPath) ;;
     scan_entries rootPath entries [])
    (fun error =>
       logger_error ("Error scanning directory " ++ rootPath) ;;
       throw error).

(* ================================================================= *)
(** ** The activity aggregator ([src/activity.ts]) *)

(** A JavaScript [Map<string, number>]: the entries in insertion order;
    [set] on a key that is present keeps its place. *)
Definition JsMap : Type := list (string * Z).

Fixpoint Map_get (m : JsMap) (k : string) : option Z :=
  match m with
  | [] => None
  | (k', v) :: m' => if k' =? k then Some v else Map_get m' k
  end.

Fixpoint Map_set (m : JsMap) (k : string) (v : Z) : JsMap :=
  match m with
  | [] => [(k, v)]
  | (k', v') :: m' =>
      if k' =? k then (k', v) :: m' else (k', v') :: Map_set m' k v
  end.

(** [(statsMap.get(date) || 0) + 1] *)
Definition bump (m : JsMap) (d : string) : JsMap :=
  Map_set m d (match Map_get m d with
               | Some v => if (v =? 0)%Z then 0 else v
               | None => 0
               end + 1)%Z.

(** The histogram of the lines of the log, sorted with
    [(a, b) => b.date.localeCompare(a.date)]. *)
Definition histogram (lines : list string) : list Stat :=
  let statsMap := fold_left bump lines [] in
  let stats := map (fun '(d, c) => {| s_date := d; s_count := c |}) statsMap in
  sort_by (fun a b => localeCompare (s_date b) (s_date a)) stats.

Definition git_log_30_days : string :=
  "git log --since=" ++ DQ ++ "30 days ago" ++ DQ ++ " --pretty=format:"
  ++ DQ ++ "%ad" ++ DQ ++ " --date=short".

Definition git_log_last : string :=
  "git log -1 --pretty=format:" ++ DQ ++ "%ad" ++ DQ ++ " --date=short".

Definition getGitActivity (dirPath : string) : M (option string * list Stat) :=
  try_catch
    (if negb (access env (path_join env dirPath ".git")) then ret (None, [])
     else
       stdout <- execAsync git_log_30_days dirPath ;;
       let lines := filter (fun line => negb (trim line =? ""))
                           (str_split LF stdout) in
       if (0 <? length lines)%nat then
         let stats := histogram lines in
         match stats with
         | first :: _ => ret (Some (s_date first), stats)
         | [] => throw (TypeError "stats[0] is undefined")
         end
       else
         lastActivity <-
           try_catch
             (lastCommit <- execAsync git_log_last dirPath ;;
              let date0 := trim lastCommit in
              ret (if date0 =? "" then None else Some date0))
             (fun _ => ret None) ;;
         ret (lastActivity, []))
    (fun _ =>
       console_error ("Error getting git activity in " ++ dirPath ++ ":") ;;
       ret (None, [])).

(** Names the walk passes over: hidden entries and generated artifacts. *)
Definition skip_name (n : string) : bool :=
  startsWith n "." || (n =? "node_modules") || (n =? "dist")
  || (n =? "build") || (n =? "coverage").

(** How one turn of the loop of [walk] ends, with the value of
    [latestMtimeMs] at that point: normally, or by a throw that leaves the
    loop for the [catch] of the directory being walked. *)
Inductive Completion : Type :=
| Normal (latest : Z)
| Thrown (latest : Z).

(** One turn of the loop.  The recursive [walk] of a subdirectory never
    throws: its own [try] catches a failing [readdir] and a failing
    [stat] below it. *)
Fixpoint visit (entry : FsNode) (latestMtimeMs : Z) : Completion :=
  if skip_name (node_name entry) then Normal latestMtimeMs
  else
    match entry with
    | DirNode _ None => Normal latestMtimeMs
    | DirNode _ (Some entries) =>
        Normal ((fix loop (es : list FsNode) (latest : Z) : Z :=
                   match es with
                   | [] => latest
                   | e :: rest =>
                       match visit e latest with
                       | Normal l => loop rest l
                       | Thrown l => l
                       end
                   end) entries latestMtimeMs)
    | FileNode _ (Some m) =>
        Normal (if (m >? latestMtimeMs)%Z then m else latestMtimeMs)
    | FileNode _ None => Thrown latestMtimeMs
    | OtherNode _ => Normal latestMtimeMs
    end.

Fixpoint walk_entries (entries : list FsNode) (latestMtimeMs : Z) : Z :=
  match entries with
  | [] => latestMtimeMs
  | e :: rest =>
      match visit e latestMtimeMs with
      | Normal l => walk_entries rest l
      | Thrown l => l
      end
  end.

(** [walk(currentPath)] on the tree below [currentPath]. *)
Definition walk (tree : option (list FsNode)) (latestMtimeMs : Z) : Z :=
  match tree with
  | None => latestMtimeMs
  | Some entries => walk_entries entries latestMtimeMs
  end.

(** The time values of a [Date] lie within 8.64e15 ms of the epoch. *)
Definition MAX_TIME_VALUE : Z := 8640000000000000.

(** [new Date(ms).toISOString()]: a [RangeError] when the time value is
    out of range, the date being invalid then. *)
Definition Date_toISOString (ms : Z) : M string :=
  if (Z.abs ms <=? MAX_TIME_VALUE)%Z then ret (toISOString env ms)
  else throw (RangeError "Invalid time value").

Definition getFileActivity (dirPath : string) : M (option string) :=
  let latestMtimeMs := walk (fs_tree env dirPath) 0 in
  if (latestMtimeMs =? 0)%Z then ret None
  else
    text <- Date_toISOString latestMtimeMs ;;
    ret (Some text).

Definition analyzeProjectActivity (projectPath : string) : M unit :=
  found <- getProjectByPath projectPath ;;
  match found with
  | None =>
      console_error ("Project not found in DB for path: " ++ projectPath)
  | Some project =>
      activity <- (if is_git project
                   then getGitActivity (path project)
                   else d <- getFileActivity (path project) ;; ret (d, [])) ;;
      let '(lastActivityDate, stats) := activity in
      (* Update Project *)
      (match or_null lastActivityDate with
       | Some lastActivityDate0 =>
           if match last_activity_date project with
              | Some stored => negb (stored =? lastActivityDate0)
              | None => true
              end
           then
             upsertProject
               {| id := id project;
                  name := name project;
                  path := path project;
                  status := status project;
                  is_git := is_git project;
                  tech_stack := tech_stack project;
                  last_scanned := last_scanned project;
                  description := description project;
                  remote_url := remote_url project;
                  sync_status := sync_status project;
                  branch_name := branch_name project;
                  last_activity_date := Some lastActivityDate0 |} ;;
             console_error ("Updated last activity for " ++ name project
                            ++ ": " ++ lastActivityDate0)
           else ret tt
       | None => ret tt
       end) ;;
      (* Update Stats *)
      match id project with
      | Some projectId =>
          if (0 <? length stats)%nat && negb (projectId =? 0)%Z then
            insertActivityStats projectId stats ;;
            console_error ("Inserted " ++ show_count (length stats)
                         ++ " activity stats for " ++ name project)
          else ret tt
      | None => ret tt
      end
  end.

(* ================================================================= *)
(** ** The tools ([src/index.ts]) *)

(** [SELECT path FROM projects]: SQLite answers it from the index of the
    [UNIQUE] constraint on [path], so the paths come in their order. *)
Definition all_paths : M (list string) :=
  d <- get_db ;;
  ret (sort_by String.compare (map path (projects d))).

Fixpoint analyze_each (paths : list string) : M unit :=
  match paths with
  | [] => ret tt
  | p :: rest => analyzeProjectActivity p ;; analyze_each rest
  end.

(** The handler of the tool [analyze_project_activity]; the result is the
    text of the response. *)
Definition analyze_project_activity (project_path : option string) : M string :=
  match or_null project_path with
  | Some p =>
      analyzeProjectActivity p ;;
      ret ("Analyzed activity for project at " ++ p)%string
  | None =>
      paths <- all_paths ;;
      analyze_each paths ;;
      ret ("Analyzed activity for all " ++ show_count (length paths)
           ++ " projects.")%string
  end.

Record Pagination : Type := mkPagination {
  limit : Z;
  offset : Z;
  total : Z;
  has_more : bool
}.

Record Listing : Type := mkListing {
  data : list Project;
  pagination : Pagination
}.

(** [LIMIT ? OFFSET ?] of SQLite: a negative offset counts as zero, a
    negative limit is no limit. *)
Definition sql_limit_offset {A} (lim off : Z) (rows : list A) : list A :=
  let rest := skipn (Z.to_nat off) rows in
  if (lim <? 0)%Z then rest else firstn (Z.to_nat lim) rest.

(** The handler of the tool [list_projects], after the schema has filled
    in the defaults of the arguments that were left out. *)
Definition list_projects (requested_limit requested_offset : option Z) : M Listing :=
  let limit0 := match requested_limit with Some l => l | None => 20%Z end in
  let offset0 := match requested_offset with Some o => o | None => 0%Z end in
  d <- get_db ;;
  (* Enforce max limit for performance *)
  let safeLimit := Z.min limit0 50 in
  let projects0 :=
    sql_limit_offset safeLimit offset0
      (sort_by (fun a b => String.compare (name a) (name b)) (projects d)) in
  let total0 := Z.of_nat (length (projects d)) in
  ret {| data := projects0;
         pagination := {| limit := safeLimit;
                          offset := offset0;
                          total := total0;
                          has_more := (offset0 + safeLimit <? total0)%Z |} |}.

End Program.

(* ================================================================= *)
(** ** Environments and stores of the examples *)

Definition lookup {V} (t : list (string * V)) (k : string) : option V :=
  option_map snd (find (fun kv => fst kv =? k) t).

(** An empty home directory [/home/u] where every [git] command fails. *)
Definition blank_env : Env :=
  {| readdir := fun _ => inr [];
     access := fun _ => false;
     readFile := fun f => inl (FsError f);
     isGitRepo := fun _ => inr false;
     detectTechStack := fun _ => inr None;
     exec := fun _ _ => None;
     path_join := fun dir n => (dir ++ "/" ++ n)%string;
     HOME := Some "/home/u";
     cwd := "/home/u";
     readlink := fun _ => None;
     fs_tree := fun _ => None;
     (* the clock shows the digits 0, 1, 2, ... *)
     now := fun n => String (ascii_of_nat (48 + n)) EmptyString;
     toISOString := fun ms => if (ms =? 1700000000000)%Z
                              then "2023-11-14T22:13:20.000Z" else "another day" |}.

Definition with_exec (commands : list (string * string)) (e : Env) : Env :=
  {| readdir := readdir e; access := access e; readFile := readFile e;
     isGitRepo := isGitRepo e; detectTechStack := detectTechStack e;
     exec := fun _ command => lookup commands command;
     path_join := path_join e; HOME := HOME e; cwd := cwd e;
     readlink := readlink e; fs_tree := fs_tree e; now := now e;
     toISOString := toISOString e |}.

(** A repository on branch [main] that is one commit behind its remote. *)
Definition behind_commands : list (string * string) :=
  [("git rev-parse --abbrev-ref HEAD", String LF "main" ++ String LF "");
   ("git remote get-url origin", "git@host:u/p.git" ++ String LF "");
   ("git fetch origin main", "");
   ("git rev-parse HEAD", "aaa1" ++ String LF "");
   ("git rev-parse origin/main", "bbb2" ++ String LF "");
   ("git merge-base HEAD origin/main", "aaa1" ++ String LF "")]%string.

(** The same repository when the network is down: the fetch fails. *)
Definition offline_commands : list (string * string) :=
  [("git rev-parse --abbrev-ref HEAD", "main" ++ String LF "");
   ("git remote get-url origin", "git@host:u/p.git" ++ String LF "");
   ("git rev-parse HEAD", "aaa1" ++ String LF "")]%string.

(** A repository without a remote. *)
Definition local_only_commands : list (string * string) :=
  [("git rev-parse --abbrev-ref HEAD", "main" ++ String LF "")]%string.

(* ================================================================= *)
(** ** Vocabulary of the statements *)

(** A computation that never throws, whatever the state. *)
Definition never_throws {A} (m : M A) : Prop :=
  forall s, exists a s', m s = (inr a, s').

(** The decision table of section 4.3, row by row. *)
Definition decision_table (local0 remote0 base0 : string) (s : SyncStatus) : Prop :=
  (local0 = remote0 -> s = Synced) /\
  (local0 <> remote0 -> local0 = base0 -> s = Behind) /\
  (local0 <> remote0 -> local0 <> base0 -> remote0 = base0 -> s = Ahead) /\
  (local0 <> remote0 -> local0 <> base0 -> remote0 <> base0 -> s = Diverged).

(** The line logged when the comparison with the remote fails. *)
Definition sync_failure_line (dirPath : string) : string :=
  "Failed to check sync status for " ++ dirPath ++ ":".

(** The state after one more line has been logged. *)
Definition logged (line : string) (s : State) : State :=
  {| db := db s; log := log s ++ [line]; ticks := ticks s |}.

(** The natural key of a row of [activity_stats]. *)
Definition stat_key (row : ActivityStat) : Z * string :=
  (project_id row, date row).

(** The constraint [UNIQUE(project_id, date)]. *)
Definition unique_stats (d : Database) : Prop :=
  NoDup (map stat_key (activity_stats d)).

Definition has_key (projectId : Z) (day : string) (row : ActivityStat) : bool :=
  (project_id row =? projectId)%Z && (date row =? day).

(** The count stored for a project and a day, if there is a row. *)
Definition stored_count (d : Database) (projectId : Z) (day : string) : option Z :=
  option_map changes_count (find (has_key projectId day) (activity_stats d)).

(** The count an aggregation run produced last for a day, if any. *)
Definition produced_count (stats : list Stat) (day : string) : option Z :=
  option_map s_count (find (fun s => s_date s =? day) (rev stats)).

(** The line logged when a path has no record. *)
Definition not_found_line (projectPath : string) : string :=
  "Project not found in DB for path: " ++ projectPath.

(** A store with one project, [/home/u/p] with id 1, and the count 5 for
    it on 2024-01-01. *)
Definition stored_project : Project :=
  {| id := Some 1%Z; name := "p"; path := "/home/u/p"; status := "active";
     is_git := true; tech_stack := Some "Node.js"; last_scanned := "0";
     description := None; remote_url := None; sync_status := Some "NoRemote";
     branch_name := Some "main"; last_activity_date := None |}.

Definition one_project_state : State :=
  {| db := {| projects := [stored_project]; projects_seq := 1;
              activity_stats := [{| stat_id := 1; project_id := 1;
                                    date := "2024-01-01"; changes_count := 5 |}];
              activity_stats_seq := 1 |};
     log := []; ticks := 1 |}.

(** A store with sixty projects named [a], [aa], [aaa], ... *)
Fixpoint many_projects (n : nat) : list Project :=
  match n with
  | O => []
  | S n' =>
      many_projects n' ++
      [{| id := Some (Z.of_nat n); name := String.concat "" (repeat "a" n);
          path := "/home/u/" ++ String.concat "" (repeat "a" n);
          status := "active"; is_git := false; tech_stack := Some "Python";
          last_scanned := "0"; description := None; remote_url := None;
          sync_status := None; branch_name := None;
          last_activity_date := None |}]
  end.

Definition sixty_projects_state : State :=
  {| db := {| projects := many_projects 60; projects_seq := 60;
              activity_stats := []; activity_stats_seq := 0 |};
     log := []; ticks := 60 |}.

(** [x] may stand before [y] in an array sorted with [cmp]. *)
Definition may_precede {A} (cmp : A -> A -> comparison) (x y : A) : Prop :=
  cmp x y <> Gt.

(** The number of commits of a day in the lines of the log. *)
Definition occurrences (lines : list string) (day : string) : Z :=
  Z.of_nat (count_occ string_dec lines day).

(** [statsMap.get(k) || 0] *)
Definition get0 (m : JsMap) (k : string) : Z :=
  match Map_get m k with Some v => v | None => 0%Z end.

(** The comparison and the mapping used by [histogram]. *)
Definition by_date_desc (a b : Stat) : comparison :=
  localeCompare (s_date b) (s_date a).

Definition to_stat (entry : string * Z) : Stat :=
  let '(d, c) := entry in {| s_date := d; s_count := c |}.

(** The lines of the log that are kept. *)
Definition log_lines (stdout : string) : list string :=
  filter (fun line => negb (trim line =? "")) (str_split LF stdout).

Definition with_access (files : list string) (e : Env) : Env :=
  {| readdir := readdir e;
     access := fun f => existsb (String.eqb f) files;
     readFile := readFile e;
     isGitRepo := isGitRepo e; detectTechStack := detectTechStack e;
     exec := exec e;
     path_join := path_join e; HOME := HOME e; cwd := cwd e;
     readlink := readlink e; fs_tree := fs_tree e; now := now e;
     toISOString := toISOString e |}.

(** The log of the example of the specification, and the same commits
    met in the order [git log] prints them, newest first. *)
Definition three_commits : string :=
  "2024-01-01" ++ String LF "2024-01-01" ++ String LF "2024-01-02".

Definition three_commits_newest_first : string :=
  "2024-01-02" ++ String LF "2024-01-01" ++ String LF "2024-01-01".

Definition repository_env (log_output : string) : Env :=
  with_access ["/home/u/p/.git"]
    (with_exec [(git_log_30_days, log_output)] blank_env).

(** The modification times the walk is meant to see below an entry: those
    of the files whose [stat] succeeds, leaving out what is passed over
    by name and what lies in a directory that cannot be read. *)
Fixpoint node_mtimes (e : FsNode) : list Z :=
  if skip_name (node_name e) then []
  else
    match e with
    | FileNode _ (Some m) => [m]
    | FileNode _ None => []
    | DirNode _ (Some entries) => flat_map node_mtimes entries
    | DirNode _ None => []
    | OtherNode _ => []
    end.

Definition visible_mtimes (entries : list FsNode) : list Z :=
  flat_map node_mtimes entries.

(** No [stat] fails on a file the walk reaches. *)
Fixpoint node_stats_succeed (e : FsNode) : bool :=
  skip_name (node_name e)
  || match e with
     | FileNode _ None => false
     | DirNode _ (Some entries) => forallb node_stats_succeed entries
     | _ => true
     end.

Definition stats_succeed (entries : list FsNode) : bool :=
  forallb node_stats_succeed entries.

Definition with_tree (tree : option (list FsNode)) (e : Env) : Env :=
  {| readdir := readdir e; access := access e; readFile := readFile e;
     isGitRepo := isGitRepo e; detectTechStack := detectTechStack e;
     exec := exec e;
     path_join := path_join e; HOME := HOME e; cwd := cwd e;
     readlink := readlink e; fs_tree := fun _ => tree; now := now e;
     toISOString := toISOString e |}.

(** A project without version control: two files that count, the newer
    one in a subdirectory, next to a directory that cannot be read, a
    dependency cache and a hidden file that are both newer. *)
Definition notes_tree : list FsNode :=
  [FileNode "a.txt" (Some 1600000000000%Z);
   DirNode "locked" None;
   DirNode "src" (Some [FileNode "b.txt" (Some 1700000000000%Z);
                        OtherNode "link"]);
   DirNode "node_modules" (Some [FileNode "x.js" (Some 1800000000000%Z)]);
   FileNode ".hidden" (Some 1900000000000%Z)].

(** A project whose two files were last modified one second before the
    epoch and at the epoch. *)
Definition epoch_tree : list FsNode :=
  [FileNode "old.txt" (Some (-1000)%Z); FileNode "epoch.txt" (Some 0%Z)].


(** [candidate] is [root] or lies below it. *)
Definition equal_or_descendant (root candidate : list string) : Prop :=
  exists rest, candidate = root ++ rest.

(** The canonical form [c] is that of an allowed root or lies below one. *)
Definition within_some_root (env : Env) (allowedRoots : list string)
    (c : list string) : Prop :=
  exists root r,
    In root allowedRoots /\ canonicalize env root = Some r
    /\ equal_or_descendant r c.

(** No empty segment, no [.] and no [..]. *)
Definition traversal_free (segs : list string) : Prop :=
  Forall (fun seg => seg <> "" /\ seg <> "." /\ seg <> "..") segs.

(** No directory on the way, and not the end of it, is a symbolic link. *)
Definition link_free (env : Env) (segs : list string) : Prop :=
  forall pre post, segs = pre ++ post -> pre <> [] ->
                   readlink env (render pre) = None.

Definition with_links (links : list (string * string)) (e : Env) : Env :=
  {| readdir := readdir e; access := access e; readFile := readFile e;
     isGitRepo := isGitRepo e; detectTechStack := detectTechStack e;
     exec := exec e;
     path_join := path_join e; HOME := HOME e; cwd := cwd e;
     readlink := lookup links; fs_tree := fs_tree e; now := now e;
     toISOString := toISOString e |}.

(** A home directory with a link to the password directory and a link to
    a directory of its own. *)
Definition linked_env : Env :=
  with_links [("/home/u/etc", "/etc"); ("/home/u/cur", "releases/v2")] blank_env.


(** One [upsertProject] seen from the store. *)
Definition upsert_row (d : Database) (x : Project) : Database :=
  upsert_projects_table (bound_parameters x) d.

Definition set_last_scanned (t : string) (p : Project) : Project :=
  {| id := id p; name := name p; path := path p; status := status p;
     is_git := is_git p; tech_stack := tech_stack p; last_scanned := t;
     description := description p; remote_url := remote_url p;
     sync_status := sync_status p; branch_name := branch_name p;
     last_activity_date := last_activity_date p |}.

(** Two records that differ at most in [last_scanned]. *)
Definition same_but_last_scanned (p q : Project) : Prop :=
  set_last_scanned "" p = set_last_scanned "" q.

(** The constraint [UNIQUE] on [path]. *)
Definition unique_paths (d : Database) : Prop :=
  NoDup (map path (projects d)).

(** The number of records stored for a path. *)
Definition records_at (d : Database) (p : string) : nat :=
  length (filter (fun row => path row =? p) (projects d)).

(** The last project of a list that has a given path. *)
Fixpoint last_with_path (p : string) (xs : list Project) : option Project :=
  match xs with
  | [] => None
  | x :: rest =>
      match last_with_path p rest with
      | Some y => Some y
      | None => if path x =? p then Some x else None
      end
  end.

(** What replaying the upserts of [xs] does to a row that is there. *)
Definition replayed (xs : list Project) (row : Project) : Project :=
  match last_with_path (path row) xs with
  | Some x => do_update (bound_parameters x) row
  | None => row
  end.

(** The children the loop of the scan looks into. *)
Definition is_candidate (entry : Dirent) : bool :=
  match d_kind entry with
  | IsDirectory =>
      negb (startsWith (d_name entry) ".") && negb (d_name entry =? "node_modules")
  | _ => false
  end.

(** What the helpers that do not throw return; they are shown below not
    to depend on the state. *)
Definition description_of (env : Env) (projectPath : string) : option string :=
  match fst (getProjectDescription env projectPath initial_state) with
  | inr d => d
  | inl _ => None
  end.

Definition gitInfo_of (env : Env) (projectPath : string) : GitInfo :=
  match fst (getGitInfo env projectPath initial_state) with
  | inr g => g
  | inl _ => {| remoteUrl := None; branch := None; syncStatus := Unknown |}
  end.

(** The record the scan builds for a qualifying child. *)
Definition found_project (env : Env) (rootPath : string) (entry : Dirent)
    (isGit : bool) (techStack : option string) (stamp : string) : Project :=
  let projectPath := path_join env rootPath (d_name entry) in
  {| id := None;
     name := d_name entry;
     path := projectPath;
     status := "active";
     is_git := isGit;
     tech_stack := techStack;
     last_scanned := stamp;
     description := description_of env projectPath;
     remote_url := if isGit then remoteUrl (gitInfo_of env projectPath) else None;
     sync_status := if isGit
                    then Some (SyncStatus_to_string
                                 (syncStatus (gitInfo_of env projectPath)))
                    else None;
     branch_name := if isGit then branch (gitInfo_of env projectPath) else None;
     last_activity_date := None |}.

(** The records a scan of [entries] upserts, in order and without their
    time stamps, and the error that ends it, if one does. *)
Fixpoint plan (env : Env) (rootPath : string) (entries : list Dirent)
  : list Project * option Err :=
  match entries with
  | [] => ([], None)
  | entry :: rest =>
      if is_candidate entry then
        let projectPath := path_join env rootPath (d_name entry) in
        match isGitRepo env projectPath with
        | inl e => ([], Some e)
        | inr isGit =>
            match detectTechStack env projectPath with
            | inl e => ([], Some e)
            | inr techStack =>
                if isGit || truthy techStack then
                  (found_project env rootPath entry isGit techStack ""
                     :: fst (plan env rootPath rest),
                   snd (plan env rootPath rest))
                else plan env rootPath rest
            end
        end
      else plan env rootPath rest
  end.

(** The time stamps: one reading of the clock for each record. *)
Fixpoint stamp (clock : nat -> string) (k : nat) (xs : list Project) : list Project :=
  match xs with
  | [] => []
  | x :: rest => set_last_scanned (clock k) x :: stamp clock (S k) rest
  end.

(** The root the scanner allows. *)
Definition allowed_root (env : Env) : string :=
  match or_null (HOME env) with
  | Some home => home
  | None => cwd env
  end.

(** The whole scan: the plan of the listing of the root, unless the root
    is rejected or cannot be listed. *)
Definition scan_summary (env : Env) (rootPath : string) : list Project * option Err :=
  match fst (validatePath env rootPath [allowed_root env] initial_state) with
  | inl e => ([], Some e)
  | inr _ =>
      match readdir env rootPath with
      | inl e => ([], Some e)
      | inr entries => plan env rootPath entries
      end
  end.


(** The error a detector raises for a child, if one does. *)
Definition detector_error (env : Env) (rootPath : string) (entry : Dirent)
  : option Err :=
  let projectPath := path_join env rootPath (d_name entry) in
  match isGitRepo env projectPath with
  | inl e => Some e
  | inr _ =>
      match detectTechStack env projectPath with
      | inl e => Some e
      | inr _ => None
      end
  end.

(** A child that is tracked: a candidate that is a repository or has a
    recognised technology. *)
Definition qualifies (env : Env) (rootPath : string) (entry : Dirent) : bool :=
  let projectPath := path_join env rootPath (d_name entry) in
  is_candidate entry
  && match isGitRepo env projectPath, detectTechStack env projectPath with
     | inr isGit, inr techStack => isGit || truthy techStack
     | _, _ => false
     end.

Definition scan_failure_line (rootPath : string) : string :=
  "Error scanning directory " ++ rootPath.

Definition with_listing (entries : list Dirent) (repositories : list string)
    (stacks : list (string * string)) (broken : list string) (e : Env) : Env :=
  {| readdir := fun dir => if dir =? "/home/u" then inr entries
                           else inl (FsError dir);
     access := access e; readFile := readFile e;
     isGitRepo := fun p => inr (existsb (String.eqb p) repositories);
     detectTechStack := fun p => if existsb (String.eqb p) broken
                                 then inl (FsError p)
                                 else inr (lookup stacks p);
     exec := exec e;
     path_join := path_join e; HOME := HOME e; cwd := cwd e;
     readlink := readlink e; fs_tree := fs_tree e; now := now e;
     toISOString := toISOString e |}.

(** The home directory of the examples: a repository [api] that is
    behind its remote, a Node.js project [web] without version control,
    a file and a hidden directory. *)
Definition home_entries : list Dirent :=
  [{| d_name := "api"; d_kind := IsDirectory |};
   {| d_name := "web"; d_kind := IsDirectory |};
   {| d_name := "notes.txt"; d_kind := IsFile |};
   {| d_name := ".cache"; d_kind := IsDirectory |}].

Definition home_env : Env :=
  with_listing home_entries ["/home/u/api"] [("/home/u/web", "Node.js")] []
    (with_exec behind_commands blank_env).

(** The same home directory when the detector fails on [api]. *)
Definition broken_home_env : Env :=
  with_listing home_entries ["/home/u/api"] [("/home/u/web", "Node.js")]
    ["/home/u/api"] (with_exec behind_commands blank_env).


(** The records of the two projects of [home_entries], as a scan
    returns them. *)
Definition api_record (stamp0 : string) : Project :=
  {| id := None; name := "api"; path := "/home/u/api"; status := "active";
     is_git := true; tech_stack := None; last_scanned := stamp0;
     description := None; remote_url := Some "git@host:u/p.git";
     sync_status := Some "Behind"; branch_name := Some "main";
     last_activity_date := None |}.

Definition web_record (stamp0 : string) : Project :=
  {| id := None; name := "web"; path := "/home/u/web"; status := "active";
     is_git := false; tech_stack := Some "Node.js"; last_scanned := stamp0;
     description := None; remote_url := None; sync_status := None;
     branch_name := None; last_activity_date := None |}.

(** The same home directory when the network is down and the README of
    [api] exists but cannot be read. *)
Definition degraded_home_env : Env :=
  with_access ["/home/u/api/README.md"]
    (with_listing home_entries ["/home/u/api"] [("/home/u/web", "Node.js")] []
       (with_exec offline_commands blank_env)).

(** The rewriting of a row by the [DO UPDATE] clause of
    [insertActivityStats]. *)
Definition updated_stat (projectId : Z) (stat : Stat) (row : ActivityStat)
  : ActivityStat :=
  if has_key projectId (s_date stat) row
  then {| stat_id := stat_id row; project_id := project_id row;
          date := date row; changes_count := s_count stat |}
  else row.

(** The rewriting of a row by the [DO UPDATE] clause of [upsertProject]. *)
Definition rewritten_row (x row : Project) : Project :=
  if path row =? path x then do_update (bound_parameters x) row else row.

(** Induction on trees. *)
Fixpoint FsNode_tree_ind (P : FsNode -> Prop)
    (Hfile : forall n m, P (FileNode n m))
    (Hother : forall n, P (OtherNode n))
    (Hunreadable : forall n, P (DirNode n None))
    (Hdir : forall n entries, Forall P entries -> P (DirNode n (Some entries)))
    (e : FsNode) {struct e} : P e :=
  match e with
  | FileNode n m => Hfile n m
  | OtherNode n => Hother n
  | DirNode n None => Hunreadable n
  | DirNode n (Some entries) =>
      Hdir n entries
        ((fix all (es : list FsNode) : Forall P es :=
            match es with
            | [] => Forall_nil P
            | e' :: es' =>
                Forall_cons e'
                  (FsNode_tree_ind P Hfile Hother Hunreadable Hdir e') (all es')
            end) entries)
  end.

(* ================================================================= *)
(** ** Vocabulary of the further statements *)

(** The state after some more lines have been logged. *)
Definition appended (lines : list string) (s : State) : State :=
  {| db := db s; log := log s ++ lines; ticks := ticks s |}.

(** The statuses that come out of a comparison with the remote. *)
Definition compared (s : SyncStatus) : Prop :=
  s = Synced \/ s = Ahead \/ s = Behind \/ s = Diverged.

(** The test of the loop of [getProjectDescription]: the line, trimmed,
    is not empty and is neither a title nor an image. *)
Definition describes (line : string) : bool :=
  negb (trim line =? "") && negb (startsWith (trim line) "#")
  && negb (startsWith (trim line) "![").

(** The text has ASCII characters only.  That is text on which the way
    a file is decoded plays no part: its bytes are its code units. *)
Fixpoint ascii_text (s : string) : bool :=
  match s with
  | EmptyString => true
  | String c s' => (nat_of_ascii c <? 128)%nat && ascii_text s'
  end.

(** A README whose first lines are a title, a blank line and a badge. *)
Definition readme_text : string :=
  "# api" ++ String LF "" ++ String LF "![build](badge.svg)"
  ++ String LF "  The billing API.  " ++ String LF "More text.".

Definition with_files (files : list (string * string)) (e : Env) : Env :=
  {| readdir := readdir e;
     access := fun f => match lookup files f with Some _ => true | None => false end;
     readFile := fun f => match lookup files f with
                          | Some content => inr content
                          | None => inl (FsError f)
                          end;
     isGitRepo := isGitRepo e; detectTechStack := detectTechStack e;
     exec := exec e;
     path_join := path_join e; HOME := HOME e; cwd := cwd e;
     readlink := readlink e; fs_tree := fs_tree e; now := now e;
     toISOString := toISOString e |}.

(** What the code keeps true of the store. *)
Definition row_id_ok (seq : Z) (row : Project) : Prop :=
  exists i, id row = Some i /\ (0 < i <= seq)%Z.

(** A row as [upsertProject] writes it: the five columns bound through
    [|| null] hold no empty string ([tech_stack] is bound as it comes). *)
Definition normalised (row : Project) : Prop := bound_parameters row = row.

Definition stat_id_ok (seq : Z) (s : ActivityStat) : Prop :=
  (0 < stat_id s <= seq)%Z.

(** The row of [activity_stats] refers to a row of [projects]. *)
Definition refers (d : Database) (s : ActivityStat) : Prop :=
  In (Some (project_id s)) (map id (projects d)).

Record well_formed (d : Database) : Prop := mk_well_formed {
  wf_paths : unique_paths d;
  wf_seq : (0 <= projects_seq d)%Z;
  wf_ids : NoDup (map id (projects d));
  wf_id_range : Forall (row_id_ok (projects_seq d)) (projects d);
  wf_normalised : Forall normalised (projects d);
  wf_stats : unique_stats d;
  wf_stat_seq : (0 <= activity_stats_seq d)%Z;
  wf_stat_ids : NoDup (map stat_id (activity_stats d));
  wf_stat_id_range : Forall (stat_id_ok (activity_stats_seq d)) (activity_stats d);
  wf_references : Forall (refers d) (activity_stats d)
}.

(** The row stored for a path, if there is one. *)
Definition project_at (d : Database) (p : string) : option Project :=
  find (fun row => path row =? p) (projects d).

(** A project as a caller may pass it: an id it made up, empty strings in
    nullable columns. *)
Definition raw_project : Project :=
  {| id := Some 99%Z; name := "p2"; path := "/home/u/p"; status := "archived";
     is_git := false; tech_stack := Some "Rust"; last_scanned := "7";
     description := Some ""; remote_url := Some ""; sync_status := None;
     branch_name := Some "dev"; last_activity_date := Some "" |}.

(** What replaying the inserts of [stats] for a project does to a row of
    [activity_stats] that is there. *)
Definition stat_replayed (projectId : Z) (stats : list Stat) (row : ActivityStat)
  : ActivityStat :=
  if (project_id row =? projectId)%Z
  then match produced_count stats (date row) with
       | Some c => {| stat_id := stat_id row; project_id := project_id row;
                      date := date row; changes_count := c |}
       | None => row
       end
  else row.

(** The line logged when the log of a repository cannot be read. *)
Definition git_activity_failure_line (dirPath : string) : string :=
  "Error getting git activity in " ++ dirPath ++ ":".

(** The date of the last commit ever, as the fallback query gives it. *)
Definition last_commit_date (env : Env) (dirPath : string) : option string :=
  match exec env dirPath git_log_last with
  | Some lastCommit => if trim lastCommit =? "" then None else Some (trim lastCommit)
  | None => None
  end.

(** The number of commits a histogram counts. *)
Definition sum_counts (stats : list Stat) : Z :=
  fold_right Z.add 0%Z (map s_count stats).

(** [a] stands for a later day than [b]. *)
Definition later_day (a b : Stat) : Prop :=
  String.ltb (s_date b) (s_date a) = true.

(** A directory with a file whose modification time is beyond the range
    of a [Date]. *)
Definition far_future_tree : list FsNode :=
  [FileNode "a.txt" (Some 1700000000000%Z);
   FileNode "b.txt" (Some 9000000000000000%Z)].

(** A directory in which the [stat] of the second of three files fails,
    next to a file of its parent. *)
Definition racing_tree : list FsNode :=
  [DirNode "src" (Some [FileNode "a.txt" (Some 1600000000000%Z);
                        FileNode "gone.txt" None;
                        FileNode "b.txt" (Some 1800000000000%Z)]);
   FileNode "c.txt" (Some 1700000000000%Z)].

(** The newest modification time the walk of a directory sees, or 0. *)
Definition newest (env : Env) (dirPath : string) : Z :=
  walk (fs_tree env dirPath) 0.

Definition invalid_time : Err := RangeError "Invalid time value".

(** The aggregator throws on the project: it is not a repository and the
    newest file the walk sees lies beyond the range of a [Date]. *)
Definition out_of_range (env : Env) (project : Project) : bool :=
  negb (is_git project) && (MAX_TIME_VALUE <? newest env (path project))%Z.

(** What the aggregator finds for a stored project when it returns: the
    date and the counts; it is shown below not to depend on the state. *)
Definition activity_of (env : Env) (project : Project)
  : option string * list Stat :=
  if is_git project
  then match fst (getGitActivity env (path project) initial_state) with
       | inr r => r
       | inl _ => (None, [])
       end
  else match fst (getFileActivity env (path project) initial_state) with
       | inr d => (d, [])
       | inl _ => (None, [])
       end.

Definition set_last_activity (v : option string) (p : Project) : Project :=
  {| id := id p; name := name p; path := path p; status := status p;
     is_git := is_git p; tech_stack := tech_stack p;
     last_scanned := last_scanned p;
     description := description p; remote_url := remote_url p;
     sync_status := sync_status p; branch_name := branch_name p;
     last_activity_date := v |}.

(** Two records that differ at most in [last_activity_date]. *)
Definition same_but_last_activity (p q : Project) : Prop :=
  set_last_activity None p = set_last_activity None q.

(** The date is present and is not the one stored. *)
Definition is_news (project : Project) (v : string) : bool :=
  match last_activity_date project with
  | Some stored => negb (stored =? v)
  | None => true
  end.

(** The store after the date has been written, before the counts are. *)
Definition dated (env : Env) (project : Project) (d : Database) : Database :=
  match or_null (fst (activity_of env project)) with
  | Some v => if is_news project v
              then upsert_row d (set_last_activity (Some v) project)
              else d
  | None => d
  end.

(** The date of a project after its analysis. *)
Definition analysed_date (env : Env) (project : Project) : option string :=
  match or_null (fst (activity_of env project)) with
  | Some v => Some v
  | None => last_activity_date project
  end.

(** The store after the analysis of a project that was found. *)
Definition analysed (env : Env) (project : Project) (d : Database) : Database :=
  let d1 := match or_null (fst (activity_of env project)) with
            | Some v => if is_news project v
                        then upsert_row d (set_last_activity (Some v) project)
                        else d
            | None => d
            end in
  match id project with
  | Some projectId =>
      if (0 <? length (snd (activity_of env project)))%nat
         && negb (projectId =? 0)%Z
      then fold_left (insert_stat projectId) (snd (activity_of env project)) d1
      else d1
  | None => d1
  end.

(** A row after the analysis of its project. *)
Definition analysed_row (env : Env) (row : Project) : Project :=
  set_last_activity (analysed_date env row) row.

(** The rows after the analysis of the projects at [paths]. *)
Definition analysed_rows_at (env : Env) (paths : list string) (rows : list Project)
  : list Project :=
  map (fun row => if existsb (String.eqb (path row)) paths
                  then analysed_row env row else row) rows.

(** The analysis of the project stored at a path throws. *)
Definition throws_at (env : Env) (d : Database) (p : string) : bool :=
  match project_at d p with
  | Some row => out_of_range env row
  | None => false
  end.

(** The paths the handler of [analyze_project_activity] analyses, up to
    their order. *)
Definition targets (project_path : option string) (d : Database) : list string :=
  match or_null project_path with
  | Some p => [p]
  | None => map path (projects d)
  end.

(** The text the handler of [analyze_project_activity] answers with. *)
Definition analysis_answer (project_path : option string) (d : Database) : string :=
  match or_null project_path with
  | Some p => "Analyzed activity for project at " ++ p
  | None => "Analyzed activity for all " ++ show_count (length (projects d))
            ++ " projects."
  end.

(** What an analysis may do to a row: write [last_activity_date], and
    not clear it. *)
Definition date_refreshed (row row' : Project) : Prop :=
  same_but_last_activity row row'
  /\ (last_activity_date row <> None -> last_activity_date row' <> None).

(** The shape of a record the scan builds. *)
Definition scanned (env : Env) (rootPath : string) (entries : list Dirent)
    (p : Project) : Prop :=
  (exists entry, In entry entries /\ d_kind entry = IsDirectory
                 /\ name p = d_name entry
                 /\ path p = path_join env rootPath (d_name entry))
  /\ startsWith (name p) "." = false
  /\ name p <> "node_modules"
  /\ id p = None /\ status p = "active" /\ last_activity_date p = None
  /\ isGitRepo env (path p) = inr (is_git p)
  /\ detectTechStack env (path p) = inr (tech_stack p)
  /\ (is_git p = true \/ truthy (tech_stack p) = true)
  /\ (is_git p = false ->
      remote_url p = None /\ sync_status p = None /\ branch_name p = None)
  /\ (is_git p = true ->
      exists s, sync_status p = Some (SyncStatus_to_string s)).


(** What a scan does to a row that was in the store. *)
Definition rescanned (discovered : list Project) (row row' : Project) : Prop :=
  id row' = id row /\ path row' = path row
  /\ (~ In (path row) (map path discovered) -> row' = row)
  /\ (In (path row) (map path discovered) ->
      status row' = "active" /\ last_activity_date row' = None
      /\ exists p, In p discovered /\ path p = path row
                   /\ name row' = name p /\ is_git row' = is_git p
                   /\ tech_stack row' = tech_stack p
                   /\ last_scanned row' = last_scanned p).

(** The rows and the flag of the listing for a limit and an offset. *)
Definition page (st : State) (lim off : Z) : list Project :=
  match fst (list_projects (Some lim) (Some off) st) with
  | inr listing => data listing
  | inl _ => []
  end.

Definition more (st : State) (lim off : Z) : bool :=
  match fst (list_projects (Some lim) (Some off) st) with
  | inr listing => has_more (pagination listing)
  | inl _ => false
  end.

(** The first [n] pages, each asked for at the offset where the one
    before ended: [offset + limit] of its [pagination]. *)
Fixpoint pages (st : State) (lim : Z) (n : nat) : list Project :=
  match n with
  | O => []
  | S k => pages st lim k ++ page st lim (Z.of_nat k * Z.min lim 50)
  end.

(** [ORDER BY name] *)
Definition by_name (a b : Project) : comparison :=
  String.compare (name a) (name b).

(** The handler of [list_projects] before it was paginated:
    [SELECT * FROM projects ORDER BY name]. *)
Definition list_projects_unpaginated : M (list Project) :=
  d <- get_db ;;
  ret (sort_by by_name (projects d)).

(* ================================================================= *)
(** ** More of the tools ([src/index.ts]) *)

Definition NL : string := String LF EmptyString.

(** [`- ${p.name} (${p.tech_stack})`] *)
Definition project_line (p : Project) : string :=
  "- " ++ name p ++ " (" ++ show_nullable (tech_stack p) ++ ")".

(** The text of the response of [scan_projects]. *)
Definition scan_report (root : string) (projects0 : list Project) : string :=
  "Scanned and analyzed " ++ show_count (length projects0) ++ " projects in "
  ++ root ++ ":" ++ NL ++ String.concat NL (map project_line projects0).


Section Tools.

Context (env : Env).

(** [root_path || process.cwd()] *)
Definition scan_root (root_path : option string) : string :=
  match or_null root_path with
  | Some r => r
  | None => cwd env
  end.

(** The scan and the analysis of what it found, as both versions of the
    tool [scan_projects] run them. *)
Definition scan_and_analyze (root : string) : M string :=
  projects0 <- scanDirectory env root ;;
  (* Trigger activity analysis for all scanned projects *)
  logger_info ("Starting activity analysis for "
               ++ show_count (length projects0) ++ " projects...") ;;
  analyze_each env (map path projects0) ;;
  ret (scan_report root projects0).

(** The handler of the tool [scan_projects], within [withErrorHandling]. *)
Definition scan_projects (root_path : option string) : M string :=
  let root := scan_root root_path in
  scan_and_analyze root.


End Tools.

(** The [WHERE] clause of the query of [get_project_health]. *)
Definition needs_attention (row : Project) : bool :=
  is_git row
  && match sync_status row with
     | Some s => negb (existsb (String.eqb s)
                               ["Synced"; "Unknown"; "NoRemote"; "null"])
     | None => false
     end.

(** [`- [${p.name}] (${p.branch_name}): ${p.sync_status}\n`] *)
Definition health_line (p : Project) : string :=
  "- [" ++ name p ++ "] (" ++ show_nullable (branch_name p) ++ "): "
  ++ show_nullable (sync_status p) ++ NL.

Definition health_header (count : nat) : string :=
  "Project Health Report" ++ NL ++ "=====================" ++ NL
  ++ "Projects requiring attention: " ++ show_count count ++ NL ++ NL.

(** The handler of the tool [get_project_health]. *)
Definition get_project_health : M string :=
  d <- get_db ;;
  let unsynced := sort_by by_name (filter needs_attention (projects d)) in
  let count := length unsynced in
  let report := health_header count in
  ret (if (count =? 0)%nat
       then (report ++ "All git projects are in sync with their remotes!")%string
       else fold_left (fun report0 p => (report0 ++ health_line p)%string)
                      unsynced report).

(** The object the resource [projects://summary] prints. *)
Record Summary : Type := mkSummary {
  total_projects : Z;
  active_last_7_days : Z;
  generated_at : string
}.

(** [date >= ?] on text. *)
Definition on_or_after (cutoff : string) (s : ActivityStat) : bool :=
  negb (String.ltb (date s) cutoff).

(** The handler of the resource [projects://summary].  [cutoff] is what
    SQLite computes for [date('now', '-7 days')]. *)
Definition projects_summary (env : Env) (cutoff : string) : M Summary :=
  d <- get_db ;;
  let total0 := Z.of_nat (length (projects d)) in
  let active0 :=
    Z.of_nat (length (nodup Z.eq_dec
                        (map project_id
                             (filter (on_or_after cutoff) (activity_stats d))))) in
  stamp0 <- new_Date_toISOString env ;;
  ret {| total_projects := total0;
         active_last_7_days := active0;
         generated_at := stamp0 |}.

(** The sync status of a row is the one the scanner writes: a status of
    the classifier for a repository, none otherwise. *)
Definition scanner_status (row : Project) : Prop :=
  if is_git row
  then exists s, sync_status row = Some (SyncStatus_to_string s)
  else sync_status row = None.

(** The repository is ahead of its remote, behind it, or has diverged. *)
Definition out_of_sync (row : Project) : bool :=
  match sync_status row with
  | Some s => existsb (String.eqb s) ["Ahead"; "Behind"; "Diverged"]
  | None => false
  end.

(** The project has a row of activity on or after the cutoff. *)
Definition recently_active (d : Database) (cutoff : string) (p : Project) : bool :=
  match id p with
  | Some i => existsb (fun s => (project_id s =? i)%Z && on_or_after cutoff s)
                      (activity_stats d)
  | None => false
  end.

(** A store that tracks two projects: the repository [api], archived by
    hand and with a date and a count of activity, and a directory [old]
    that is not in the home directory of the examples any more. *)
Definition tracked_api : Project :=
  {| id := Some 1%Z; name := "api"; path := "/home/u/api"; status := "archived";
     is_git := true; tech_stack := None; last_scanned := "0";
     description := None; remote_url := Some "git@host:u/p.git";
     sync_status := Some "Behind"; branch_name := Some "main";
     last_activity_date := Some "2024-01-05" |}.

Definition tracked_old : Project :=
  {| id := Some 2%Z; name := "old"; path := "/home/u/old"; status := "active";
     is_git := false; tech_stack := Some "Python"; last_scanned := "0";
     description := None; remote_url := None; sync_status := None;
     branch_name := None; last_activity_date := None |}.

Definition tracked_state : State :=
  {| db := {| projects := [tracked_api; tracked_old]; projects_seq := 2;
              activity_stats := [{| stat_id := 1; project_id := 1;
                                    date := "2024-01-05"; changes_count := 3 |};
                                 {| stat_id := 2; project_id := 2;
                                    date := "2023-06-01"; changes_count := 1 |}];
              activity_stats_seq := 2 |};
     log := []; ticks := 0 |}.

(* ================================================================= *)
(** * Properties *)

(** ** The monad *)

Lemma bind_ret_l {A B} (a : A) (k : A -> M B) (s : State) :
  bind (ret a) k s = k a s.
Proof. reflexivity. Qed.

Lemma bind_inr {A B} {m : M A} (k : A -> M B) {s s' : State} {a : A} :
  m s = (inr a, s') -> bind m k s = k a s'.
Proof. intros E. unfold bind. now rewrite E. Qed.

Lemma never_throws_ret {A} (a : A) : never_throws (ret a).
Proof. intros s. exists a, s. reflexivity. Qed.

Lemma never_throws_bind {A B} (m : M A) (k : A -> M B) :
  never_throws m -> (forall a, never_throws (k a)) -> never_throws (bind m k).
Proof.
  intros Hm Hk s. destruct (Hm s) as (a & s' & E).
  destruct (Hk a s') as (b & s'' & E'). exists b, s''.
  unfold bind. now rewrite E.
Qed.

Lemma never_throws_try_catch {A} (m : M A) (h : Err -> M A) :
  (forall e, never_throws (h e)) -> never_throws (try_catch m h).
Proof.
  intros Hh s. unfold try_catch.
  destruct (m s) as [[e | a] s'] eqn:E.
  - apply Hh.
  - now exists a, s'.
Qed.

Lemma never_throws_console_error (msg : string) : never_throws (console_error msg).
Proof. intros s. eexists _, _. reflexivity. Qed.

(** ** The synchronisation classifier *)

Section GitProperties.

Context (env : Env) (dirPath : string).

Lemma getGitInfo_never_throws : never_throws (getGitInfo env dirPath).
Proof.
  apply never_throws_try_catch. intros e.
  apply never_throws_bind; [apply never_throws_console_error|].
  intros _. apply never_throws_ret.
Qed.

Lemma getGitInfo_no_branch (st : State) :
  exec env dirPath "git rev-parse --abbrev-ref HEAD" = None ->
  getGitInfo env dirPath st
  = (inr {| remoteUrl := None; branch := None; syncStatus := Unknown |}, st).
Proof.
  intros Hb. cbv [getGitInfo try_catch bind execAsync ret throw].
  now rewrite Hb.
Qed.

Lemma getGitInfo_no_remote (st : State) (b : string) :
  exec env dirPath "git rev-parse --abbrev-ref HEAD" = Some b ->
  exec env dirPath "git remote get-url origin" = None ->
  getGitInfo env dirPath st
  = (inr {| remoteUrl := None; branch := Some (trim b); syncStatus := NoRemote |}, st).
Proof.
  intros Hb Hu. cbv [getGitInfo try_catch bind execAsync ret throw].
  now rewrite Hb, Hu.
Qed.

Lemma getGitInfo_compared (st : State) (b u f l r m : string) :
  exec env dirPath "git rev-parse --abbrev-ref HEAD" = Some b ->
  exec env dirPath "git remote get-url origin" = Some u ->
  exec env dirPath ("git fetch origin " ++ trim b) = Some f ->
  exec env dirPath "git rev-parse HEAD" = Some l ->
  exec env dirPath ("git rev-parse origin/" ++ trim b) = Some r ->
  exec env dirPath ("git merge-base HEAD origin/" ++ trim b) = Some m ->
  getGitInfo env dirPath st
  = (inr {| remoteUrl := Some (trim u); branch := Some (trim b);
            syncStatus := if trim l =? trim r then Synced
                          else if trim l =? trim m then Behind
                          else if trim r =? trim m then Ahead
                          else Diverged |}, st).
Proof.
  intros Hb Hu Hf Hl Hr Hm. cbv [getGitInfo try_catch bind execAsync ret throw].
  now rewrite Hb, Hu, Hf, Hl, Hr, Hm.
Qed.

Lemma decision_table_computed (l r m : string) :
  decision_table l r m (if l =? r then Synced
                        else if l =? m then Behind
                        else if r =? m then Ahead
                        else Diverged).
Proof.
  unfold decision_table.
  destruct (String.eqb_spec l r), (String.eqb_spec l m), (String.eqb_spec r m);
    repeat split; intros; congruence.
Qed.

(** C1. Whatever the repository path and the state: when the branch
    cannot be resolved the classifier returns [{null, null, Unknown}];
    when the branch resolves but there is no [origin] remote it returns
    [{null, branch, NoRemote}]; and when the fetch and the three hash
    resolutions succeed, the status obeys the four rows of the decision
    table over the trimmed local, remote and merge-base hashes.  Nothing
    is logged and the store is untouched in the three cases. *)
Theorem getGitInfo_decision_table (st : State) :
  (exec env dirPath "git rev-parse --abbrev-ref HEAD" = None ->
   getGitInfo env dirPath st
   = (inr {| remoteUrl := None; branch := None; syncStatus := Unknown |}, st))
  /\
  (forall b,
     exec env dirPath "git rev-parse --abbrev-ref HEAD" = Some b ->
     exec env dirPath "git remote get-url origin" = None ->
     getGitInfo env dirPath st
     = (inr {| remoteUrl := None; branch := Some (trim b);
               syncStatus := NoRemote |}, st))
  /\
  (forall b u f l r m,
     exec env dirPath "git rev-parse --abbrev-ref HEAD" = Some b ->
     exec env dirPath "git remote get-url origin" = Some u ->
     exec env dirPath ("git fetch origin " ++ trim b) = Some f ->
     exec env dirPath "git rev-parse HEAD" = Some l ->
     exec env dirPath ("git rev-parse origin/" ++ trim b) = Some r ->
     exec env dirPath ("git merge-base HEAD origin/" ++ trim b) = Some m ->
     exists s,
       getGitInfo env dirPath st
       = (inr {| remoteUrl := Some (trim u); branch := Some (trim b);
                 syncStatus := s |}, st)
       /\ decision_table (trim l) (trim r) (trim m) s).
Proof.
  split; [|split].
  - apply getGitInfo_no_branch.
  - intros b. apply getGitInfo_no_remote.
  - intros b u f l r m Hb Hu Hf Hl Hr Hm. eexists. split.
    + eapply getGitInfo_compared; eassumption.
    + apply decision_table_computed.
Qed.

(** C7. Once the branch and the remote URL are resolved, a failure of the
    fetch or of any of the three hash resolutions makes the classifier
    return normally, with status [Unknown] and with the branch and the
    remote URL it had resolved; one line is logged and the store is
    untouched. *)
Theorem getGitInfo_sync_failure (st : State) (b u : string) :
  exec env dirPath "git rev-parse --abbrev-ref HEAD" = Some b ->
  exec env dirPath "git remote get-url origin" = Some u ->
  (exec env dirPath ("git fetch origin " ++ trim b) = None
   \/ exec env dirPath "git rev-parse HEAD" = None
   \/ exec env dirPath ("git rev-parse origin/" ++ trim b) = None
   \/ exec env dirPath ("git merge-base HEAD origin/" ++ trim b) = None) ->
  getGitInfo env dirPath st
  = (inr {| remoteUrl := Some (trim u); branch := Some (trim b);
            syncStatus := Unknown |},
     logged (sync_failure_line dirPath) st).
Proof.
  intros Hb Hu Hfail.
  cbv [getGitInfo try_catch bind execAsync ret throw].
  rewrite Hb, Hu.
  destruct (exec env dirPath ("git fetch origin " ++ trim b)) as [f|] eqn:Hf;
    [|reflexivity].
  destruct (exec env dirPath "git rev-parse HEAD") as [l|] eqn:Hl;
    [|reflexivity].
  destruct (exec env dirPath ("git rev-parse origin/" ++ trim b)) as [r|] eqn:Hr;
    [|reflexivity].
  destruct (exec env dirPath ("git merge-base HEAD origin/" ++ trim b)) as [m|] eqn:Hm;
    [|reflexivity].
  destruct Hfail as [H | [H | [H | H]]]; discriminate H.
Qed.

End GitProperties.

Lemma getGitInfo_decision_table_witness :
  getGitInfo (with_exec [] blank_env) "/home/u/p" initial_state
  = (inr {| remoteUrl := None; branch := None; syncStatus := Unknown |},
     initial_state)
  /\ getGitInfo (with_exec local_only_commands blank_env) "/home/u/p" initial_state
     = (inr {| remoteUrl := None; branch := Some "main"; syncStatus := NoRemote |},
        initial_state)
  /\ exists s,
       getGitInfo (with_exec behind_commands blank_env) "/home/u/p" initial_state
       = (inr {| remoteUrl := Some "git@host:u/p.git"; branch := Some "main";
                 syncStatus := s |}, initial_state)
       /\ decision_table "aaa1" "bbb2" "aaa1" s.
Proof.
  split; [|split].
  - apply (proj1 (getGitInfo_decision_table (with_exec [] blank_env)
                    "/home/u/p" initial_state)).
    reflexivity.
  - apply (proj1 (proj2 (getGitInfo_decision_table
                           (with_exec local_only_commands blank_env)
                           "/home/u/p" initial_state))
             ("main" ++ String LF "")%string); reflexivity.
  - apply (proj2 (proj2 (getGitInfo_decision_table
                           (with_exec behind_commands blank_env)
                           "/home/u/p" initial_state))
             (String LF "main" ++ String LF "")%string
             ("git@host:u/p.git" ++ String LF "")%string
             ""%string
             ("aaa1" ++ String LF "")%string
             ("bbb2" ++ String LF "")%string
             ("aaa1" ++ String LF "")%string); reflexivity.
Defined.

Lemma getGitInfo_sync_failure_witness :
  getGitInfo (with_exec offline_commands blank_env) "/home/u/p" initial_state
  = (inr {| remoteUrl := Some "git@host:u/p.git"; branch := Some "main";
            syncStatus := Unknown |},
     logged (sync_failure_line "/home/u/p") initial_state).
Proof.
  apply (getGitInfo_sync_failure (with_exec offline_commands blank_env)
           "/home/u/p" initial_state
           ("main" ++ String LF "")%string
           ("git@host:u/p.git" ++ String LF "")%string).
  - reflexivity.
  - reflexivity.
  - left. reflexivity.
Defined.

(** ** The store: rows of [activity_stats] *)

Lemma find_append {A} (f : A -> bool) (l1 l2 : list A) :
  find f (l1 ++ l2) = match find f l1 with
                      | Some x => Some x
                      | None => find f l2
                      end.
Proof.
  induction l1 as [|x l1 IH]; simpl; [reflexivity|].
  now destruct (f x).
Qed.

Lemma has_key_true (projectId : Z) (day : string) (row : ActivityStat) :
  has_key projectId day row = true <-> stat_key row = (projectId, day).
Proof.
  unfold has_key, stat_key. rewrite andb_true_iff, Z.eqb_eq, String.eqb_eq.
  split; [intros [-> ->]; reflexivity | intros [= -> ->]; split; reflexivity].
Qed.

Lemma existsb_has_key (projectId : Z) (day : string) (rows : list ActivityStat) :
  existsb (has_key projectId day) rows = true
  <-> In (projectId, day) (map stat_key rows).
Proof.
  rewrite existsb_exists, in_map_iff. split.
  - intros (row & Hin & Hk). exists row. split; [now apply has_key_true | easy].
  - intros (row & Hk & Hin). exists row. split; [easy | now apply has_key_true].
Qed.

Lemma find_none_of_no_key (projectId : Z) (day : string) (rows : list ActivityStat) :
  existsb (has_key projectId day) rows = false ->
  find (has_key projectId day) rows = None.
Proof.
  induction rows as [|row rows IH]; simpl; [easy|].
  destruct (has_key projectId day row); simpl; [discriminate | exact IH].
Qed.

Section StatRows.

Context (projectId : Z) (stat : Stat).

Lemma updated_key (row : ActivityStat) :
  stat_key (updated_stat projectId stat row) = stat_key row.
Proof. unfold updated_stat. now destruct (has_key _ _ row). Qed.

Lemma map_updated_keys (rows : list ActivityStat) :
  map stat_key (map (updated_stat projectId stat) rows) = map stat_key rows.
Proof.
  rewrite map_map. apply map_ext. exact updated_key.
Qed.

Lemma find_updated (pid : Z) (day : string) (rows : list ActivityStat) :
  option_map changes_count
    (find (has_key pid day) (map (updated_stat projectId stat) rows))
  = match find (has_key pid day) rows with
    | Some row => Some (changes_count (updated_stat projectId stat row))
    | None => None
    end.
Proof.
  induction rows as [|row rows IH]; simpl; [reflexivity|].
  assert (Hk : has_key pid day (updated_stat projectId stat row) = has_key pid day row).
  { unfold has_key. pose proof (updated_key row) as E.
    unfold stat_key in E. now injection E as -> ->. }
  rewrite Hk. destruct (has_key pid day row); [reflexivity | exact IH].
Qed.

Lemma insert_stat_rows (d : Database) :
  activity_stats (insert_stat projectId d stat)
  = if existsb (has_key projectId (s_date stat)) (activity_stats d)
    then map (updated_stat projectId stat) (activity_stats d)
    else activity_stats d ++
         [{| stat_id := activity_stats_seq d + 1; project_id := projectId;
             date := s_date stat; changes_count := s_count stat |}].
Proof.
  unfold insert_stat. fold (has_key projectId (s_date stat)).
  now destruct (existsb _ (activity_stats d)).
Qed.

Lemma insert_stat_projects (d : Database) :
  projects (insert_stat projectId d stat) = projects d
  /\ projects_seq (insert_stat projectId d stat) = projects_seq d.
Proof.
  unfold insert_stat. now destruct (existsb _ (activity_stats d)).
Qed.

Lemma insert_stat_unique (d : Database) :
  unique_stats d -> unique_stats (insert_stat projectId d stat).
Proof.
  unfold unique_stats. intros Hu. rewrite insert_stat_rows.
  destruct (existsb _ (activity_stats d)) eqn:E.
  - now rewrite map_updated_keys.
  - rewrite map_app. simpl. apply NoDup_app; [exact Hu | | ].
    + repeat constructor. intros [].
    + intros k Hin [<- | []]. unfold stat_key in Hin. simpl in Hin.
      apply existsb_has_key in Hin. congruence.
Qed.

(** One [insert.run]: the row of the key holds the new count, every other
    key holds what it held. *)
Lemma insert_stat_stored (d : Database) (pid : Z) (day : string) :
  stored_count (insert_stat projectId d stat) pid day
  = if (pid =? projectId)%Z && (day =? s_date stat)
    then Some (s_count stat)
    else stored_count d pid day.
Proof.
  unfold stored_count. rewrite insert_stat_rows.
  destruct (existsb _ (activity_stats d)) eqn:E.
  - rewrite find_updated.
    destruct ((pid =? projectId)%Z && (day =? s_date stat)) eqn:K.
    + apply andb_true_iff in K. destruct K as [K1 K2].
      apply Z.eqb_eq in K1. apply String.eqb_eq in K2. subst pid day.
      destruct (find _ (activity_stats d)) as [row|] eqn:F.
      * apply find_some in F. destruct F as [_ F]. unfold updated_stat. now rewrite F.
      * apply existsb_exists in E. destruct E as (row & Hin & Hk).
        now rewrite (find_none _ _ F row Hin) in Hk.
    + destruct (find _ (activity_stats d)) as [row|] eqn:F; [|reflexivity].
      apply find_some in F. destruct F as [_ F]. simpl. unfold updated_stat.
      destruct (has_key projectId (s_date stat) row) eqn:K'; [|reflexivity].
      apply has_key_true in F. apply has_key_true in K'.
      rewrite F in K'. injection K' as -> ->.
      now rewrite Z.eqb_refl, String.eqb_refl in K.
  - rewrite find_append.
    destruct (find (has_key pid day) (activity_stats d)) as [row|] eqn:F.
    + destruct ((pid =? projectId)%Z && (day =? s_date stat)) eqn:K; [|reflexivity].
      apply andb_true_iff in K. destruct K as [K1 K2].
      apply Z.eqb_eq in K1. apply String.eqb_eq in K2. subst pid day.
      rewrite (find_none_of_no_key _ _ _ E) in F. discriminate.
    + simpl. unfold has_key at 1. simpl.
      rewrite (Z.eqb_sym projectId pid), (String.eqb_sym (s_date stat) day).
      now destruct ((pid =? projectId)%Z && (day =? s_date stat)).
Qed.

End StatRows.

Lemma produced_count_snoc (stats : list Stat) (stat : Stat) (day : string) :
  produced_count (stats ++ [stat]) day
  = if day =? s_date stat then Some (s_count stat) else produced_count stats day.
Proof.
  unfold produced_count. rewrite rev_app_distr. simpl.
  rewrite (String.eqb_sym (s_date stat) day).
  now destruct (day =? s_date stat).
Qed.

Lemma insert_all_unique (projectId : Z) (stats : list Stat) (d : Database) :
  unique_stats d -> unique_stats (fold_left (insert_stat projectId) stats d).
Proof.
  revert d. induction stats as [|stat stats IH]; intros d Hu; simpl; [exact Hu|].
  apply IH. now apply insert_stat_unique.
Qed.

Lemma insert_all_stored (projectId : Z) (stats : list Stat) (d : Database)
      (pid : Z) (day : string) :
  stored_count (fold_left (insert_stat projectId) stats d) pid day
  = if (pid =? projectId)%Z
    then match produced_count stats day with
         | Some c => Some c
         | None => stored_count d pid day
         end
    else stored_count d pid day.
Proof.
  induction stats as [|stat stats IH] using rev_ind.
  - simpl. unfold produced_count. simpl. now destruct (pid =? projectId)%Z.
  - rewrite fold_left_app. simpl. rewrite insert_stat_stored, IH.
    rewrite produced_count_snoc.
    destruct (pid =? projectId)%Z; simpl; [|reflexivity].
    now destruct (day =? s_date stat).
Qed.

(** C9. Rows of [activity_stats] are unique per (project, day): the
    empty table is, and [insertActivityStats] keeps it so.  After a run,
    a day for which the run produced a count holds exactly that count
    (the last one produced for the day), whatever was stored before: the
    old and the new counts are never added up; every other key holds
    what it held. *)
Theorem insertActivityStats_last_write_wins
        (projectId : Z) (stats : list Stat) (st : State) :
  let st' := snd (insertActivityStats projectId stats st) in
  unique_stats empty_database
  /\ fst (insertActivityStats projectId stats st) = inr tt
  /\ (unique_stats (db st) -> unique_stats (db st'))
  /\ (forall day c, produced_count stats day = Some c ->
                    stored_count (db st') projectId day = Some c)
  /\ (forall day, produced_count stats day = None ->
                  stored_count (db st') projectId day
                  = stored_count (db st) projectId day)
  /\ (forall pid day, pid <> projectId ->
                      stored_count (db st') pid day = stored_count (db st) pid day).
Proof.
  simpl. split; [constructor|]. split; [reflexivity|].
  split; [apply insert_all_unique|].
  split; [|split].
  - intros day c Hc. rewrite insert_all_stored, Z.eqb_refl. now rewrite Hc.
  - intros day Hc. rewrite insert_all_stored, Z.eqb_refl. now rewrite Hc.
  - intros pid day Hne. rewrite insert_all_stored.
    apply Z.eqb_neq in Hne. now rewrite Hne.
Qed.

(** A second run that counts 2 commits on a day that held 5 leaves 2, and
    leaves the table with one row per key. *)
Lemma insertActivityStats_last_write_wins_witness :
  stored_count (db one_project_state) 1 "2024-01-01" = Some 5%Z
  /\ stored_count
       (db (snd (insertActivityStats 1
                   [{| s_date := "2024-01-02"; s_count := 1 |};
                    {| s_date := "2024-01-01"; s_count := 2 |}]
                   one_project_state))) 1 "2024-01-01" = Some 2%Z
  /\ unique_stats
       (db (snd (insertActivityStats 1
                   [{| s_date := "2024-01-02"; s_count := 1 |};
                    {| s_date := "2024-01-01"; s_count := 2 |}]
                   one_project_state))).
Proof.
  pose proof (insertActivityStats_last_write_wins 1
                [{| s_date := "2024-01-02"; s_count := 1 |};
                 {| s_date := "2024-01-01"; s_count := 2 |}]
                one_project_state) as H.
  destruct H as (_ & _ & Hu & Hc & _).
  split; [reflexivity|]. split.
  - apply Hc. reflexivity.
  - apply Hu. unfold unique_stats. simpl. repeat constructor. intros [].
Defined.

(** ** Sorting *)

Lemma insert_by_perm {A} (cmp : A -> A -> comparison) (x : A) (l : list A) :
  Permutation (insert_by cmp x l) (x :: l).
Proof.
  induction l as [|y l IH]; simpl; [reflexivity|].
  destruct (cmp x y); try reflexivity.
  rewrite IH. apply perm_swap.
Qed.

Lemma sort_by_perm {A} (cmp : A -> A -> comparison) (l : list A) :
  Permutation (sort_by cmp l) l.
Proof.
  induction l as [|x l IH]; simpl; [reflexivity|].
  unfold sort_by in *. simpl. rewrite insert_by_perm. now constructor.
Qed.

Lemma sort_by_length {A} (cmp : A -> A -> comparison) (l : list A) :
  length (sort_by cmp l) = length l.
Proof. apply Permutation_length, sort_by_perm. Qed.

(** ** The paginated listing *)

Lemma sql_limit_offset_length {A} (lim off : Z) (rows : list A) :
  (0 <= lim)%Z -> (Z.of_nat (length (sql_limit_offset lim off rows)) <= lim)%Z.
Proof.
  intros Hl. unfold sql_limit_offset.
  destruct (lim <? 0)%Z eqn:E; [apply Z.ltb_lt in E; lia|].
  pose proof (firstn_le_length (Z.to_nat lim) (skipn (Z.to_nat off) rows)). lia.
Qed.

Lemma sql_limit_offset_incl {A} (lim off : Z) (rows : list A) :
  incl (sql_limit_offset lim off rows) rows.
Proof.
  assert (Hs : forall n (l : list A) x, In x (skipn n l) -> In x l).
  { intros n l x Hin. rewrite <- (firstn_skipn n l). apply in_or_app. now right. }
  assert (Hf : forall n (l : list A) x, In x (firstn n l) -> In x l).
  { intros n l x Hin. rewrite <- (firstn_skipn n l). apply in_or_app. now left. }
  unfold sql_limit_offset. intros x Hin.
  destruct (lim <? 0)%Z.
  - eapply Hs; eassumption.
  - eapply Hs, Hf; eassumption.
Qed.

(** The listing, as the code has it.  The page size the listing uses and
    reports is the requested
    limit capped at 50 (20 when no limit is given), the offset is the
    requested one (0 when none is given), [total] is the number of stored
    projects and [has_more] holds exactly when [offset + limit < total];
    the rows are those that [LIMIT limit OFFSET offset] selects from the
    projects ordered by name, so a request that is not negative gets at
    most 50 rows, and a request for 1000 reports 50.  The store is not
    changed. *)
Theorem list_projects_pagination
        (requested_limit requested_offset : option Z) (st : State) :
  let limit0 := match requested_limit with Some l => l | None => 20%Z end in
  let offset0 := match requested_offset with Some o => o | None => 0%Z end in
  exists listing,
    list_projects requested_limit requested_offset st = (inr listing, st)
    /\ limit (pagination listing) = Z.min limit0 50
    /\ offset (pagination listing) = offset0
    /\ total (pagination listing) = Z.of_nat (length (projects (db st)))
    /\ (has_more (pagination listing) = true
        <-> (offset (pagination listing) + limit (pagination listing)
             < total (pagination listing))%Z)
    /\ data listing
       = sql_limit_offset (Z.min limit0 50) offset0
           (sort_by (fun a b => String.compare (name a) (name b))
                    (projects (db st)))
    /\ incl (data listing) (projects (db st))
    /\ ((0 <= limit0)%Z -> (length (data listing) <= 50)%nat)
    /\ (requested_limit = Some 1000%Z ->
        limit (pagination listing) = 50%Z /\ (length (data listing) <= 50)%nat).
Proof.
  intros limit0 offset0. eexists. split; [reflexivity|]. simpl.
  fold limit0 offset0.
  split; [reflexivity|]. split; [reflexivity|]. split; [reflexivity|].
  split; [apply Z.ltb_lt|]. split; [reflexivity|].
  assert (Hlen : (0 <= limit0)%Z ->
                 (length (sql_limit_offset (Z.min limit0 50) offset0
                            (sort_by (fun a b => String.compare (name a) (name b))
                                     (projects (db st)))) <= 50)%nat).
  { intros H0.
    pose proof (sql_limit_offset_length (Z.min limit0 50) offset0
                  (sort_by (fun a b => String.compare (name a) (name b))
                           (projects (db st)))) as H.
    lia. }
  split; [|split].
  - intros x Hin. apply sql_limit_offset_incl in Hin.
    eapply Permutation_in; [apply sort_by_perm | exact Hin].
  - exact Hlen.
  - intros Hreq. subst limit0. rewrite Hreq in *. split; [reflexivity|].
    apply Hlen. lia.
Qed.

(** Sixty projects are stored: a request for 1000 rows from the start
    gets 50 rows, reports the limit 50 and says that there are more. *)
Lemma list_projects_pagination_witness :
  exists listing,
    list_projects (Some 1000%Z) None sixty_projects_state
    = (inr listing, sixty_projects_state)
    /\ limit (pagination listing) = 50%Z
    /\ offset (pagination listing) = 0%Z
    /\ total (pagination listing) = 60%Z
    /\ has_more (pagination listing) = true
    /\ (length (data listing) <= 50)%nat.
Proof.
  destruct (list_projects_pagination (Some 1000%Z) None sixty_projects_state)
    as (listing & E & Hl & Ho & Ht & Hm & _ & _ & Hn & H1000).
  exists listing. split; [exact E|].
  destruct (H1000 eq_refl) as [H50 Hrows].
  split; [exact H50|]. split; [exact Ho|]. split; [exact Ht|].
  split; [|apply Hn; simpl; lia].
  apply Hm. rewrite Ho, H50, Ht. reflexivity.
Defined.

(** C6.  The cap is not enforced below zero.  [Math.min(limit, 50)] lets a
    negative limit through, and SQLite reads a negative [LIMIT] as no
    limit: the listing then reports the negative number as its page size
    and returns every row from the offset on, however many there are. *)
Theorem list_projects_negative_limit (lim off : Z) (st : State) :
  (lim < 0)%Z ->
  exists listing,
    list_projects (Some lim) (Some off) st = (inr listing, st)
    /\ limit (pagination listing) = lim
    /\ data listing
       = skipn (Z.to_nat off)
               (sort_by (fun a b => String.compare (name a) (name b))
                        (projects (db st)))
    /\ length (data listing) = (length (projects (db st)) - Z.to_nat off)%nat.
Proof.
  intros Hlim. eexists. split; [reflexivity|]. cbn [pagination limit data].
  assert (Hmin : Z.min lim 50 = lim) by lia. rewrite Hmin.
  split; [reflexivity|]. unfold sql_limit_offset.
  destruct (Z.ltb_spec lim 0) as [_|]; [|lia].
  split; [reflexivity|]. now rewrite length_skipn, sort_by_length.
Qed.

(** With 60 projects stored, a request for the limit -1 is answered with
    all 60 of them. *)
Lemma list_projects_negative_limit_witness :
  exists listing,
    list_projects (Some (-1)%Z) (Some 0%Z) sixty_projects_state
    = (inr listing, sixty_projects_state)
    /\ limit (pagination listing) = (-1)%Z
    /\ length (data listing) = 60%nat.
Proof.
  assert (Hlim : (-1 < 0)%Z) by lia.
  destruct (list_projects_negative_limit (-1) 0 sixty_projects_state Hlim)
    as (listing & E & Hl & _ & Hn).
  exists listing. split; [exact E|]. split; [exact Hl|].
  rewrite Hn. reflexivity.
Defined.

(** ** Activity analysis of a path without a record *)

Section UnknownPath.

Context (env : Env) (projectPath : string) (st : State).

Hypothesis no_record :
  find (fun row => path row =? projectPath) (projects (db st)) = None.

Lemma getProjectByPath_none :
  getProjectByPath projectPath st = (inr None, st).
Proof.
  cbv [getProjectByPath bind get_db ret]. now rewrite no_record.
Qed.

(** C10, as the code has it.  When the path has no stored project, the
    analysis returns normally: it writes one line to the error stream and
    leaves both tables as they were; the caller gets no error, and the
    tool answers with its usual text. *)
Theorem analyzeProjectActivity_unknown_path :
  analyzeProjectActivity env projectPath st
  = (inr tt, logged (not_found_line projectPath) st)
  /\ db (snd (analyzeProjectActivity env projectPath st)) = db st
  /\ (or_null (Some projectPath) = Some projectPath ->
      analyze_project_activity env (Some projectPath) st
      = (inr ("Analyzed activity for project at " ++ projectPath)%string,
         logged (not_found_line projectPath) st)).
Proof.
  assert (E : analyzeProjectActivity env projectPath st
              = (inr tt, logged (not_found_line projectPath) st)).
  { unfold analyzeProjectActivity, bind at 1. now rewrite getProjectByPath_none. }
  split; [exact E|]. split; [now rewrite E|].
  intros Hp. unfold analyze_project_activity. rewrite Hp.
  unfold bind. now rewrite E.
Qed.

End UnknownPath.

Lemma analyzeProjectActivity_unknown_path_witness :
  analyzeProjectActivity blank_env "/home/u/ghost" one_project_state
  = (inr tt, logged (not_found_line "/home/u/ghost") one_project_state)
  /\ db (snd (analyzeProjectActivity blank_env "/home/u/ghost" one_project_state))
     = db one_project_state
  /\ analyze_project_activity blank_env (Some "/home/u/ghost") one_project_state
     = (inr "Analyzed activity for project at /home/u/ghost",
        logged (not_found_line "/home/u/ghost") one_project_state).
Proof.
  destruct (analyzeProjectActivity_unknown_path blank_env "/home/u/ghost"
              one_project_state eq_refl) as (H1 & H2 & H3).
  split; [exact H1|]. split; [exact H2|]. apply H3. reflexivity.
Defined.

(** C10, as stated, fails: asked to analyse a path that has no record,
    neither the function nor the tool signals anything to the caller. *)
Lemma analyzeProjectActivity_signals_nothing :
  fst (getProjectByPath "/home/u/ghost" one_project_state) = inr None
  /\ ~ (exists e st',
          analyzeProjectActivity blank_env "/home/u/ghost" one_project_state
          = (inl e, st'))
  /\ ~ (exists e st',
          analyze_project_activity blank_env (Some "/home/u/ghost") one_project_state
          = (inl e, st')).
Proof.
  split; [reflexivity|].
  split; intros (e & st' & H); vm_compute in H; discriminate H.
Qed.

(** ** The order of strings *)

Lemma ascii_compare_refl (a : ascii) : Ascii.compare a a = Eq.
Proof. unfold Ascii.compare. apply N.compare_refl. Qed.

Lemma ascii_compare_lt_trans (a b c : ascii) :
  Ascii.compare a b = Lt -> Ascii.compare b c = Lt -> Ascii.compare a c = Lt.
Proof.
  unfold Ascii.compare. rewrite !N.compare_lt_iff. apply N.lt_trans.
Qed.

Lemma string_compare_refl (s : string) : String.compare s s = Eq.
Proof.
  induction s as [|a s IH]; simpl; [reflexivity|].
  now rewrite ascii_compare_refl.
Qed.

Lemma string_compare_lt_trans (s1 s2 s3 : string) :
  String.compare s1 s2 = Lt -> String.compare s2 s3 = Lt ->
  String.compare s1 s3 = Lt.
Proof.
  revert s2 s3. induction s1 as [|a s1 IH]; intros [|b s2] [|c s3]; simpl;
    try discriminate; try reflexivity.
  destruct (Ascii.compare a b) eqn:Eab; try discriminate;
    destruct (Ascii.compare b c) eqn:Ebc; try discriminate; intros H1 H2.
  - apply Ascii.compare_eq_iff in Eab, Ebc. subst.
    rewrite ascii_compare_refl. eapply IH; eassumption.
  - apply Ascii.compare_eq_iff in Eab. subst. now rewrite Ebc.
  - apply Ascii.compare_eq_iff in Ebc. subst. now rewrite Eab.
  - now rewrite (ascii_compare_lt_trans _ _ _ Eab Ebc).
Qed.

Lemma string_compare_gt_lt (s1 s2 : string) :
  String.compare s1 s2 = Gt <-> String.compare s2 s1 = Lt.
Proof.
  rewrite (String.compare_antisym s2 s1).
  destruct (String.compare s1 s2); simpl; split; congruence.
Qed.

Lemma string_leb_trans (s1 s2 s3 : string) :
  String.leb s1 s2 = true -> String.leb s2 s3 = true -> String.leb s1 s3 = true.
Proof.
  unfold String.leb.
  destruct (String.compare s1 s2) eqn:E12; try discriminate;
    destruct (String.compare s2 s3) eqn:E23; try discriminate; intros _ _.
  - apply String.compare_eq_iff in E12, E23. subst. now rewrite string_compare_refl.
  - apply String.compare_eq_iff in E12. subst. now rewrite E23.
  - apply String.compare_eq_iff in E23. subst. now rewrite E12.
  - now rewrite (string_compare_lt_trans _ _ _ E12 E23).
Qed.

(** ** Sorted output of [sort_by] *)

Section SortBy.

Context {A : Type} (cmp : A -> A -> comparison).

Hypothesis cmp_total : forall x y, cmp x y = Gt -> may_precede cmp y x.
Hypothesis cmp_trans : forall x y z, may_precede cmp x y -> may_precede cmp y z -> may_precede cmp x z.

Lemma insert_by_sorted (x : A) (l : list A) :
  StronglySorted (may_precede cmp) l -> StronglySorted (may_precede cmp) (insert_by cmp x l).
Proof.
  induction 1 as [|y l Hs IH Hy]; simpl; [repeat constructor|].
  destruct (cmp x y) eqn:E.
  - constructor; [now constructor|].
    assert (Hxy : may_precede cmp x y) by (unfold may_precede; congruence).
    constructor; [exact Hxy|].
    eapply Forall_impl; [|exact Hy]. intros z. now apply cmp_trans.
  - constructor; [now constructor|].
    assert (Hxy : may_precede cmp x y) by (unfold may_precede; congruence).
    constructor; [exact Hxy|].
    eapply Forall_impl; [|exact Hy]. intros z. now apply cmp_trans.
  - constructor; [exact IH|].
    eapply Permutation_Forall; [symmetry; apply insert_by_perm|].
    constructor; [now apply cmp_total | exact Hy].
Qed.

Lemma sort_by_sorted (l : list A) : StronglySorted (may_precede cmp) (sort_by cmp l).
Proof.
  induction l as [|x l IH]; [constructor|].
  unfold sort_by in *. simpl. now apply insert_by_sorted.
Qed.

End SortBy.

(** ** The map of counts *)

Lemma Map_get_set (m : JsMap) (k q : string) (v : Z) :
  Map_get (Map_set m k v) q = if k =? q then Some v else Map_get m q.
Proof.
  induction m as [|[k0 v0] m IH]; simpl; [reflexivity|].
  destruct (String.eqb_spec k0 k) as [->|Hk]; simpl.
  - now destruct (k =? q).
  - rewrite IH. destruct (String.eqb_spec k0 q) as [->|Hq]; [|reflexivity].
    destruct (String.eqb_spec k q) as [->|]; [contradiction | reflexivity].
Qed.

Lemma Map_set_keys (m : JsMap) (k : string) (v : Z) :
  NoDup (map fst m) ->
  NoDup (map fst (Map_set m k v))
  /\ forall q, In q (map fst (Map_set m k v)) <-> q = k \/ In q (map fst m).
Proof.
  induction m as [|[k0 v0] m IH]; simpl; intros Hn.
  - split; [repeat constructor; intros [] | intros q; intuition].
  - inversion Hn as [|? ? Hk0 Hn']; subst.
    destruct (String.eqb_spec k0 k) as [->|Hk]; simpl.
    + split; [exact Hn | intros q; intuition].
    + destruct (IH Hn') as [IH1 IH2]. split.
      * constructor; [|exact IH1]. rewrite IH2. intros [E | Hin]; congruence.
      * intros q. rewrite IH2. intuition.
Qed.

Lemma In_Map_get (m : JsMap) (k : string) (v : Z) :
  NoDup (map fst m) -> (In (k, v) m <-> Map_get m k = Some v).
Proof.
  induction m as [|[k0 v0] m IH]; simpl; intros Hn; [split; [intros [] | discriminate]|].
  inversion Hn as [|? ? Hk0 Hn']; subst.
  destruct (String.eqb_spec k0 k) as [->|Hk].
  - split.
    + intros [E | Hin]; [congruence|].
      exfalso. apply Hk0. apply (in_map fst) in Hin. exact Hin.
    + intros [= ->]. now left.
  - rewrite <- (IH Hn'). split; [intros [E | Hin]; [congruence | exact Hin] | now right].
Qed.

Lemma Map_get_bump (m : JsMap) (d q : string) :
  Map_get (bump m d) q = if d =? q then Some (get0 m d + 1)%Z else Map_get m q.
Proof.
  unfold bump. rewrite Map_get_set. unfold get0.
  destruct (d =? q); [|reflexivity].
  destruct (Map_get m d) as [v|]; [|reflexivity].
  destruct (Z.eqb_spec v 0); congruence.
Qed.

Lemma bump_keys (m : JsMap) (d : string) :
  NoDup (map fst m) -> NoDup (map fst (bump m d)).
Proof. intros Hn. unfold bump. now apply Map_set_keys. Qed.

Lemma fold_bump_keys (lines : list string) (m : JsMap) :
  NoDup (map fst m) -> NoDup (map fst (fold_left bump lines m)).
Proof.
  revert m. induction lines as [|d lines IH]; simpl; intros m Hn; [exact Hn|].
  apply IH. now apply bump_keys.
Qed.

Lemma fold_bump_get (lines : list string) (m : JsMap) (q : string) :
  Map_get (fold_left bump lines m) q
  = if in_dec string_dec q lines
    then Some (get0 m q + occurrences lines q)%Z
    else Map_get m q.
Proof.
  revert m. induction lines as [|d lines IH]; intros m; [reflexivity|].
  cbn [fold_left]. rewrite IH. unfold occurrences, get0. rewrite !Map_get_bump.
  cbn [count_occ].
  destruct (string_dec d q) as [->|Hd].
  - rewrite String.eqb_refl.
    destruct (in_dec string_dec q (q :: lines)) as [_|Hn]; [|exfalso; apply Hn; now left].
    destruct (in_dec string_dec q lines) as [Hi|Hi].
    + unfold get0. f_equal; lia.
    + apply (count_occ_not_In string_dec) in Hi. rewrite Hi.
      unfold get0. f_equal; lia.
  - apply String.eqb_neq in Hd as Hd'. rewrite Hd'.
    destruct (in_dec string_dec q lines) as [Hi|Hi];
      destruct (in_dec string_dec q (d :: lines)) as [Hj|Hj]; try reflexivity.
    + exfalso. apply Hj. now right.
    + exfalso. destruct Hj as [E|Hj]; [congruence | contradiction].
Qed.

(** ** The histogram *)

Lemma histogram_unfold (lines : list string) :
  histogram lines = sort_by by_date_desc (map to_stat (fold_left bump lines [])).
Proof. reflexivity. Qed.

Lemma map_date_to_stat (m : JsMap) : map s_date (map to_stat m) = map fst m.
Proof.
  rewrite map_map. apply map_ext. now intros [d c].
Qed.

Lemma histogram_dates_nodup (lines : list string) :
  NoDup (map s_date (histogram lines)).
Proof.
  rewrite histogram_unfold.
  eapply Permutation_NoDup.
  - apply Permutation_map. symmetry. apply sort_by_perm.
  - rewrite map_date_to_stat. apply fold_bump_keys. constructor.
Qed.

Lemma histogram_In (lines : list string) (s : Stat) :
  In s (histogram lines)
  <-> In (s_date s) lines /\ s_count s = occurrences lines (s_date s).
Proof.
  rewrite histogram_unfold.
  assert (H1 : In s (sort_by by_date_desc (map to_stat (fold_left bump lines [])))
               <-> In s (map to_stat (fold_left bump lines []))).
  { split; apply Permutation_in; [|symmetry]; apply sort_by_perm. }
  rewrite H1. clear H1.
  assert (H2 : In s (map to_stat (fold_left bump lines []))
               <-> In (s_date s, s_count s) (fold_left bump lines [])).
  { rewrite in_map_iff. split.
    - intros ([d c] & <- & Hin). exact Hin.
    - intros Hin. exists (s_date s, s_count s). split; [now destruct s | exact Hin]. }
  rewrite H2. clear H2.
  rewrite In_Map_get by (apply fold_bump_keys; constructor).
  rewrite fold_bump_get. unfold get0. simpl.
  destruct (in_dec string_dec (s_date s) lines) as [Hi|Hi].
  - split; [intros [= E]; split; [exact Hi | lia] | intros [_ E]; f_equal; lia].
  - split; [discriminate | intros [Hi' _]; contradiction].
Qed.

Lemma by_date_desc_precede (a b : Stat) :
  may_precede by_date_desc a b <-> String.leb (s_date b) (s_date a) = true.
Proof.
  unfold may_precede, by_date_desc, localeCompare, String.leb.
  destruct (String.compare (s_date b) (s_date a)); split; congruence.
Qed.

Lemma histogram_sorted (lines : list string) :
  StronglySorted (may_precede by_date_desc) (histogram lines).
Proof.
  rewrite histogram_unfold. apply sort_by_sorted.
  - intros x y Hgt. unfold may_precede, by_date_desc, localeCompare in *.
    apply string_compare_gt_lt in Hgt. intros Hgt'.
    apply string_compare_gt_lt in Hgt'. rewrite String.compare_antisym in Hgt.
    rewrite Hgt' in Hgt. discriminate.
  - intros x y z. rewrite !by_date_desc_precede. intros Hxy Hyz.
    eapply string_leb_trans; eassumption.
Qed.

(** Two sorted lists with the same elements are equal when the order is
    antisymmetric on them. *)
Lemma sorted_same_elements {A} (R : A -> A -> Prop) (l1 l2 : list A) :
  StronglySorted R l1 -> StronglySorted R l2 ->
  NoDup l1 -> NoDup l2 ->
  (forall x y, In x l1 -> In y l1 -> R x y -> R y x -> x = y) ->
  (forall x, In x l1 <-> In x l2) ->
  l1 = l2.
Proof.
  intros S1. revert l2. induction S1 as [|x l1 S1 IH Hx]; intros l2 S2 N1 N2 Has Hin.
  - destruct l2 as [|y l2]; [reflexivity|]. exfalso. apply (Hin y). now left.
  - destruct S2 as [|y l2 S2 Hy].
    + exfalso. apply (Hin x). now left.
    + inversion N1 as [|? ? Nx N1']; subst. inversion N2 as [|? ? Ny N2']; subst.
      assert (E : x = y).
      { destruct (proj1 (Hin x) (or_introl eq_refl)) as [E | Hx2]; [now symmetry|].
        destruct (proj2 (Hin y) (or_introl eq_refl)) as [E | Hy1]; [exact E|].
        rewrite Forall_forall in Hx, Hy.
        apply Has; [now left | now right | now apply Hx | now apply Hy]. }
      subst y. f_equal. apply IH; try assumption.
      * intros a b Ha Hb. apply Has; now right.
      * intros a. split; intros Ha.
        -- destruct (proj1 (Hin a) (or_intror Ha)) as [E | H]; [subst; contradiction | exact H].
        -- destruct (proj2 (Hin a) (or_intror Ha)) as [E | H]; [subst; contradiction | exact H].
Qed.

Lemma NoDup_of_map {A B} (f : A -> B) (l : list A) : NoDup (map f l) -> NoDup l.
Proof.
  induction l as [|x l IH]; simpl; intros Hn; [constructor|].
  inversion Hn as [|? ? Hx Hn']; subst. constructor; [|now apply IH].
  intros Hin. apply Hx. now apply in_map.
Qed.

Lemma same_date_same_stat (lines : list string) (a b : Stat) :
  In a (histogram lines) -> In b (histogram lines) -> s_date a = s_date b -> a = b.
Proof.
  intros Ha Hb E. apply histogram_In in Ha, Hb.
  destruct Ha as [_ Ha], Hb as [_ Hb]. destruct a, b. simpl in *. subst. reflexivity.
Qed.

Lemma histogram_order_independent (lines lines' : list string) :
  Permutation lines lines' -> histogram lines' = histogram lines.
Proof.
  intros Hp. apply sorted_same_elements with (R := may_precede by_date_desc).
  - apply histogram_sorted.
  - apply histogram_sorted.
  - eapply NoDup_of_map, histogram_dates_nodup.
  - eapply NoDup_of_map, histogram_dates_nodup.
  - intros x y Hx Hy Hxy Hyx. apply (same_date_same_stat lines'); try assumption.
    apply by_date_desc_precede in Hxy, Hyx.
    pose proof (String.leb_antisym _ _ Hxy Hyx). congruence.
  - intros s. rewrite !histogram_In. unfold occurrences.
    rewrite (Permutation_count_occ string_dec lines lines') in Hp.
    rewrite Hp. split; intros [Hi Hc]; (split; [|exact Hc]).
    + apply (count_occ_In string_dec). rewrite Hp.
      now apply (count_occ_In string_dec).
    + apply (count_occ_In string_dec). rewrite <- Hp.
      now apply (count_occ_In string_dec).
Qed.

Lemma histogram_nonempty (lines : list string) :
  lines <> [] -> exists first rest, histogram lines = first :: rest.
Proof.
  intros Hne. destruct lines as [|d lines]; [contradiction|].
  destruct (histogram (d :: lines)) as [|first rest] eqn:E; [|now eexists _, _].
  exfalso.
  assert (Hin : In {| s_date := d; s_count := occurrences (d :: lines) d |}
                   (histogram (d :: lines))).
  { apply histogram_In. simpl. split; [now left | reflexivity]. }
  rewrite E in Hin. exact Hin.
Qed.

Lemma getGitActivity_window (env : Env) (dirPath : string) (st : State)
      (stdout : string) (first : Stat) (rest : list Stat) :
  access env (path_join env dirPath ".git") = true ->
  exec env dirPath git_log_30_days = Some stdout ->
  histogram (log_lines stdout) = first :: rest ->
  getGitActivity env dirPath st = (inr (Some (s_date first), first :: rest), st).
Proof.
  intros Ha He Hh.
  assert (Hne : (0 <? length (log_lines stdout))%nat = true).
  { apply Nat.ltb_lt. destruct (log_lines stdout); [discriminate Hh | simpl; lia]. }
  unfold log_lines in Hne, Hh.
  unfold getGitActivity, try_catch, bind, execAsync. rewrite Ha, He.
  change (negb true) with false. cbv beta iota delta [ret].
  now rewrite Hne, Hh.
Qed.

(** C4. When the log of the trailing 30 days has at least one commit,
    the aggregator returns normally with a histogram that has one entry
    per day of the log, holding the number of commits of that day, and
    with a last-activity date that is a day of the log and is not below
    any day of the log in the order of strings; a log with the same days
    in another order gives the same histogram and the same date. *)
Theorem getGitActivity_histogram (env : Env) (dirPath : string) (st : State)
        (stdout : string) :
  access env (path_join env dirPath ".git") = true ->
  exec env dirPath git_log_30_days = Some stdout ->
  log_lines stdout <> [] ->
  exists last stats,
    getGitActivity env dirPath st = (inr (Some last, stats), st)
    /\ NoDup (map s_date stats)
    /\ (forall s, In s stats
                  <-> In (s_date s) (log_lines stdout)
                      /\ s_count s = occurrences (log_lines stdout) (s_date s))
    /\ In last (log_lines stdout)
    /\ (forall day, In day (log_lines stdout) -> String.leb day last = true)
    /\ (forall env' dirPath' st' stdout',
          access env' (path_join env' dirPath' ".git") = true ->
          exec env' dirPath' git_log_30_days = Some stdout' ->
          Permutation (log_lines stdout) (log_lines stdout') ->
          getGitActivity env' dirPath' st' = (inr (Some last, stats), st')).
Proof.
  intros Ha He Hne.
  destruct (histogram_nonempty _ Hne) as (first & rest & Hh).
  exists (s_date first), (first :: rest).
  split; [now apply getGitActivity_window with (stdout := stdout)|].
  rewrite <- Hh.
  split; [apply histogram_dates_nodup|].
  split; [apply histogram_In|].
  assert (Hfirst : In first (histogram (log_lines stdout))) by (rewrite Hh; now left).
  split; [now apply histogram_In in Hfirst|].
  split.
  - intros day Hday.
    assert (Hin : In {| s_date := day; s_count := occurrences (log_lines stdout) day |}
                     (histogram (log_lines stdout))).
    { apply histogram_In. now split. }
    pose proof (histogram_sorted (log_lines stdout)) as Hs.
    rewrite Hh in Hs, Hin. inversion Hs as [|? ? _ Hall]; subst.
    destruct Hin as [E | Hin].
    + rewrite E. simpl. unfold String.leb. now rewrite string_compare_refl.
    + rewrite Forall_forall in Hall. specialize (Hall _ Hin).
      now apply by_date_desc_precede in Hall.
  - intros env' dirPath' st' stdout' Ha' He' Hp. rewrite Hh.
    apply getGitActivity_window with (stdout := stdout'); try assumption.
    rewrite <- Hh. now apply histogram_order_independent.
Qed.

Lemma getGitActivity_histogram_witness :
  exists last stats,
    getGitActivity (repository_env three_commits) "/home/u/p" initial_state
    = (inr (Some last, stats), initial_state)
    /\ last = "2024-01-02"
    /\ stats = [{| s_date := "2024-01-02"; s_count := 1 |};
                {| s_date := "2024-01-01"; s_count := 2 |}]
    /\ getGitActivity (repository_env three_commits_newest_first) "/home/u/p"
         one_project_state
       = (inr (Some last, stats), one_project_state).
Proof.
  destruct (getGitActivity_histogram (repository_env three_commits) "/home/u/p"
              initial_state three_commits eq_refl eq_refl)
    as (last & stats & E & _ & _ & _ & _ & Hperm).
  { discriminate. }
  exists last, stats. split; [exact E|].
  assert (E' := E). vm_compute in E'. injection E' as Hl Hs.
  split; [now symmetry|]. split; [now symmetry|].
  apply (Hperm (repository_env three_commits_newest_first) "/home/u/p"
           one_project_state three_commits_newest_first eq_refl eq_refl).
  assert (L1 : log_lines three_commits
               = ["2024-01-01"; "2024-01-01"; "2024-01-02"])
    by (vm_compute; reflexivity).
  assert (L2 : log_lines three_commits_newest_first
               = ["2024-01-02"; "2024-01-01"; "2024-01-01"])
    by (vm_compute; reflexivity).
  rewrite L1, L2.
  apply (perm_trans (l' := ["2024-01-01"; "2024-01-02"; "2024-01-01"]));
    [apply perm_skip, perm_swap | apply perm_swap].
Defined.

(** ** The fallback walk *)

Lemma visit_dir (n : string) (entries : list FsNode) (latest : Z) :
  visit (DirNode n (Some entries)) latest
  = if skip_name n then Normal latest else Normal (walk_entries entries latest).
Proof.
  simpl. now destruct (skip_name n).
Qed.

Lemma visit_unreadable (n : string) (latest : Z) :
  visit (DirNode n None) latest = Normal latest.
Proof. simpl. now destruct (skip_name n). Qed.

Lemma visit_succeeds (e : FsNode) :
  forall latest, node_stats_succeed e = true ->
  visit e latest = Normal (fold_left Z.max (node_mtimes e) latest).
Proof.
  induction e as [n m | n | n | n entries IH] using FsNode_tree_ind; intros latest Hok.
  - simpl in *. destruct (skip_name n); [reflexivity|].
    destruct m as [m|]; [|discriminate]. simpl. f_equal.
    destruct (Z.gtb_spec m latest); lia.
  - simpl. now destruct (skip_name n).
  - simpl. now destruct (skip_name n).
  - rewrite visit_dir. simpl in *. destruct (skip_name n); [reflexivity|].
    simpl in Hok. f_equal.
    revert latest. induction IH as [|e es He _ IHes]; intros latest; [reflexivity|].
    simpl in Hok. apply andb_true_iff in Hok. destruct Hok as [Hoke Hokes].
    simpl. rewrite (He latest Hoke), fold_left_app. now apply IHes.
Qed.

Lemma walk_entries_succeeds (entries : list FsNode) (latest : Z) :
  stats_succeed entries = true ->
  walk_entries entries latest = fold_left Z.max (visible_mtimes entries) latest.
Proof.
  revert latest. induction entries as [|e es IH]; intros latest Hok; [reflexivity|].
  simpl in Hok. apply andb_true_iff in Hok. destruct Hok as [Hoke Hokes].
  simpl. rewrite (visit_succeeds e latest Hoke).
  unfold visible_mtimes. simpl. rewrite fold_left_app. now apply IH.
Qed.

(** A subdirectory that cannot be read contributes nothing and the walk
    goes on with its siblings, whatever else happens in the directory. *)
Lemma walk_entries_unreadable (pre post : list FsNode) (n : string) (latest : Z) :
  walk_entries (pre ++ DirNode n None :: post) latest
  = walk_entries (pre ++ post) latest.
Proof.
  revert latest. induction pre as [|e pre IH]; intros latest; simpl.
  - now destruct (skip_name n).
  - destruct (visit e latest); [apply IH | reflexivity].
Qed.

Lemma fold_max_bounds (l : list Z) (base : Z) :
  (base <= fold_left Z.max l base)%Z
  /\ (forall t, In t l -> (t <= fold_left Z.max l base)%Z)
  /\ (fold_left Z.max l base = base \/ In (fold_left Z.max l base) l).
Proof.
  revert base. induction l as [|x l IH]; intros base; simpl.
  - split; [lia|]. split; [intros t []| now left].
  - destruct (IH (Z.max base x)) as (H1 & H2 & H3). split; [lia|]. split.
    + intros t [<- | Hin]; [lia | now apply H2].
    + destruct H3 as [E | Hin]; [|right; now right].
      destruct (Z.max_spec base x) as [[_ Hm] | [_ Hm]]; rewrite Hm in *.
      * right. left. now symmetry.
      * now left.
Qed.

Lemma fold_max_is_maximum (l : list Z) (base t2 : Z) :
  In t2 l -> (base < t2)%Z -> (forall t, In t l -> (t <= t2)%Z) ->
  fold_left Z.max l base = t2.
Proof.
  intros Hin Hpos Hmax. destruct (fold_max_bounds l base) as (H1 & H2 & H3).
  specialize (H2 _ Hin). destruct H3 as [E | Hin']; [lia|].
  specialize (Hmax _ Hin'). lia.
Qed.

Lemma fold_max_nothing_above (l : list Z) (base : Z) :
  (forall t, In t l -> (t <= base)%Z) -> fold_left Z.max l base = base.
Proof.
  intros Hmax. destruct (fold_max_bounds l base) as (H1 & H2 & H3).
  destruct H3 as [E | Hin']; [exact E|]. specialize (Hmax _ Hin'). lia.
Qed.

(** C8, as the code has it.  When no [stat] fails, the fallback walk
    returns the time stamp of the largest modification time among the
    files of the tree that are not passed over by name (hidden entries,
    [node_modules], [dist], [build], [coverage]) and do not lie in a
    directory that cannot be read, provided that time is after the epoch
    and is a time value of a [Date]; when it is beyond that range the
    call throws a [RangeError];
    it returns nothing when no such file has a modification time after
    the epoch, in particular when there is no such file or when the root
    cannot be read; a subdirectory that cannot be read is passed over and
    the walk goes on with its siblings. *)
Theorem getFileActivity_latest_mtime (env : Env) (dirPath : string) (st : State) :
  (fs_tree env dirPath = None -> getFileActivity env dirPath st = (inr None, st))
  /\ (forall entries,
        fs_tree env dirPath = Some entries ->
        stats_succeed entries = true ->
        (forall t2,
           In t2 (visible_mtimes entries) -> (0 < t2)%Z ->
           (forall t, In t (visible_mtimes entries) -> (t <= t2)%Z) ->
           getFileActivity env dirPath st
           = (if (t2 <=? MAX_TIME_VALUE)%Z
              then inr (Some (toISOString env t2))
              else inl (RangeError "Invalid time value"), st))
        /\ ((forall t, In t (visible_mtimes entries) -> (t <= 0)%Z) ->
            getFileActivity env dirPath st = (inr None, st)))
  /\ (forall pre n post,
        fs_tree env dirPath = Some (pre ++ DirNode n None :: post) ->
        walk (fs_tree env dirPath) 0 = walk (Some (pre ++ post)) 0).
Proof.
  unfold getFileActivity. split; [|split].
  - intros ->. reflexivity.
  - intros entries -> Hok. simpl. rewrite (walk_entries_succeeds _ _ Hok). split.
    + intros t2 Hin Hpos Hmax.
      rewrite (fold_max_is_maximum _ _ _ Hin Hpos Hmax).
      destruct (Z.eqb_spec t2 0); [lia|].
      unfold bind, Date_toISOString. rewrite (Z.abs_eq t2) by lia.
      now destruct (t2 <=? MAX_TIME_VALUE)%Z.
    + intros Hmax. now rewrite (fold_max_nothing_above _ _ Hmax).
  - intros pre n post ->. simpl. apply walk_entries_unreadable.
Qed.

Lemma getFileActivity_latest_mtime_witness :
  getFileActivity (with_tree (Some notes_tree) blank_env) "/home/u/notes"
                  initial_state
  = (inr (Some "2023-11-14T22:13:20.000Z"), initial_state).
Proof.
  destruct (getFileActivity_latest_mtime (with_tree (Some notes_tree) blank_env)
              "/home/u/notes" initial_state) as (_ & H & _).
  destruct (H notes_tree eq_refl eq_refl) as (Hmax & _).
  change (inr (Some "2023-11-14T22:13:20.000Z"))
    with (if (1700000000000 <=? MAX_TIME_VALUE)%Z
          then @inr Err _ (Some (toISOString (with_tree (Some notes_tree) blank_env)
                                             1700000000000%Z))
          else inl (RangeError "Invalid time value")).
  apply (Hmax 1700000000000%Z).
  - simpl. right. now left.
  - lia.
  - simpl. intros t [<- | [<- | []]]; lia.
Defined.

(** C8, as stated, fails: the two files are readable and the later
    modification time is the epoch, yet the walk returns nothing. *)
Lemma getFileActivity_epoch_is_absent :
  stats_succeed epoch_tree = true
  /\ visible_mtimes epoch_tree = [(-1000)%Z; 0%Z]
  /\ getFileActivity (with_tree (Some epoch_tree) blank_env) "/home/u/old"
                     initial_state
     = (inr None, initial_state)
  /\ getFileActivity (with_tree (Some epoch_tree) blank_env) "/home/u/old"
                     initial_state
     <> (inr (Some (toISOString (with_tree (Some epoch_tree) blank_env) 0)),
         initial_state).
Proof.
  split; [reflexivity|]. split; [reflexivity|]. split; [reflexivity|].
  discriminate.
Qed.

(** ** The path validator *)


Lemma is_within_spec (root candidate : list string) :
  is_within root candidate = true <-> equal_or_descendant root candidate.
Proof.
  unfold equal_or_descendant. revert candidate.
  induction root as [|r root IH]; intros candidate; simpl.
  - split; [intros _; now exists candidate | reflexivity].
  - destruct candidate as [|c candidate].
    + split; [discriminate | intros [rest H]; discriminate H].
    + rewrite andb_true_iff, String.eqb_eq, IH. split.
      * intros [-> [rest ->]]. now exists rest.
      * intros [rest [= -> ->]]. split; [reflexivity | now exists rest].
Qed.

Lemma existsb_within (env : Env) (allowedRoots : list string) (c : list string) :
  existsb (fun root => match canonicalize env root with
                       | Some r => is_within r c
                       | None => false
                       end) allowedRoots = true
  <-> within_some_root env allowedRoots c.
Proof.
  unfold within_some_root. rewrite existsb_exists. split.
  - intros (root & Hin & H). destruct (canonicalize env root) as [r|] eqn:E;
      [|discriminate]. exists root, r. split; [exact Hin|]. split; [exact E|].
    now apply is_within_spec.
  - intros (root & r & Hin & E & H). exists root. split; [exact Hin|].
    rewrite E. now apply is_within_spec.
Qed.

Lemma traversal_free_removelast (segs : list string) :
  traversal_free segs -> traversal_free (removelast segs).
Proof.
  unfold traversal_free. induction 1 as [|seg segs H Hs IH]; simpl; [constructor|].
  destruct segs; [constructor | now constructor].
Qed.

Lemma link_free_removelast (env : Env) (segs : list string) :
  link_free env segs -> link_free env (removelast segs).
Proof.
  intros Hl pre post E Hne.
  destruct segs as [|s segs] using rev_ind.
  - simpl in E. destruct pre; [contradiction | discriminate].
  - rewrite removelast_last in E. apply (Hl pre (post ++ [s])); [|exact Hne].
    now rewrite E, app_assoc.
Qed.

Lemma link_free_snoc (env : Env) (segs : list string) (seg : string) :
  link_free env segs -> readlink env (render (segs ++ [seg])) = None ->
  link_free env (segs ++ [seg]).
Proof.
  intros Hl Hn pre post E Hne.
  destruct post as [|p post] using rev_ind.
  - rewrite app_nil_r in E. now subst pre.
  - rewrite app_assoc in E. apply app_inj_tail in E. destruct E as [E _].
    now apply (Hl pre post).
Qed.

Section Canonical.

Context (env : Env).

Lemma follow_invariant (todo reached : list string) :
  traversal_free reached -> link_free env reached ->
  match follow env reached todo with
  | Reached segs => traversal_free segs /\ link_free env segs
  | Redirected base _ => traversal_free base /\ link_free env base
  end.
Proof.
  revert reached. induction todo as [|seg rest IH]; intros reached Ht Hl; simpl.
  - now split.
  - destruct (String.eqb_spec seg "") as [->|Hne]; simpl; [now apply IH|].
    destruct (String.eqb_spec seg ".") as [->|Hnd]; simpl; [now apply IH|].
    destruct (String.eqb_spec seg "..") as [->|Hndd].
    + apply IH; [now apply traversal_free_removelast | now apply link_free_removelast].
    + destruct (readlink env (render (reached ++ [seg]))) as [target|] eqn:E.
      * destruct (startsWith target "/"); [|now split].
        split; [constructor|]. intros pre post Hp Hn.
        destruct pre; [contradiction | discriminate].
      * apply IH.
        -- apply Forall_app. split; [exact Ht|]. now repeat constructor.
        -- now apply link_free_snoc.
Qed.

Lemma canonical_from_invariant (hops : nat) :
  forall reached todo c,
    traversal_free reached -> link_free env reached ->
    canonical_from env hops reached todo = Some c ->
    traversal_free c /\ link_free env c.
Proof.
  induction hops as [|hops IH]; intros reached todo c Ht Hl; simpl;
    pose proof (follow_invariant todo reached Ht Hl) as Hf;
    destruct (follow env reached todo) as [segs | base todo'].
  - now intros [= <-].
  - discriminate.
  - now intros [= <-].
  - destruct Hf. now apply IH.
Qed.

Lemma canonicalize_canonical (p : string) (c : list string) :
  canonicalize env p = Some c -> traversal_free c /\ link_free env c.
Proof.
  unfold canonicalize. apply canonical_from_invariant; [constructor|].
  intros pre post E Hne. destruct pre; [contradiction | discriminate].
Qed.

(** C2. [validatePath] succeeds, with the canonical form of the path,
    exactly when that canonical form is the canonical form of one of the
    allowed roots or lies below it; in every other case it fails with
    [AccessDenied] naming the path.  The canonical form has no [..]
    left in it and passes through no symbolic link, so neither can make
    a path outside every root succeed.  The state is not touched. *)
Theorem validatePath_contract (p : string) (allowedRoots : list string)
        (st : State) :
  (forall out st',
     validatePath env p allowedRoots st = (inr out, st')
     <-> st' = st
         /\ exists c, canonicalize env p = Some c /\ out = render c
                      /\ within_some_root env allowedRoots c)
  /\ (forall e st',
        validatePath env p allowedRoots st = (inl e, st')
        <-> st' = st /\ e = AccessDenied p
            /\ forall c, canonicalize env p = Some c ->
                         ~ within_some_root env allowedRoots c)
  /\ (forall c, canonicalize env p = Some c ->
                traversal_free c /\ link_free env c).
Proof.
  split; [|split]; [| |apply canonicalize_canonical].
  - intros out st'. unfold validatePath.
    destruct (canonicalize env p) as [c|] eqn:Ec.
    + destruct (existsb _ allowedRoots) eqn:Ex.
      * apply existsb_within in Ex. unfold ret. split.
        -- intros [= <- <-]. split; [reflexivity|]. now exists c.
        -- intros [-> (c' & [= <-] & -> & _)]. reflexivity.
      * unfold throw. split; [discriminate|].
        intros [_ (c' & [= <-] & _ & Hw)]. apply existsb_within in Hw. congruence.
    + unfold throw. split; [discriminate | intros [_ (c' & Hc & _)]; discriminate].
  - intros e st'. unfold validatePath.
    destruct (canonicalize env p) as [c|] eqn:Ec.
    + destruct (existsb _ allowedRoots) eqn:Ex.
      * unfold ret. split; [discriminate|].
        intros [_ [_ Hno]]. exfalso. apply (Hno c eq_refl).
        now apply existsb_within.
      * unfold throw. split.
        -- intros [= <- <-]. split; [reflexivity|]. split; [reflexivity|].
           intros c' [= <-] Hw. apply existsb_within in Hw. congruence.
        -- intros [-> [-> _]]. reflexivity.
    + unfold throw. split.
      * intros [= <- <-]. split; [reflexivity|]. split; [reflexivity|]. discriminate.
      * intros [-> [-> _]]. reflexivity.
Qed.

End Canonical.

(** The three cases of the unit test, with [/home/u] as the root, and
    two symbolic links: one that stays below the root, one that leaves
    it. *)
Lemma validatePath_contract_witness :
  validatePath linked_env "/home/u/src" ["/home/u"] initial_state
  = (inr "/home/u/src", initial_state)
  /\ validatePath linked_env "/etc/passwd" ["/home/u"] initial_state
     = (inl (AccessDenied "/etc/passwd"), initial_state)
  /\ validatePath linked_env "/home/u/../outside" ["/home/u"] initial_state
     = (inl (AccessDenied "/home/u/../outside"), initial_state)
  /\ validatePath linked_env "/home/u/cur/bin/../lib" ["/home/u"] initial_state
     = (inr "/home/u/releases/v2/lib", initial_state)
  /\ validatePath linked_env "/home/u/etc/passwd" ["/home/u"] initial_state
     = (inl (AccessDenied "/home/u/etc/passwd"), initial_state).
Proof.
  assert (Hin : forall (p : string) (c : list string),
            canonicalize linked_env p = Some c ->
            equal_or_descendant ["home"; "u"] c ->
            validatePath linked_env p ["/home/u"] initial_state
            = (inr (render c), initial_state)).
  { intros p c Hc Hd.
    apply (proj1 (validatePath_contract linked_env p ["/home/u"] initial_state)).
    split; [reflexivity|]. exists c. split; [exact Hc|]. split; [reflexivity|].
    exists "/home/u", ["home"; "u"]. split; [now left|]. split; [reflexivity|].
    exact Hd. }
  assert (Hout : forall (p : string) (c : list string),
            canonicalize linked_env p = Some c ->
            is_within ["home"; "u"] c = false ->
            validatePath linked_env p ["/home/u"] initial_state
            = (inl (AccessDenied p), initial_state)).
  { intros p c Hc Hd.
    apply (proj1 (proj2 (validatePath_contract linked_env p ["/home/u"]
                           initial_state))).
    split; [reflexivity|]. split; [reflexivity|].
    intros c' Hc' (root & r & [<- | []] & Hr & Hw).
    rewrite Hc in Hc'. injection Hc' as <-.
    vm_compute in Hr. injection Hr as <-.
    apply is_within_spec in Hw. congruence. }
  split; [|split; [|split; [|split]]].
  - apply (Hin "/home/u/src" ["home"; "u"; "src"] eq_refl). now exists ["src"].
  - now apply (Hout "/etc/passwd" ["etc"; "passwd"]).
  - now apply (Hout "/home/u/../outside" ["home"; "outside"]).
  - apply (Hin "/home/u/cur/bin/../lib" ["home"; "u"; "releases"; "v2"; "lib"]
               eq_refl).
    now exists ["releases"; "v2"; "lib"].
  - now apply (Hout "/home/u/etc/passwd" ["etc"; "passwd"]).
Defined.

(** ** The scan *)


Section Helpers.

Context (env : Env).

Lemma getProjectDescription_stateless (dirPath : string) :
  exists d, forall st, getProjectDescription env dirPath st = (inr d, st).
Proof.
  unfold getProjectDescription, try_catch, bind, lift.
  destruct (access env (path_join env dirPath "README.md")); simpl.
  - destruct (readFile env (path_join env dirPath "README.md")) as [e | content].
    + exists None. reflexivity.
    + eexists. reflexivity.
  - exists None. reflexivity.
Qed.

Lemma getProjectDescription_value (dirPath : string) (st : State) :
  getProjectDescription env dirPath st = (inr (description_of env dirPath), st).
Proof.
  destruct (getProjectDescription_stateless dirPath) as [d H].
  unfold description_of. now rewrite (H initial_state), (H st).
Qed.

Lemma getGitInfo_stateless (dirPath : string) :
  exists g lines, forall st,
    getGitInfo env dirPath st
    = (inr g, {| db := db st; log := log st ++ lines; ticks := ticks st |}).
Proof.
  assert (Hnil : forall st : State,
            st = {| db := db st; log := log st ++ []; ticks := ticks st |}).
  { intros [d l t]. simpl. now rewrite app_nil_r. }
  unfold getGitInfo, try_catch, bind, execAsync, ret, throw, console_error.
  destruct (exec env dirPath "git rev-parse --abbrev-ref HEAD") as [b|];
    [|eexists _, []; intros st; rewrite <- Hnil; reflexivity].
  destruct (exec env dirPath "git remote get-url origin") as [u|];
    [|eexists _, []; intros st; rewrite <- Hnil; reflexivity].
  destruct (exec env dirPath ("git fetch origin " ++ trim b)) as [f|];
    [|eexists _, [_]; intros st; reflexivity].
  destruct (exec env dirPath "git rev-parse HEAD") as [l|];
    [|eexists _, [_]; intros st; reflexivity].
  destruct (exec env dirPath ("git rev-parse origin/" ++ trim b)) as [r|];
    [|eexists _, [_]; intros st; reflexivity].
  destruct (exec env dirPath ("git merge-base HEAD origin/" ++ trim b)) as [m|];
    [|eexists _, [_]; intros st; reflexivity].
  eexists _, []; intros st; rewrite <- Hnil; reflexivity.
Qed.

Lemma getGitInfo_value (dirPath : string) (st : State) :
  exists st',
    getGitInfo env dirPath st = (inr (gitInfo_of env dirPath), st')
    /\ db st' = db st /\ ticks st' = ticks st.
Proof.
  destruct (getGitInfo_stateless dirPath) as (g & lines & H).
  unfold gitInfo_of. rewrite (H initial_state), (H st). simpl.
  eexists. split; [reflexivity|]. now split.
Qed.

Lemma validatePath_stateless (p : string) (roots : list string) (st : State) :
  validatePath env p roots st
  = (fst (validatePath env p roots initial_state), st).
Proof.
  unfold validatePath. destruct (canonicalize env p) as [c|]; [|reflexivity].
  now destruct (existsb _ roots).
Qed.

End Helpers.

Section ScanEffect.

Context (env : Env) (rootPath : string).

Lemma scan_entries_plan (entries : list Dirent) :
  forall acc st,
  exists st',
    scan_entries env rootPath entries acc st
    = (match snd (plan env rootPath entries) with
       | None => inr (acc ++ stamp (now env) (ticks st)
                                   (fst (plan env rootPath entries)))
       | Some e => inl e
       end, st')
    /\ db st' = fold_left upsert_row
                  (stamp (now env) (ticks st) (fst (plan env rootPath entries)))
                  (db st)
    /\ ticks st' = (ticks st + length (fst (plan env rootPath entries)))%nat.
Proof.
  induction entries as [|entry rest IH]; intros acc st.
  - exists st. simpl. rewrite app_nil_r, Nat.add_0_r. now repeat split.
  - assert (Hskip :
      is_candidate entry = false ->
      scan_entries env rootPath (entry :: rest) acc st
      = scan_entries env rootPath rest acc st).
    { unfold is_candidate. simpl. destruct (d_kind entry); try reflexivity.
      now intros ->. }
    cbn [plan]. destruct (is_candidate entry) eqn:Hc.
    2:{ rewrite (Hskip eq_refl). apply IH. }
    assert (Hgo :
      scan_entries env rootPath (entry :: rest) acc st
      = (isGit <- lift (isGitRepo env (path_join env rootPath (d_name entry))) ;;
         techStack <- lift (detectTechStack env (path_join env rootPath (d_name entry))) ;;
         if isGit || truthy techStack then
           description0 <- getProjectDescription env (path_join env rootPath (d_name entry)) ;;
           gitInfo <- (if isGit
                       then g <- getGitInfo env (path_join env rootPath (d_name entry)) ;;
                            ret (remoteUrl g, branch g,
                                 Some (SyncStatus_to_string (syncStatus g)))
                       else ret (None, None, None)) ;;
           let '(remoteUrl0, branch0, syncStatus0) := gitInfo in
           stamp0 <- new_Date_toISOString env ;;
           let project :=
             {| id := None; name := d_name entry;
                path := path_join env rootPath (d_name entry);
                status := "active"; is_git := isGit; tech_stack := techStack;
                last_scanned := stamp0; description := description0;
                remote_url := remoteUrl0; sync_status := syncStatus0;
                branch_name := branch0; last_activity_date := None |} in
           upsertProject project ;;
           logger_info ("Scanned project: " ++ d_name entry ++ " ("
                        ++ show_nullable techStack ++ ", "
                        ++ show_nullable syncStatus0 ++ ")") ;;
           scan_entries env rootPath rest (acc ++ [project])
         else scan_entries env rootPath rest acc) st).
    { unfold is_candidate in Hc. simpl. destruct (d_kind entry); try discriminate.
      now rewrite Hc. }
    rewrite Hgo. clear Hgo Hskip.
    destruct (isGitRepo env (path_join env rootPath (d_name entry))) as [e | isGit].
    { exists st. simpl. rewrite Nat.add_0_r. now repeat split. }
    destruct (detectTechStack env (path_join env rootPath (d_name entry)))
      as [e | techStack].
    { exists st. simpl. rewrite Nat.add_0_r. now repeat split. }
    cbn [lift]. rewrite !bind_ret_l.
    destruct (isGit || truthy techStack) eqn:Hq; [|apply IH].
    rewrite (bind_inr _ (getProjectDescription_value env _ st)).
    assert (Hgit : exists st1,
      (if isGit
       then g <- getGitInfo env (path_join env rootPath (d_name entry)) ;;
            ret (remoteUrl g, branch g, Some (SyncStatus_to_string (syncStatus g)))
       else ret (None, None, None)) st
      = (inr (remote_url (found_project env rootPath entry isGit techStack ""),
              branch_name (found_project env rootPath entry isGit techStack ""),
              sync_status (found_project env rootPath entry isGit techStack "")),
         st1)
      /\ db st1 = db st /\ ticks st1 = ticks st).
    { destruct isGit; simpl.
      - destruct (getGitInfo_value env (path_join env rootPath (d_name entry)) st)
          as (st1 & E & Hd & Ht).
        exists st1. rewrite (bind_inr _ E). now repeat split.
      - exists st. now repeat split. }
    destruct Hgit as (st1 & Egit & Hd1 & Ht1).
    rewrite (bind_inr _ Egit). cbv beta iota.
    unfold bind at 1, new_Date_toISOString at 1. cbv beta iota.
    unfold bind at 1, upsertProject at 1, bind at 1, get_db at 1, put_db at 1.
    cbv beta iota. unfold bind at 1, logger_info at 1, console_error at 1.
    cbv beta iota. cbn [db log ticks].
    match goal with
    | |- context [scan_entries env rootPath rest ?acc' ?st'] =>
        destruct (IH acc' st') as (st2 & E2 & Hd2 & Ht2)
    end.
    exists st2. cbn [db ticks] in Hd2, Ht2, E2. rewrite E2.
    cbn [fst snd stamp fold_left length]. rewrite Ht1, Hd1 in *.
    split; [|split].
    + destruct (snd (plan env rootPath rest)); [reflexivity|].
      rewrite <- app_assoc. reflexivity.
    + exact Hd2.
    + rewrite Ht2. lia.
Qed.

Lemma scanDirectory_summary (st : State) :
  exists st',
    scanDirectory env rootPath st
    = (match snd (scan_summary env rootPath) with
       | None => inr (stamp (now env) (ticks st) (fst (scan_summary env rootPath)))
       | Some e => inl e
       end, st')
    /\ db st' = fold_left upsert_row
                  (stamp (now env) (ticks st) (fst (scan_summary env rootPath)))
                  (db st)
    /\ ticks st' = (ticks st + length (fst (scan_summary env rootPath)))%nat.
Proof.
  unfold scanDirectory, scan_summary. fold (allowed_root env).
  unfold bind at 1. rewrite validatePath_stateless.
  destruct (fst (validatePath env rootPath [allowed_root env] initial_state))
    as [e | c].
  { exists st. simpl. rewrite Nat.add_0_r. now repeat split. }
  unfold try_catch, bind at 1.
  destruct (readdir env rootPath) as [e | entries]; simpl.
  { eexists. split; [reflexivity|]. simpl. rewrite Nat.add_0_r. now split. }
  destruct (scan_entries_plan entries [] st) as (st' & E & Hd & Ht).
  rewrite E. destruct (snd (plan env rootPath entries)) as [e|].
  - eexists. split; [reflexivity|]. simpl. now split.
  - exists st'. now repeat split.
Qed.

End ScanEffect.

(** ** The store: rows of [projects] *)

Lemma same_but_last_scanned_refl (p : Project) : same_but_last_scanned p p.
Proof. reflexivity. Qed.

Lemma same_but_last_scanned_set (t : string) (p : Project) :
  same_but_last_scanned p (set_last_scanned t p).
Proof. reflexivity. Qed.

Lemma do_update_same_but (x x' row : Project) :
  same_but_last_scanned x x' ->
  same_but_last_scanned (do_update (bound_parameters x) row)
                        (do_update (bound_parameters x') row).
Proof.
  unfold same_but_last_scanned, set_last_scanned. intros E.
  injection E as E1 E2 E3 E4 E5 E6 E7 E8 E9 E10 E11.
  destruct x, x'. simpl in *. subst. reflexivity.
Qed.

Lemma do_update_twice (x row row' : Project) :
  id row' = id row -> path row' = path row ->
  do_update x row' = do_update x row.
Proof. unfold do_update. now intros -> ->. Qed.

Lemma path_in_table (p : string) (rows : list Project) :
  existsb (fun row => path row =? p) rows = true <-> In p (map path rows).
Proof.
  rewrite existsb_exists, in_map_iff. split.
  - intros (row & Hin & E). apply String.eqb_eq in E. now exists row.
  - intros (row & E & Hin). exists row. split; [exact Hin | now apply String.eqb_eq].
Qed.

Section UpsertRow.

Context (x : Project).

Lemma rewritten_keeps (row : Project) :
  path (rewritten_row x row) = path row /\ id (rewritten_row x row) = id row.
Proof. unfold rewritten_row. now destruct (path row =? path x). Qed.

Lemma upsert_row_rows (d : Database) :
  projects (upsert_row d x)
  = if existsb (fun row => path row =? path x) (projects d)
    then map (rewritten_row x) (projects d)
    else projects d ++ [new_row (projects_seq d + 1) (bound_parameters x)].
Proof.
  unfold upsert_row, upsert_projects_table. cbn [path bound_parameters].
  now destruct (existsb _ (projects d)).
Qed.

Lemma upsert_row_paths (d : Database) :
  map path (projects (upsert_row d x))
  = if existsb (fun row => path row =? path x) (projects d)
    then map path (projects d)
    else map path (projects d) ++ [path x].
Proof.
  rewrite upsert_row_rows. destruct (existsb _ (projects d)).
  - rewrite map_map. apply map_ext. intros row. apply rewritten_keeps.
  - now rewrite map_app.
Qed.

Lemma upsert_row_present (d : Database) :
  In (path x) (map path (projects d)) ->
  projects (upsert_row d x) = map (rewritten_row x) (projects d)
  /\ projects_seq (upsert_row d x) = (projects_seq d + 1)%Z.
Proof.
  intros Hin. apply path_in_table in Hin. split.
  - now rewrite upsert_row_rows, Hin.
  - unfold upsert_row, upsert_projects_table. cbn [path bound_parameters].
    now rewrite Hin.
Qed.

Lemma upsert_row_unique (d : Database) :
  unique_paths d -> unique_paths (upsert_row d x).
Proof.
  unfold unique_paths. intros Hu. rewrite upsert_row_paths.
  destruct (existsb _ (projects d)) eqn:E; [exact Hu|].
  apply NoDup_app; [exact Hu | repeat constructor; intros [] |].
  intros p Hin [<- | []]. apply path_in_table in Hin. congruence.
Qed.

Lemma upsert_row_keeps_paths (d : Database) (p : string) :
  In p (map path (projects d)) -> In p (map path (projects (upsert_row d x))).
Proof.
  rewrite upsert_row_paths. destruct (existsb _ (projects d)); [easy|].
  intros Hin. apply in_or_app. now left.
Qed.

Lemma upsert_row_adds_path (d : Database) :
  In (path x) (map path (projects (upsert_row d x))).
Proof.
  rewrite upsert_row_paths. destruct (existsb _ (projects d)) eqn:E.
  - now apply path_in_table.
  - apply in_or_app. right. now left.
Qed.

(** After the upsert, a row at the path of [x] holds the columns of [x]. *)
Lemma upsert_row_holds (d : Database) (row : Project) :
  In row (projects (upsert_row d x)) ->
  (path row = path x /\ row = do_update (bound_parameters x) row)
  \/ (path row <> path x /\ In row (projects d)).
Proof.
  rewrite upsert_row_rows. destruct (existsb _ (projects d)) eqn:E.
  - rewrite in_map_iff. intros (row0 & <- & Hin). unfold rewritten_row.
    destruct (String.eqb_spec (path row0) (path x)) as [Hp | Hp].
    + left. split; [exact Hp | reflexivity].
    + right. now split.
  - intros Hin. apply in_app_or in Hin. destruct Hin as [Hin | [<- | []]].
    + right. split; [|exact Hin]. intros Hp.
      assert (Hex : existsb (fun r => path r =? path x) (projects d) = true).
      { apply existsb_exists. exists row. split; [exact Hin | now apply String.eqb_eq]. }
      congruence.
    + left. split; reflexivity.
Qed.

End UpsertRow.

Lemma last_with_path_snoc (p : string) (xs : list Project) (x : Project) :
  last_with_path p (xs ++ [x])
  = if path x =? p then Some x else last_with_path p xs.
Proof.
  induction xs as [|y xs IH]; simpl; [reflexivity|].
  rewrite IH. now destruct (path x =? p).
Qed.

Lemma fold_upsert_keeps_paths (xs : list Project) (d : Database) (p : string) :
  In p (map path (projects d)) ->
  In p (map path (projects (fold_left upsert_row xs d))).
Proof.
  revert d. induction xs as [|x xs IH]; intros d Hin; simpl; [exact Hin|].
  apply IH. now apply upsert_row_keeps_paths.
Qed.

Lemma fold_upsert_adds_paths (xs : list Project) (d : Database) (x : Project) :
  In x xs -> In (path x) (map path (projects (fold_left upsert_row xs d))).
Proof.
  revert d. induction xs as [|y xs IH]; intros d; simpl; [intros []|].
  intros [-> | Hin]; [|now apply IH].
  apply fold_upsert_keeps_paths, upsert_row_adds_path.
Qed.

Lemma fold_upsert_unique (xs : list Project) (d : Database) :
  unique_paths d -> unique_paths (fold_left upsert_row xs d).
Proof.
  revert d. induction xs as [|x xs IH]; intros d Hu; simpl; [exact Hu|].
  apply IH. now apply upsert_row_unique.
Qed.

(** After the upserts of [xs], a row whose path was upserted holds the
    columns of the last project of [xs] with that path. *)
Lemma fold_upsert_holds (xs : list Project) (d : Database) (row x : Project) :
  In row (projects (fold_left upsert_row xs d)) ->
  last_with_path (path row) xs = Some x ->
  row = do_update (bound_parameters x) row.
Proof.
  revert row x. induction xs as [|y xs IH] using rev_ind; intros row x Hin Hl.
  - discriminate Hl.
  - rewrite fold_left_app in Hin. simpl in Hin.
    rewrite last_with_path_snoc in Hl.
    destruct (upsert_row_holds y _ row Hin) as [[Hp Hh] | [Hp Hin']].
    + rewrite <- Hp, String.eqb_refl in Hl. now injection Hl as <-.
    + destruct (String.eqb_spec (path y) (path row)) as [E | _]; [congruence|].
      now apply IH.
Qed.

(** Replaying upserts on a table where all their paths are present
    rewrites the rows in place. *)
Lemma fold_upsert_replay (xs : list Project) (d : Database) :
  (forall x, In x xs -> In (path x) (map path (projects d))) ->
  projects (fold_left upsert_row xs d) = map (replayed xs) (projects d)
  /\ projects_seq (fold_left upsert_row xs d)
     = (projects_seq d + Z.of_nat (length xs))%Z.
Proof.
  induction xs as [|y xs IH] using rev_ind; intros Hall.
  - simpl. split; [|lia]. symmetry. unfold replayed. simpl. apply map_id.
  - rewrite fold_left_app. simpl.
    destruct IH as [IH1 IH2].
    { intros x Hx. apply Hall, in_or_app. now left. }
    assert (Hy : In (path y) (map path (projects (fold_left upsert_row xs d)))).
    { apply fold_upsert_keeps_paths, Hall, in_or_app. right. now left. }
    destruct (upsert_row_present y _ Hy) as [E1 E2].
    rewrite E1, E2, IH1, IH2. split; [|rewrite length_app; simpl; lia].
    rewrite map_map. apply map_ext. intros row.
    unfold replayed. rewrite last_with_path_snoc.
    assert (Hk : path (match last_with_path (path row) xs with
                       | Some x => do_update (bound_parameters x) row
                       | None => row
                       end) = path row
                 /\ id (match last_with_path (path row) xs with
                        | Some x => do_update (bound_parameters x) row
                        | None => row
                        end) = id row).
    { now destruct (last_with_path (path row) xs). }
    destruct Hk as [Hk1 Hk2]. unfold rewritten_row. rewrite Hk1.
    rewrite (String.eqb_sym (path y) (path row)).
    destruct (path row =? path y); [|reflexivity].
    now apply do_update_twice.
Qed.

Lemma stamp_length (clock : nat -> string) (k : nat) (xs : list Project) :
  length (stamp clock k xs) = length xs.
Proof. revert k. induction xs as [|x xs IH]; intros k; simpl; [|rewrite IH]; reflexivity. Qed.

Lemma stamp_same (clock : nat -> string) (k k' : nat) (xs : list Project) :
  Forall2 same_but_last_scanned (stamp clock k xs) (stamp clock k' xs).
Proof.
  revert k k'. induction xs as [|x xs IH]; intros k k'; simpl; constructor.
  - reflexivity.
  - apply IH.
Qed.

Lemma stamp_paths (clock : nat -> string) (k : nat) (xs : list Project) :
  map path (stamp clock k xs) = map path xs.
Proof. revert k. induction xs as [|x xs IH]; intros k; simpl; [|rewrite IH]; reflexivity. Qed.

Lemma stamp_last_with_path (clock : nat -> string) (k k' : nat)
      (xs : list Project) (p : string) :
  match last_with_path p (stamp clock k xs),
        last_with_path p (stamp clock k' xs) with
  | Some a, Some b => same_but_last_scanned a b
  | None, None => True
  | _, _ => False
  end.
Proof.
  revert k k'. induction xs as [|x xs IH]; intros k k'; simpl; [exact I|].
  specialize (IH (S k) (S k')).
  destruct (last_with_path p (stamp clock (S k) xs)),
           (last_with_path p (stamp clock (S k') xs)); try easy.
  destruct (path x =? p); [reflexivity | exact I].
Qed.

Lemma records_at_unique (d : Database) (p : string) :
  unique_paths d -> In p (map path (projects d)) -> records_at d p = 1%nat.
Proof.
  unfold unique_paths, records_at. induction (projects d) as [|row rows IH]; simpl.
  - intros _ [].
  - intros Hu Hin. inversion Hu as [|? ? Hn Hu']; subst.
    destruct (String.eqb_spec (path row) p) as [E | E].
    + simpl. f_equal. subst p.
      assert (Hnone : forall l, ~ In (path row) (map path l) ->
                length (filter (fun r => path r =? path row) l) = 0%nat).
      { induction l as [|r l IHl]; simpl; [reflexivity|]. intros Hni.
        destruct (String.eqb_spec (path r) (path row)) as [E | E].
        - exfalso. apply Hni. now left.
        - apply IHl. intros H. apply Hni. now right. }
      now apply Hnone.
    + destruct Hin as [E' | Hin]; [congruence|]. now apply IH.
Qed.


Lemma Forall2_map_pointwise {A} (R : A -> A -> Prop) (f : A -> A) (l : list A) :
  (forall a, In a l -> R a (f a)) -> Forall2 R l (map f l).
Proof.
  induction l as [|a l IH]; simpl; intros H; constructor.
  - apply H. now left.
  - apply IH. intros b Hb. apply H. now right.
Qed.

(** Replaying a scan's upserts with other time stamps changes nothing
    but [last_scanned]. *)
Lemma rescan_rows (clock : nat -> string) (k k' : nat) (found : list Project)
      (d : Database) :
  let d1 := fold_left upsert_row (stamp clock k found) d in
  let d2 := fold_left upsert_row (stamp clock k' found) d1 in
  Forall2 same_but_last_scanned (projects d1) (projects d2).
Proof.
  intros d1 d2.
  assert (Hpresent : forall x, In x (stamp clock k' found) ->
                               In (path x) (map path (projects d1))).
  { intros x Hx. apply (in_map path) in Hx. rewrite stamp_paths in Hx.
    rewrite <- (stamp_paths clock k) in Hx. apply in_map_iff in Hx.
    destruct Hx as (x1 & <- & Hx1). now apply fold_upsert_adds_paths. }
  destruct (fold_upsert_replay _ d1 Hpresent) as [E _].
  fold d2 in E. rewrite E. apply Forall2_map_pointwise.
  intros row Hrow. unfold replayed.
  pose proof (stamp_last_with_path clock k k' found (path row)) as Hl.
  destruct (last_with_path (path row) (stamp clock k' found)) as [b|];
    [|reflexivity].
  destruct (last_with_path (path row) (stamp clock k found)) as [a|] eqn:Ha;
    [|contradiction].
  pose proof (fold_upsert_holds _ d row a Hrow Ha) as Hh.
  unfold same_but_last_scanned.
  transitivity (set_last_scanned "" (do_update (bound_parameters a) row));
    [now rewrite <- Hh | now apply do_update_same_but].
Qed.

(** C3. Two scans of the same root in the same environment, the second
    starting from the store the first one left: both end the same way,
    with the same projects up to their time stamps; the second one leaves
    the rows of the table in place, with their ids and paths, and changes
    nothing in them but [last_scanned]; every discovered path has a row;
    and if paths were unique in the store before, they still are, so that
    each discovered path has exactly one record after each scan. *)
Theorem scanDirectory_twice (env : Env) (rootPath : string) (st0 : State) :
  let first := scanDirectory env rootPath st0 in
  let second := scanDirectory env rootPath (snd first) in
  match fst first, fst second with
  | inr ps1, inr ps2 => Forall2 same_but_last_scanned ps1 ps2
  | inl e1, inl e2 => e1 = e2
  | _, _ => False
  end
  /\ Forall2 same_but_last_scanned (projects (db (snd first)))
                                   (projects (db (snd second)))
  /\ (forall ps1 p, fst first = inr ps1 -> In p ps1 ->
        In (path p) (map path (projects (db (snd first)))))
  /\ (unique_paths (db st0) ->
      unique_paths (db (snd first)) /\ unique_paths (db (snd second))
      /\ forall ps1 p, fst first = inr ps1 -> In p ps1 ->
           records_at (db (snd first)) (path p) = 1%nat
           /\ records_at (db (snd second)) (path p) = 1%nat).
Proof.
  intros first second. subst second first.
  destruct (scanDirectory_summary env rootPath st0) as (st1 & E1 & D1 & T1).
  rewrite E1. cbn [fst snd].
  destruct (scanDirectory_summary env rootPath st1) as (st2 & E2 & D2 & T2).
  rewrite E2. cbn [fst snd]. rewrite D2, D1.
  assert (Hin1 : forall ps1 p,
            match snd (scan_summary env rootPath) with
            | Some e => inl e
            | None => inr (stamp (now env) (ticks st0) (fst (scan_summary env rootPath)))
            end = inr ps1 ->
            In p ps1 ->
            In (path p)
               (map path (projects (fold_left upsert_row
                  (stamp (now env) (ticks st0) (fst (scan_summary env rootPath)))
                  (db st0))))).
  { intros ps1 p Hps Hp. destruct (snd (scan_summary env rootPath)); [discriminate|].
    injection Hps as <-. now apply fold_upsert_adds_paths. }
  split; [|split; [|split]].
  - destruct (snd (scan_summary env rootPath)); [reflexivity | apply stamp_same].
  - apply rescan_rows.
  - exact Hin1.
  - intros Hu.
    assert (Hu1 := fold_upsert_unique
                     (stamp (now env) (ticks st0) (fst (scan_summary env rootPath)))
                     _ Hu).
    assert (Hu2 := fold_upsert_unique
                     (stamp (now env) (ticks st1) (fst (scan_summary env rootPath)))
                     _ Hu1).
    split; [exact Hu1|]. split; [exact Hu2|].
    intros ps1 p Hps Hp. specialize (Hin1 ps1 p Hps Hp). split.
    + now apply records_at_unique.
    + apply records_at_unique; [exact Hu2|]. now apply fold_upsert_keeps_paths.
Qed.

(** ** Errors during a scan *)

Section ChildErrors.

Context (env : Env) (rootPath : string).

Lemma plan_without_errors (entries : list Dirent) :
  (forall entry, In entry entries -> is_candidate entry = true ->
                 detector_error env rootPath entry = None) ->
  snd (plan env rootPath entries) = None
  /\ map path (fst (plan env rootPath entries))
     = map (fun entry => path_join env rootPath (d_name entry))
           (filter (qualifies env rootPath) entries).
Proof.
  induction entries as [|entry rest IH]; intros Hok; [now split|].
  destruct IH as [IH1 IH2]; [intros x Hx; apply Hok; now right|].
  pose proof (Hok entry (or_introl eq_refl)) as Hentry.
  unfold qualifies, detector_error in *. cbn [plan filter].
  destruct (is_candidate entry); [|now split].
  specialize (Hentry eq_refl).
  destruct (isGitRepo env (path_join env rootPath (d_name entry))) as [e | isGit];
    [discriminate|].
  destruct (detectTechStack env (path_join env rootPath (d_name entry)))
    as [e | techStack]; [discriminate|].
  cbn [andb]. destruct (isGit || truthy techStack); [|now split].
  cbn [fst snd map]. split; [exact IH1 | now rewrite IH2].
Qed.

Lemma plan_with_error (pre post : list Dirent) (entry : Dirent) (e : Err) :
  (forall x, In x pre -> is_candidate x = true ->
             detector_error env rootPath x = None) ->
  is_candidate entry = true ->
  detector_error env rootPath entry = Some e ->
  plan env rootPath (pre ++ entry :: post) = (fst (plan env rootPath pre), Some e).
Proof.
  intros Hpre Hc He. induction pre as [|x pre IH].
  - simpl. rewrite Hc. unfold detector_error in He.
    destruct (isGitRepo env (path_join env rootPath (d_name entry))) as [e' | isGit];
      [now injection He as -> |].
    destruct (detectTechStack env (path_join env rootPath (d_name entry)))
      as [e' | techStack]; [now injection He as -> | discriminate].
  - pose proof (Hpre x (or_introl eq_refl)) as Hx.
    rewrite <- app_comm_cons. cbn [plan].
    rewrite IH by (intros y Hy; apply Hpre; now right).
    destruct (is_candidate x); [|reflexivity].
    specialize (Hx eq_refl). unfold detector_error in Hx.
    destruct (isGitRepo env (path_join env rootPath (d_name x))) as [e' | isGit];
      [discriminate|].
    destruct (detectTechStack env (path_join env rootPath (d_name x)))
      as [e' | techStack]; [discriminate|].
    now destruct (isGit || truthy techStack).
Qed.

Lemma scanDirectory_listed (st : State) (c : string) (entries : list Dirent) :
  validatePath env rootPath [allowed_root env] st = (inr c, st) ->
  readdir env rootPath = inr entries ->
  exists st',
    db st' = fold_left upsert_row
               (stamp (now env) (ticks st) (fst (plan env rootPath entries)))
               (db st)
    /\ scanDirectory env rootPath st
       = match snd (plan env rootPath entries) with
         | None => (inr (stamp (now env) (ticks st)
                               (fst (plan env rootPath entries))), st')
         | Some e => (inl e, logged (scan_failure_line rootPath) st')
         end.
Proof.
  intros Hv Hr. unfold scanDirectory. fold (allowed_root env).
  rewrite (bind_inr _ Hv). unfold try_catch, bind at 1. rewrite Hr. cbn [lift ret].
  destruct (scan_entries_plan env rootPath entries [] st) as (st' & E & Hd & _).
  rewrite E. exists st'. split; [exact Hd|].
  now destruct (snd (plan env rootPath entries)).
Qed.

(** C5, as the code has it.  When the root is accepted and listed:
    if the repository check and the technology detector raise for no
    child, the scan returns normally whatever happens while the README is
    read and the git commands run, and every qualifying child is
    returned and has a row; if a detector raises for a child, the scan
    logs one line and rethrows, and the store holds the upserts of the
    children before that one only. *)
Theorem scanDirectory_child_errors (st : State) (c : string)
        (entries : list Dirent) :
  validatePath env rootPath [allowed_root env] st = (inr c, st) ->
  readdir env rootPath = inr entries ->
  ((forall entry, In entry entries -> is_candidate entry = true ->
                  detector_error env rootPath entry = None) ->
   exists ps st',
     scanDirectory env rootPath st = (inr ps, st')
     /\ map path ps
        = map (fun entry => path_join env rootPath (d_name entry))
              (filter (qualifies env rootPath) entries)
     /\ forall p, In p ps -> In (path p) (map path (projects (db st'))))
  /\ (forall pre entry post e,
        entries = pre ++ entry :: post ->
        (forall x, In x pre -> is_candidate x = true ->
                   detector_error env rootPath x = None) ->
        is_candidate entry = true ->
        detector_error env rootPath entry = Some e ->
        exists st',
          scanDirectory env rootPath st
          = (inl e, logged (scan_failure_line rootPath) st')
          /\ db st' = fold_left upsert_row
                        (stamp (now env) (ticks st) (fst (plan env rootPath pre)))
                        (db st)).
Proof.
  intros Hv Hr.
  destruct (scanDirectory_listed st c entries Hv Hr) as (st' & Hd & E).
  split.
  - intros Hok. destruct (plan_without_errors entries Hok) as [Hnone Hpaths].
    rewrite Hnone in E. eexists _, st'. split; [exact E|]. split.
    + now rewrite stamp_paths.
    + intros p Hp. rewrite Hd. now apply fold_upsert_adds_paths.
  - intros pre entry post e -> Hpre Hc He.
    rewrite (plan_with_error pre post entry e Hpre Hc He) in E, Hd.
    exists st'. now split.
Qed.

End ChildErrors.

(** Two scans of the home directory of the examples, from an empty
    store: two rows after each, stamped 0 and 1, then 2 and 3. *)
Lemma scanDirectory_twice_witness :
  unique_paths (db (snd (scanDirectory home_env "/home/u"
                           (snd (scanDirectory home_env "/home/u" initial_state)))))
  /\ records_at (db (snd (scanDirectory home_env "/home/u" initial_state)))
                "/home/u/api" = 1%nat
  /\ records_at (db (snd (scanDirectory home_env "/home/u"
                            (snd (scanDirectory home_env "/home/u" initial_state)))))
                "/home/u/api" = 1%nat
  /\ map last_scanned
         (projects (db (snd (scanDirectory home_env "/home/u" initial_state))))
     = ["0"; "1"]
  /\ map last_scanned
         (projects (db (snd (scanDirectory home_env "/home/u"
                               (snd (scanDirectory home_env "/home/u"
                                       initial_state))))))
     = ["2"; "3"].
Proof.
  destruct (scanDirectory_twice home_env "/home/u" initial_state)
    as (_ & _ & _ & Hunique).
  destruct Hunique as (_ & U2 & Hrecords); [constructor|].
  assert (E : fst (scanDirectory home_env "/home/u" initial_state)
              = inr [api_record "0"; web_record "1"])
    by (vm_compute; reflexivity).
  destruct (Hrecords _ (api_record "0") E (or_introl eq_refl)) as [R1 R2].
  split; [exact U2|]. split; [exact R1|]. split; [exact R2|].
  split; vm_compute; reflexivity.
Defined.

(** With the network down and an unreadable README the scan of the home
    directory returns its two projects; with a failing detector it
    rethrows. *)
Lemma scanDirectory_child_errors_witness :
  (exists ps st',
     scanDirectory degraded_home_env "/home/u" initial_state = (inr ps, st')
     /\ map path ps = ["/home/u/api"; "/home/u/web"]
     /\ forall p, In p ps -> In (path p) (map path (projects (db st'))))
  /\ (exists st',
        scanDirectory broken_home_env "/home/u" initial_state
        = (inl (FsError "/home/u/api"),
           logged (scan_failure_line "/home/u") st')
        /\ db st' = db initial_state).
Proof.
  split.
  - apply (proj1 (scanDirectory_child_errors degraded_home_env "/home/u"
                    initial_state "/home/u" home_entries eq_refl eq_refl)).
    intros entry [<- | [<- | [<- | [<- | []]]]] Hc;
      try discriminate Hc; reflexivity.
  - apply (proj2 (scanDirectory_child_errors broken_home_env "/home/u"
                    initial_state "/home/u" home_entries eq_refl eq_refl)
             [] {| d_name := "api"; d_kind := IsDirectory |}
             (tl home_entries) (FsError "/home/u/api")).
    + reflexivity.
    + intros x [].
    + reflexivity.
    + reflexivity.
Defined.

(** C5, as stated, fails: the detector raises for [api], and the scan
    neither returns normally nor upserts [web], which qualifies. *)
Lemma scanDirectory_aborts_on_detector_failure :
  qualifies broken_home_env "/home/u" {| d_name := "web"; d_kind := IsDirectory |}
  = true
  /\ scanDirectory broken_home_env "/home/u" initial_state
     = (inl (FsError "/home/u/api"),
        logged (scan_failure_line "/home/u") initial_state)
  /\ projects (db (snd (scanDirectory broken_home_env "/home/u" initial_state)))
     = []
  /\ ~ (exists ps st',
          scanDirectory broken_home_env "/home/u" initial_state = (inr ps, st')).
Proof.
  split; [reflexivity|]. split; [reflexivity|]. split; [reflexivity|].
  intros (ps & st' & H). vm_compute in H. discriminate H.
Qed.

(* ================================================================= *)
(** * Further properties *)

(** ** The classifier, whatever the commands answer *)

Section GitAlways.

Context (env : Env) (dirPath : string).

(** What the classifier returns and logs, by cases on the answers. *)
Lemma getGitInfo_cases :
  exists g lines,
    (forall st, getGitInfo env dirPath st = (inr g, appended lines st))
    /\ (lines = [] \/ lines = [sync_failure_line dirPath])
    /\ (branch g = None -> remoteUrl g = None /\ syncStatus g = Unknown)
    /\ (syncStatus g = NoRemote <-> remoteUrl g = None /\ branch g <> None)
    /\ (compared (syncStatus g) -> remoteUrl g <> None /\ branch g <> None)
    /\ (lines = [sync_failure_line dirPath]
        <-> syncStatus g = Unknown /\ remoteUrl g <> None).
Proof.
  assert (Hnil : forall st : State, st = appended [] st).
  { intros [d l t]. unfold appended. simpl. now rewrite app_nil_r. }
  unfold getGitInfo, try_catch, bind, execAsync, ret, throw, console_error, compared.
  destruct (exec env dirPath "git rev-parse --abbrev-ref HEAD") as [b|].
  2:{ eexists _, []. split; [intros st; rewrite <- Hnil; reflexivity|]. simpl.
      intuition congruence. }
  destruct (exec env dirPath "git remote get-url origin") as [u|].
  2:{ eexists _, []. split; [intros st; rewrite <- Hnil; reflexivity|]. simpl.
      intuition congruence. }
  assert (Hfail :
    exists g lines,
      (forall st,
         (@inr Err GitInfo
               {| remoteUrl := Some (trim u); branch := Some (trim b);
                  syncStatus := Unknown |},
          {| db := db st;
             log := log st ++ [sync_failure_line dirPath];
             ticks := ticks st |})
         = (inr g, appended lines st))
      /\ (lines = [] \/ lines = [sync_failure_line dirPath])
      /\ (branch g = None -> remoteUrl g = None /\ syncStatus g = Unknown)
      /\ (syncStatus g = NoRemote <-> remoteUrl g = None /\ branch g <> None)
      /\ ((syncStatus g = Synced \/ syncStatus g = Ahead \/ syncStatus g = Behind
           \/ syncStatus g = Diverged) -> remoteUrl g <> None /\ branch g <> None)
      /\ (lines = [sync_failure_line dirPath]
          <-> syncStatus g = Unknown /\ remoteUrl g <> None)).
  { eexists _, [_]. split; [intros st; reflexivity|]. simpl.
    unfold sync_failure_line. intuition congruence. }
  destruct (exec env dirPath ("git fetch origin " ++ trim b)) as [f|]; [|exact Hfail].
  destruct (exec env dirPath "git rev-parse HEAD") as [l|]; [|exact Hfail].
  destruct (exec env dirPath ("git rev-parse origin/" ++ trim b)) as [r|];
    [|exact Hfail].
  destruct (exec env dirPath ("git merge-base HEAD origin/" ++ trim b)) as [m|];
    [|exact Hfail].
  clear Hfail. eexists _, []. split; [intros st; rewrite <- Hnil; reflexivity|].
  simpl. destruct (trim l =? trim r), (trim l =? trim m), (trim r =? trim m);
    intuition congruence.
Qed.

(** X1.  The classifier never throws, never touches the store or the clock,
    and logs nothing or the one line of a failed comparison: the line of
    its outer [catch] is never written. *)
Theorem getGitInfo_quiet (st : State) :
  exists g lines,
    getGitInfo env dirPath st = (inr g, appended lines st)
    /\ (lines = [] \/ lines = [sync_failure_line dirPath])
    /\ (lines = [sync_failure_line dirPath]
        <-> syncStatus g = Unknown /\ remoteUrl g <> None).
Proof.
  destruct getGitInfo_cases as (g & lines & H & Hl & _ & _ & _ & Hiff).
  exists g, lines. split; [apply H|]. now split.
Qed.

(** X2.  The record the classifier returns is one of four shapes: nothing
    resolved and [Unknown]; branch only and [NoRemote]; branch and URL
    with [Unknown]; branch and URL with a compared status. *)
Theorem getGitInfo_record_shape (st st' : State) (g : GitInfo) :
  getGitInfo env dirPath st = (inr g, st') ->
  (branch g = None -> remoteUrl g = None /\ syncStatus g = Unknown)
  /\ (syncStatus g = NoRemote <-> remoteUrl g = None /\ branch g <> None)
  /\ (compared (syncStatus g) -> remoteUrl g <> None /\ branch g <> None).
Proof.
  destruct getGitInfo_cases as (g0 & lines & H & _ & H1 & H2 & H3 & _).
  rewrite H. intros [= <- _]. split; [exact H1|]. split; [exact H2 | exact H3].
Qed.

End GitAlways.

Lemma getGitInfo_record_shape_witness :
  (branch (gitInfo_of (with_exec behind_commands blank_env) "/home/u/p") = None ->
   False)
  /\ compared (syncStatus (gitInfo_of (with_exec behind_commands blank_env)
                                      "/home/u/p"))
  /\ remoteUrl (gitInfo_of (with_exec behind_commands blank_env) "/home/u/p")
     <> None.
Proof.
  destruct (getGitInfo_record_shape (with_exec behind_commands blank_env)
              "/home/u/p" initial_state initial_state
              (gitInfo_of (with_exec behind_commands blank_env) "/home/u/p")
              eq_refl) as (H1 & H2 & H3).
  assert (Hc : compared (syncStatus (gitInfo_of (with_exec behind_commands blank_env)
                                                "/home/u/p"))).
  { right. right. left. reflexivity. }
  split; [discriminate|]. split; [exact Hc | apply (H3 Hc)].
Defined.

(** ** Trimming *)

Lemma trimStart_fixed (c : ascii) (s : string) :
  isWhiteSpace c = false -> trimStart (String c s) = String c s.
Proof. intros H. simpl. now rewrite H. Qed.

Lemma trimEnd_head (c : ascii) (s : string) :
  isWhiteSpace c = false -> exists t, trimEnd (String c s) = String c t.
Proof.
  intros H. simpl. destruct (trimEnd s); [rewrite H|]; now eexists.
Qed.

Lemma trimStart_trimEnd (s : string) : trimStart (trimEnd s) = trimEnd (trimStart s).
Proof.
  induction s as [|c s IH]; [reflexivity|].
  destruct (isWhiteSpace c) eqn:Hc.
  - cbn [trimStart]. rewrite Hc, <- IH. cbn [trimEnd].
    destruct (trimEnd s) as [|c' t]; [now rewrite Hc|].
    cbn [trimStart]. now rewrite Hc.
  - rewrite (trimStart_fixed c s Hc).
    destruct (trimEnd_head c s Hc) as [t ->]. now apply trimStart_fixed.
Qed.

Lemma trimStart_idempotent (s : string) : trimStart (trimStart s) = trimStart s.
Proof.
  induction s as [|c s IH]; [reflexivity|]. simpl.
  destruct (isWhiteSpace c) eqn:Hc; [exact IH | now apply trimStart_fixed].
Qed.

Lemma trimEnd_idempotent (s : string) : trimEnd (trimEnd s) = trimEnd s.
Proof.
  induction s as [|c s IH]; [reflexivity|]. cbn [trimEnd].
  destruct (trimEnd s) as [|c' t] eqn:E.
  - destruct (isWhiteSpace c) eqn:Hc; [reflexivity|]. simpl. now rewrite Hc.
  - cbn [trimEnd]. cbn [trimEnd] in IH. now rewrite IH.
Qed.

Lemma trim_idempotent (s : string) : trim (trim s) = trim s.
Proof.
  unfold trim. rewrite trimStart_trimEnd, trimStart_idempotent.
  apply trimEnd_idempotent.
Qed.

(** ** The description read from the README *)

Lemma first_description_spec (lines : list string) (text : string) :
  first_description lines = Some text
  <-> exists pre line post,
        lines = pre ++ line :: post /\ text = trim line
        /\ describes line = true /\ Forall (fun l => describes l = false) pre.
Proof.
  induction lines as [|l lines IH]; simpl.
  - split; [discriminate | intros (pre & line & post & E & _)].
    destruct pre; discriminate E.
  - fold (describes l). destruct (describes l) eqn:D.
    + split.
      * intros [= <-]. exists [], l, lines. now repeat split.
      * intros (pre & line & post & E & -> & Hd & Hpre).
        destruct pre as [|x pre]; [now injection E as -> _|].
        injection E as -> _. inversion Hpre; congruence.
    + rewrite IH. split.
      * intros (pre & line & post & -> & -> & Hd & Hpre).
        exists (l :: pre), line, post. repeat split; [exact Hd | now constructor].
      * intros (pre & line & post & E & -> & Hd & Hpre).
        destruct pre as [|x pre]; [injection E as -> _; congruence|].
        injection E as -> ->. inversion Hpre; subst.
        exists pre, line, post. now repeat split.
Qed.

Lemma first_description_none (lines : list string) :
  first_description lines = None <-> Forall (fun l => describes l = false) lines.
Proof.
  induction lines as [|l lines IH]; simpl; [split; [constructor | reflexivity]|].
  fold (describes l). destruct (describes l) eqn:D.
  - split; [discriminate | intros H; inversion H; congruence].
  - rewrite IH. split; [now constructor | intros H; now inversion H].
Qed.

(** X3.  [getProjectDescription] never throws and leaves the state alone; it
    returns nothing when the README is absent or cannot be read; for a
    README of ASCII text it returns the first line that, trimmed, is not
    empty and is neither a title nor an image, and what it returns is
    trimmed. *)
Theorem getProjectDescription_result (env : Env) (dirPath : string) (st : State) :
  exists d,
    getProjectDescription env dirPath st = (inr d, st)
    /\ (access env (path_join env dirPath "README.md") = false -> d = None)
    /\ (forall e, readFile env (path_join env dirPath "README.md") = inl e ->
                  d = None)
    /\ (forall content,
          access env (path_join env dirPath "README.md") = true ->
          readFile env (path_join env dirPath "README.md") = inr content ->
          ascii_text content = true ->
          d = first_description (str_split LF content)
          /\ forall text, d = Some text ->
               text <> "" /\ startsWith text "#" = false
               /\ startsWith text "![" = false /\ trim text = text).
Proof.
  assert (Hshape : forall lines text,
            first_description lines = Some text ->
            text <> "" /\ startsWith text "#" = false
            /\ startsWith text "![" = false /\ trim text = text).
  { intros lines text H. apply first_description_spec in H.
    destruct H as (pre & line & post & _ & -> & Hd & _). unfold describes in Hd.
    apply andb_true_iff in Hd. destruct Hd as [Hd H3].
    apply andb_true_iff in Hd. destruct Hd as [H1 H2].
    apply negb_true_iff in H1, H2, H3. apply String.eqb_neq in H1.
    repeat split; try assumption. apply trim_idempotent. }
  unfold getProjectDescription, try_catch, bind, lift.
  destruct (access env (path_join env dirPath "README.md")); simpl.
  - destruct (readFile env (path_join env dirPath "README.md")) as [e | content].
    + exists None. repeat split; try discriminate; reflexivity.
    + eexists. split; [reflexivity|]. split; [discriminate|].
      split; [discriminate|]. intros c _ [= <-] _.
      split; [reflexivity|].
      intros text H. now apply (Hshape (str_split LF content)).
  - exists None. repeat split; try discriminate; reflexivity.
Qed.

(** ** The store: upsert and lookup *)

Lemma or_null_idempotent (x : option string) : or_null (or_null x) = or_null x.
Proof. now destruct x as [[|c s]|]. Qed.

Lemma bound_parameters_idempotent (p : Project) :
  bound_parameters (bound_parameters p) = bound_parameters p.
Proof.
  unfold bound_parameters. cbn [id name path status is_git tech_stack last_scanned
    description remote_url sync_status branch_name last_activity_date].
  rewrite !or_null_idempotent. now destruct (is_git p).
Qed.

Lemma do_update_normalised (x row : Project) :
  normalised (do_update (bound_parameters x) row).
Proof.
  unfold normalised, do_update, bound_parameters.
  cbn [id name path status is_git tech_stack last_scanned
    description remote_url sync_status branch_name last_activity_date].
  rewrite !or_null_idempotent. now destruct (is_git x).
Qed.

Lemma new_row_normalised (i : Z) (x : Project) :
  normalised (new_row i (bound_parameters x)).
Proof.
  unfold normalised, new_row, bound_parameters.
  cbn [id name path status is_git tech_stack last_scanned
    description remote_url sync_status branch_name last_activity_date].
  rewrite !or_null_idempotent. now destruct (is_git x).
Qed.

Lemma upsert_row_rest (d : Database) (x : Project) :
  activity_stats (upsert_row d x) = activity_stats d
  /\ activity_stats_seq (upsert_row d x) = activity_stats_seq d
  /\ (projects_seq d <= projects_seq (upsert_row d x))%Z.
Proof.
  unfold upsert_row, upsert_projects_table.
  destruct (existsb _ (projects d)); simpl; repeat split; lia.
Qed.

Lemma upsert_row_ids (d : Database) (x : Project) :
  map id (projects (upsert_row d x))
  = if existsb (fun row => path row =? path x) (projects d)
    then map id (projects d)
    else map id (projects d) ++ [Some (projects_seq d + 1)%Z].
Proof.
  rewrite upsert_row_rows. destruct (existsb _ (projects d)).
  - rewrite map_map. apply map_ext. intros row. apply rewritten_keeps.
  - now rewrite map_app.
Qed.

(** Every upsert takes a value of the sequence, also when it ends in an
    update. *)
Lemma upsert_row_seq (d : Database) (x : Project) :
  projects_seq (upsert_row d x) = (projects_seq d + 1)%Z.
Proof.
  unfold upsert_row, upsert_projects_table. cbn [path bound_parameters].
  now destruct (existsb _ (projects d)).
Qed.

Lemma find_map_keeping {A} (f : A -> bool) (g : A -> A) (l : list A) :
  (forall a, f (g a) = f a) -> find f (map g l) = option_map g (find f l).
Proof.
  intros H. induction l as [|a l IH]; simpl; [reflexivity|].
  rewrite H. now destruct (f a).
Qed.






(** An upsert repeated changes nothing more in the rows. *)
Lemma upsert_row_idempotent (d : Database) (x : Project) :
  projects (upsert_row (upsert_row d x) x) = projects (upsert_row d x).
Proof.
  assert (Hrow : forall row, rewritten_row x (rewritten_row x row) = rewritten_row x row).
  { intros row. unfold rewritten_row.
    destruct (path row =? path x) eqn:E; [|now rewrite E].
    cbn [path do_update]. now rewrite E. }
  destruct (upsert_row_present x (upsert_row d x) (upsert_row_adds_path x d))
    as [E1 _].
  rewrite E1, upsert_row_rows.
  destruct (existsb (fun row => path row =? path x) (projects d)) eqn:E.
  - rewrite map_map. apply map_ext. exact Hrow.
  - rewrite map_app. f_equal.
    + rewrite <- (map_id (projects d)) at 2. apply map_ext_in. intros row Hr.
      unfold rewritten_row.
      destruct (String.eqb_spec (path row) (path x)) as [Hp|]; [|reflexivity].
      exfalso. assert (existsb (fun r => path r =? path x) (projects d) = true).
      { apply existsb_exists. exists row. split; [exact Hr | now apply String.eqb_eq]. }
      congruence.
    + simpl. unfold rewritten_row. cbn [path new_row bound_parameters].
      now rewrite String.eqb_refl.
Qed.

(** ** The store: repeated inserts of activity *)

Section StatReplay.

Context (projectId : Z).

Lemma insert_stat_keys (d : Database) (stat : Stat) :
  map stat_key (activity_stats (insert_stat projectId d stat))
  = if existsb (has_key projectId (s_date stat)) (activity_stats d)
    then map stat_key (activity_stats d)
    else map stat_key (activity_stats d) ++ [(projectId, s_date stat)].
Proof.
  rewrite insert_stat_rows. destruct (existsb _ (activity_stats d)).
  - apply map_updated_keys.
  - now rewrite map_app.
Qed.

Lemma insert_stat_keeps_keys (d : Database) (stat : Stat) (k : Z * string) :
  In k (map stat_key (activity_stats d)) ->
  In k (map stat_key (activity_stats (insert_stat projectId d stat))).
Proof.
  rewrite insert_stat_keys. destruct (existsb _ (activity_stats d)); [easy|].
  intros H. apply in_or_app. now left.
Qed.

Lemma insert_stat_adds_key (d : Database) (stat : Stat) :
  In (projectId, s_date stat)
     (map stat_key (activity_stats (insert_stat projectId d stat))).
Proof.
  rewrite insert_stat_keys. destruct (existsb _ (activity_stats d)) eqn:E.
  - now apply existsb_has_key.
  - apply in_or_app. right. now left.
Qed.

(** Every insert takes a value of the sequence, also when it ends in an
    update. *)
Lemma insert_stat_seq (d : Database) (stat : Stat) :
  activity_stats_seq (insert_stat projectId d stat)
  = (activity_stats_seq d + 1)%Z.
Proof.
  unfold insert_stat. fold (has_key projectId (s_date stat)).
  now destruct (existsb _ (activity_stats d)).
Qed.

Lemma fold_insert_projects (stats : list Stat) (d : Database) :
  projects (fold_left (insert_stat projectId) stats d) = projects d
  /\ projects_seq (fold_left (insert_stat projectId) stats d) = projects_seq d.
Proof.
  revert d. induction stats as [|s stats IH]; intros d; simpl; [now split|].
  destruct (IH (insert_stat projectId d s)) as [-> ->].
  apply insert_stat_projects.
Qed.

Lemma fold_insert_keeps_keys (stats : list Stat) (d : Database) (k : Z * string) :
  In k (map stat_key (activity_stats d)) ->
  In k (map stat_key (activity_stats (fold_left (insert_stat projectId) stats d))).
Proof.
  revert d. induction stats as [|s stats IH]; intros d H; simpl; [exact H|].
  apply IH. now apply insert_stat_keeps_keys.
Qed.

Lemma fold_insert_adds_keys (stats : list Stat) (d : Database) (s : Stat) :
  In s stats ->
  In (projectId, s_date s)
     (map stat_key (activity_stats (fold_left (insert_stat projectId) stats d))).
Proof.
  revert d. induction stats as [|s' stats IH]; intros d; simpl; [intros []|].
  intros [-> | H]; [|now apply IH].
  apply fold_insert_keeps_keys, insert_stat_adds_key.
Qed.

(** After the inserts, a row of the project on a day that was produced
    holds the count produced last. *)
Lemma fold_insert_holds (stats : list Stat) (d : Database)
      (row : ActivityStat) (c : Z) :
  In row (activity_stats (fold_left (insert_stat projectId) stats d)) ->
  project_id row = projectId ->
  produced_count stats (date row) = Some c ->
  changes_count row = c.
Proof.
  revert row c. induction stats as [|s stats IH] using rev_ind; intros row c Hin Hp Hc.
  - discriminate Hc.
  - rewrite fold_left_app in Hin. simpl in Hin.
    rewrite produced_count_snoc in Hc. rewrite insert_stat_rows in Hin.
    destruct (existsb _ (activity_stats (fold_left (insert_stat projectId) stats d)))
      eqn:E.
    + apply in_map_iff in Hin. destruct Hin as (row0 & <- & Hin0).
      unfold updated_stat in *. unfold has_key in *.
      destruct (String.eqb_spec (date row0) (s_date s)) as [Ed | Ed].
      * destruct (Z.eqb_spec (project_id row0) projectId) as [Ep | Ep].
        -- simpl in *. rewrite Ed, String.eqb_refl in Hc. now injection Hc.
        -- simpl in *. congruence.
      * rewrite andb_false_r in *.
        destruct (String.eqb_spec (date row0) (s_date s)); [contradiction|].
        now apply IH.
    + apply in_app_or in Hin. destruct Hin as [Hin | [<- | []]].
      * destruct (String.eqb_spec (date row) (s_date s)) as [Ed | Ed];
          [|now apply IH].
        exfalso.
        assert (Hk : existsb (has_key projectId (s_date s))
                       (activity_stats (fold_left (insert_stat projectId) stats d))
                     = true).
        { apply existsb_exists. exists row. split; [exact Hin|].
          unfold has_key. rewrite Hp, Ed, Z.eqb_refl, String.eqb_refl.
          reflexivity. }
        congruence.
      * simpl in *. rewrite String.eqb_refl in Hc. now injection Hc.
Qed.

(** Replaying inserts on a table where all their keys are present
    rewrites the counts in place. *)
Lemma fold_insert_replay (stats : list Stat) (d : Database) :
  (forall s, In s stats ->
             In (projectId, s_date s) (map stat_key (activity_stats d))) ->
  activity_stats (fold_left (insert_stat projectId) stats d)
  = map (stat_replayed projectId stats) (activity_stats d)
  /\ activity_stats_seq (fold_left (insert_stat projectId) stats d)
     = (activity_stats_seq d + Z.of_nat (length stats))%Z.
Proof.
  induction stats as [|s stats IH] using rev_ind; intros Hall.
  - simpl. split; [|lia]. symmetry.
    transitivity (map (fun x : ActivityStat => x) (activity_stats d));
      [|apply map_id].
    apply map_ext. intros row. unfold stat_replayed, produced_count. simpl.
    now destruct (project_id row =? projectId)%Z.
  - rewrite fold_left_app. simpl.
    destruct IH as [IH1 IH2].
    { intros x Hx. apply Hall, in_or_app. now left. }
    assert (Hs : existsb (has_key projectId (s_date s))
                   (activity_stats (fold_left (insert_stat projectId) stats d))
                 = true).
    { apply existsb_has_key, fold_insert_keeps_keys, Hall, in_or_app.
      right. now left. }
    rewrite insert_stat_rows, insert_stat_seq, Hs, IH1, IH2.
    split; [|rewrite length_app; simpl; lia].
    rewrite map_map. apply map_ext. intros row.
    unfold stat_replayed, updated_stat, has_key.
    rewrite produced_count_snoc.
    assert (Hk : forall r : ActivityStat,
              project_id (if (project_id row =? projectId)%Z
                          then match produced_count stats (date row) with
                               | Some c => {| stat_id := stat_id row;
                                              project_id := project_id row;
                                              date := date row;
                                              changes_count := c |}
                               | None => row
                               end
                          else row) = project_id row
              /\ date (if (project_id row =? projectId)%Z
                       then match produced_count stats (date row) with
                            | Some c => {| stat_id := stat_id row;
                                           project_id := project_id row;
                                           date := date row;
                                           changes_count := c |}
                            | None => row
                            end
                       else row) = date row
              /\ stat_id (if (project_id row =? projectId)%Z
                          then match produced_count stats (date row) with
                               | Some c => {| stat_id := stat_id row;
                                              project_id := project_id row;
                                              date := date row;
                                              changes_count := c |}
                               | None => row
                               end
                          else row) = stat_id row).
    { intros _. destruct (project_id row =? projectId)%Z; [|easy].
      now destruct (produced_count stats (date row)). }
    destruct (Hk row) as (K1 & K2 & K3). rewrite K1, K2, K3.
    destruct (project_id row =? projectId)%Z; [|reflexivity]. simpl.
    now destruct (date row =? s_date s).
Qed.

Lemma fold_insert_seq (stats : list Stat) (d : Database) :
  activity_stats_seq (fold_left (insert_stat projectId) stats d)
  = (activity_stats_seq d + Z.of_nat (length stats))%Z.
Proof.
  revert d. induction stats as [|s stats IH]; intros d; [simpl; lia|].
  cbn [fold_left length]. rewrite IH, insert_stat_seq. lia.
Qed.

(** The inserts repeated change nothing more in the rows. *)
Lemma fold_insert_idempotent (stats : list Stat) (d : Database) :
  activity_stats (fold_left (insert_stat projectId) stats
                            (fold_left (insert_stat projectId) stats d))
  = activity_stats (fold_left (insert_stat projectId) stats d).
Proof.
  destruct (fold_insert_replay stats (fold_left (insert_stat projectId) stats d))
    as [E1 _].
  { intros s Hs. now apply fold_insert_adds_keys. }
  rewrite E1.
  transitivity (map (fun x : ActivityStat => x)
                    (activity_stats (fold_left (insert_stat projectId) stats d)));
    [|apply map_id].
  apply map_ext_in. intros row Hrow. unfold stat_replayed.
  destruct (Z.eqb_spec (project_id row) projectId) as [Hp|]; [|reflexivity].
  destruct (produced_count stats (date row)) as [c|] eqn:Hc; [|reflexivity].
  rewrite <- (fold_insert_holds stats d row c Hrow Hp Hc). now destruct row.
Qed.

End StatReplay.

(** X5.  Both upserts are idempotent on the rows: [upsertProject]
    repeated with the same project, and [insertActivityStats] repeated
    with the same counts, leave the rows of both tables as the first call
    left them.  The sequences are not left alone: the repeated upsert
    takes one more value of the sequence of [projects], and the repeated
    inserts take one value of the sequence of [activity_stats] for each
    count, so that the rows inserted later get higher ids.  The inserts
    are those for a project that is stored, as the analysis makes them. *)
Theorem upserts_are_idempotent (project : Project) (projectId : Z)
        (stats : list Stat) (st : State) :
  let once := db (snd (upsertProject project st)) in
  let twice := db (snd (upsertProject project (snd (upsertProject project st)))) in
  let counted := db (snd (insertActivityStats projectId stats st)) in
  let recounted :=
    db (snd (insertActivityStats projectId stats
               (snd (insertActivityStats projectId stats st)))) in
  (projects twice = projects once
   /\ activity_stats twice = activity_stats once
   /\ projects_seq twice = (projects_seq once + 1)%Z
   /\ activity_stats_seq twice = activity_stats_seq once)
  /\ (In (Some projectId) (map id (projects (db st))) ->
      activity_stats recounted = activity_stats counted
      /\ projects recounted = projects counted
      /\ projects_seq recounted = projects_seq counted
      /\ activity_stats_seq recounted
         = (activity_stats_seq counted + Z.of_nat (length stats))%Z).
Proof.
  cbv zeta. split.
  - split; [apply upsert_row_idempotent|].
    destruct (upsert_row_rest (upsert_row (db st) project) project)
      as (E1 & E2 & _).
    split; [exact E1|]. split; [apply upsert_row_seq | exact E2].
  - intros _. split; [apply fold_insert_idempotent|].
    destruct (fold_insert_projects projectId stats
                (fold_left (insert_stat projectId) stats (db st))) as [E1 E2].
    split; [exact E1|]. split; [exact E2 | apply fold_insert_seq].
Qed.

(** The count of the stored project inserted twice: one row more than
    before, once; the sequence at 2, then at 3. *)
Lemma upserts_are_idempotent_witness :
  activity_stats
    (db (snd (insertActivityStats 1 [{| s_date := "2024-01-02"; s_count := 3 |}]
                (snd (insertActivityStats 1
                        [{| s_date := "2024-01-02"; s_count := 3 |}]
                        one_project_state)))))
  = activity_stats
      (db (snd (insertActivityStats 1 [{| s_date := "2024-01-02"; s_count := 3 |}]
                  one_project_state)))
  /\ activity_stats_seq
       (db (snd (insertActivityStats 1 [{| s_date := "2024-01-02"; s_count := 3 |}]
                   (snd (insertActivityStats 1
                           [{| s_date := "2024-01-02"; s_count := 3 |}]
                           one_project_state)))))
     = 3%Z.
Proof.
  destruct (proj2 (upserts_are_idempotent stored_project 1
                     [{| s_date := "2024-01-02"; s_count := 3 |}]
                     one_project_state) (or_introl eq_refl))
    as (Hrows & _ & _ & Hseq).
  split; [exact Hrows|]. rewrite Hseq. reflexivity.
Defined.

(** ** The store stays well formed *)

Lemma incl_map_id_upsert (d : Database) (x : Project) (i : option Z) :
  In i (map id (projects d)) -> In i (map id (projects (upsert_row d x))).
Proof.
  rewrite upsert_row_ids. destruct (existsb _ (projects d)); [easy|].
  intros H. apply in_or_app. now left.
Qed.

Lemma upsert_row_well_formed (d : Database) (x : Project) :
  well_formed d -> well_formed (upsert_row d x).
Proof.
  intros [Hp Hq Hi Hr Hn Hs Hsq Hsi Hsr Href].
  destruct (upsert_row_rest d x) as (E1 & E2 & Hseq).
  constructor.
  - now apply upsert_row_unique.
  - lia.
  - rewrite upsert_row_ids. destruct (existsb _ (projects d)); [exact Hi|].
    apply NoDup_app; [exact Hi | repeat constructor; intros [] |].
    intros i Hin [<- | []]. apply in_map_iff in Hin.
    destruct Hin as (row & Hid & Hin). rewrite Forall_forall in Hr.
    destruct (Hr row Hin) as (j & Hj & Hrange). rewrite Hj in Hid.
    injection Hid as Hid. lia.
  - rewrite upsert_row_seq, upsert_row_rows.
    destruct (existsb _ (projects d)).
    + apply Forall_map. eapply Forall_impl; [|exact Hr].
      intros row (i & Hi' & Hrange). exists i.
      rewrite (proj2 (rewritten_keeps x row)). split; [exact Hi' | lia].
    + apply Forall_app. split.
      * eapply Forall_impl; [|exact Hr]. intros row (i & Hi' & Hrange).
        exists i. split; [exact Hi' | lia].
      * repeat constructor. exists (projects_seq d + 1)%Z. split; [reflexivity | lia].
  - rewrite upsert_row_rows. destruct (existsb _ (projects d)).
    + apply Forall_map. eapply Forall_impl; [|exact Hn]. intros row Hrow.
      unfold rewritten_row. destruct (path row =? path x); [|exact Hrow].
      apply do_update_normalised.
    + apply Forall_app. split; [exact Hn|]. repeat constructor.
      apply new_row_normalised.
  - unfold unique_stats. now rewrite E1.
  - now rewrite E2.
  - now rewrite E1.
  - now rewrite E1, E2.
  - rewrite E1. eapply Forall_impl; [|exact Href]. intros s Hs0.
    now apply incl_map_id_upsert.
Qed.

Lemma insert_stat_well_formed (projectId : Z) (d : Database) (stat : Stat) :
  well_formed d -> In (Some projectId) (map id (projects d)) ->
  well_formed (insert_stat projectId d stat).
Proof.
  intros [Hp Hq Hi Hr Hn Hs Hsq Hsi Hsr Href] Hpid.
  destruct (insert_stat_projects projectId stat d) as [E1 E2].
  constructor.
  - unfold unique_paths. now rewrite E1.
  - now rewrite E2.
  - now rewrite E1.
  - now rewrite E1, E2.
  - now rewrite E1.
  - now apply insert_stat_unique.
  - rewrite insert_stat_seq. lia.
  - rewrite insert_stat_rows. destruct (existsb _ (activity_stats d)).
    + rewrite map_map.
      replace (map (fun r => stat_id (updated_stat projectId stat r)) (activity_stats d))
        with (map stat_id (activity_stats d)); [exact Hsi|].
      apply map_ext. intros r. unfold updated_stat.
      now destruct (has_key projectId (s_date stat) r).
    + rewrite map_app. apply NoDup_app; [exact Hsi | repeat constructor; intros [] |].
      intros i Hin [<- | []]. apply in_map_iff in Hin.
      destruct Hin as (r & Hid & Hin). rewrite Forall_forall in Hsr.
      specialize (Hsr r Hin). unfold stat_id_ok in Hsr. simpl in Hid. lia.
  - rewrite insert_stat_seq, insert_stat_rows.
    destruct (existsb _ (activity_stats d)).
    + apply Forall_map. eapply Forall_impl; [|exact Hsr]. intros r Hr0.
      unfold stat_id_ok, updated_stat in *.
      destruct (has_key projectId (s_date stat) r); simpl; lia.
    + apply Forall_app. split.
      * eapply Forall_impl; [|exact Hsr]. unfold stat_id_ok. intros r Hr0. lia.
      * repeat constructor; simpl; lia.
  - rewrite insert_stat_rows. unfold refers. rewrite E1.
    destruct (existsb _ (activity_stats d)).
    + apply Forall_map. eapply Forall_impl; [|exact Href]. intros r Hr0.
      unfold refers, updated_stat in *.
      now destruct (has_key projectId (s_date stat) r).
    + apply Forall_app. split; [exact Href|]. now repeat constructor.
Qed.

Lemma fold_upsert_well_formed (xs : list Project) (d : Database) :
  well_formed d -> well_formed (fold_left upsert_row xs d).
Proof.
  revert d. induction xs as [|x xs IH]; intros d H; simpl; [exact H|].
  apply IH. now apply upsert_row_well_formed.
Qed.

Lemma fold_insert_well_formed (projectId : Z) (stats : list Stat) (d : Database) :
  well_formed d -> In (Some projectId) (map id (projects d)) ->
  well_formed (fold_left (insert_stat projectId) stats d).
Proof.
  revert d. induction stats as [|s stats IH]; intros d H Hin; simpl; [exact H|].
  apply IH; [now apply insert_stat_well_formed|].
  now rewrite (proj1 (insert_stat_projects projectId s d)).
Qed.

Lemma empty_database_well_formed : well_formed empty_database.
Proof. constructor; simpl; try constructor; try lia. Qed.

(** X6.  The two writers of [src/db.ts] keep the store well formed: paths and
    ids of projects unique, ids within the sequence, no empty string in
    the five columns that are bound through [|| null] ([tech_stack] is
    not one of them and may hold one), one row of activity per project
    and day, and every row of activity referring to a project that is
    there.  For
    [insertActivityStats] the project id must be that of a stored
    project: the function does not check it. *)
Theorem store_writers_keep_well_formed (st : State) :
  well_formed (db st) ->
  (forall project, well_formed (db (snd (upsertProject project st))))
  /\ (forall projectId stats,
        In (Some projectId) (map id (projects (db st))) ->
        well_formed (db (snd (insertActivityStats projectId stats st)))).
Proof.
  intros H. split.
  - intros project. now apply upsert_row_well_formed.
  - intros projectId stats Hin. now apply fold_insert_well_formed.
Qed.

Lemma store_writers_keep_well_formed_witness :
  well_formed (db (snd (upsertProject raw_project initial_state)))
  /\ well_formed
       (db (snd (insertActivityStats 1 [{| s_date := "2024-01-02"; s_count := 3 |}]
                   (snd (upsertProject raw_project initial_state))))).
Proof.
  destruct (store_writers_keep_well_formed initial_state empty_database_well_formed)
    as [H1 _].
  split; [apply H1|].
  destruct (store_writers_keep_well_formed
              (snd (upsertProject raw_project initial_state)) (H1 raw_project))
    as [_ H2].
  apply H2. simpl. now left.
Defined.

(** ** The aggregator at the edges *)

Section GitActivityAlways.

Context (env : Env) (dirPath : string).

Lemma getGitActivity_cases :
  exists r lines,
    (forall st, getGitActivity env dirPath st = (inr r, appended lines st))
    /\ (lines = [] \/ lines = [git_activity_failure_line dirPath])
    /\ (access env (path_join env dirPath ".git") = false ->
        r = (None, []) /\ lines = [])
    /\ (access env (path_join env dirPath ".git") = true ->
        exec env dirPath git_log_30_days = None ->
        r = (None, []) /\ lines = [git_activity_failure_line dirPath])
    /\ (forall stdout,
          access env (path_join env dirPath ".git") = true ->
          exec env dirPath git_log_30_days = Some stdout ->
          lines = []
          /\ (log_lines stdout = [] -> r = (last_commit_date env dirPath, []))
          /\ (log_lines stdout <> [] ->
              snd r = histogram (log_lines stdout)
              /\ fst r = option_map s_date (hd_error (histogram (log_lines stdout))))).
Proof.
  assert (Hnil : forall st : State, st = appended [] st).
  { intros [d l t]. unfold appended. simpl. now rewrite app_nil_r. }
  unfold getGitActivity, try_catch, bind, execAsync.
  destruct (access env (path_join env dirPath ".git")).
  2:{ exists (None, []), []. split; [intros st; now rewrite <- Hnil|].
      split; [now left|]. split; [easy|]. split; [discriminate|].
      intros stdout H. discriminate H. }
  change (negb true) with false. cbv iota.
  destruct (exec env dirPath git_log_30_days) as [stdout|].
  2:{ exists (None, []), [git_activity_failure_line dirPath].
      split; [intros st; reflexivity|]. split; [now right|].
      split; [discriminate|]. split; [easy|]. intros stdout _ H. discriminate H. }
  cbv beta iota delta [ret]. fold (log_lines stdout).
  destruct (log_lines stdout) as [|l0 ls] eqn:El.
  - cbn [length Nat.ltb Nat.leb]. unfold last_commit_date, throw.
    destruct (exec env dirPath git_log_last) as [lastCommit|].
    + eexists _, []. split; [intros st; rewrite <- Hnil; reflexivity|].
      split; [now left|]. split; [discriminate|]. split; [discriminate|].
      intros stdout' _ [= <-]. rewrite El. split; [reflexivity|].
      split; [reflexivity | intros H; now contradiction H].
    + eexists _, []. split; [intros st; rewrite <- Hnil; reflexivity|].
      split; [now left|]. split; [discriminate|]. split; [discriminate|].
      intros stdout' _ [= <-]. rewrite El. split; [reflexivity|].
      split; [reflexivity | intros H; now contradiction H].
  - assert (Hne : l0 :: ls <> []) by discriminate.
    destruct (histogram_nonempty _ Hne) as (first & rest & Hh).
    change ((0 <? length (l0 :: ls))%nat) with true. cbv iota. rewrite Hh.
    eexists _, []. split; [intros st; rewrite <- Hnil; reflexivity|].
    split; [now left|]. split; [discriminate|]. split; [discriminate|].
    intros stdout' _ [= <-]. rewrite El, Hh. split; [reflexivity|].
    split; [discriminate | intros _; now split].
Qed.

(** X7.  The edges of [getGitActivity]: without a [.git] nothing is run and
    nothing is reported; when the log cannot be read, one line is logged
    and nothing is reported; when the window of 30 days is empty, no
    count is reported and the date is that of the last commit ever, if
    the second query gives one.  In every case the call returns normally
    and leaves the store and the clock alone. *)
Theorem getGitActivity_edges (st : State) :
  (access env (path_join env dirPath ".git") = false ->
   getGitActivity env dirPath st = (inr (None, []), st))
  /\ (access env (path_join env dirPath ".git") = true ->
      exec env dirPath git_log_30_days = None ->
      getGitActivity env dirPath st
      = (inr (None, []), logged (git_activity_failure_line dirPath) st))
  /\ (forall stdout,
        access env (path_join env dirPath ".git") = true ->
        exec env dirPath git_log_30_days = Some stdout ->
        log_lines stdout = [] ->
        getGitActivity env dirPath st
        = (inr (last_commit_date env dirPath, []), st))
  /\ (exists r st',
        getGitActivity env dirPath st = (inr r, st')
        /\ db st' = db st /\ ticks st' = ticks st).
Proof.
  assert (Hnil : forall s : State, appended [] s = s).
  { intros [d l t]. unfold appended. simpl. now rewrite app_nil_r. }
  destruct getGitActivity_cases as (r & lines & H & _ & H1 & H2 & H3).
  rewrite H. split; [|split; [|split]].
  - intros Ha. destruct (H1 Ha) as [-> ->]. now rewrite Hnil.
  - intros Ha He. destruct (H2 Ha He) as [-> ->]. reflexivity.
  - intros stdout Ha He Hl. destruct (H3 stdout Ha He) as (-> & Hr & _).
    now rewrite (Hr Hl), Hnil.
  - now exists r, (appended lines st).
Qed.

End GitActivityAlways.

(** ** What the histogram adds up to *)

Lemma sum_snd_Map_set_bump (m : JsMap) (d : string) :
  fold_right Z.add 0%Z (map snd (bump m d))
  = (fold_right Z.add 0%Z (map snd m) + 1)%Z.
Proof.
  unfold bump.
  assert (H : forall m0 v,
            fold_right Z.add 0%Z (map snd (Map_set m0 d (get0 m0 d + v)))
            = (fold_right Z.add 0%Z (map snd m0) + v)%Z).
  { induction m0 as [|[k c] m0 IH]; intros v.
    - unfold get0. simpl. lia.
    - unfold get0. simpl. destruct (String.eqb_spec k d) as [->|Hk].
      + simpl. lia.
      + simpl. fold (get0 m0 d). rewrite IH. lia. }
  replace (match Map_get m d with
           | Some v => if (v =? 0)%Z then 0%Z else v
           | None => 0%Z
           end) with (get0 m d); [apply H|].
  unfold get0. destruct (Map_get m d) as [v|]; [|reflexivity].
  destruct (Z.eqb_spec v 0); congruence.
Qed.

Lemma sum_snd_fold_bump (lines : list string) (m : JsMap) :
  fold_right Z.add 0%Z (map snd (fold_left bump lines m))
  = (fold_right Z.add 0%Z (map snd m) + Z.of_nat (length lines))%Z.
Proof.
  revert m. induction lines as [|l lines IH]; intros m.
  - simpl. lia.
  - cbn [fold_left length]. rewrite IH, sum_snd_Map_set_bump. lia.
Qed.

Lemma sum_permutation (l l' : list Z) :
  Permutation l l' -> fold_right Z.add 0%Z l = fold_right Z.add 0%Z l'.
Proof. induction 1; simpl; lia. Qed.

Lemma histogram_sum (lines : list string) :
  sum_counts (histogram lines) = Z.of_nat (length lines).
Proof.
  unfold sum_counts. rewrite histogram_unfold.
  rewrite (sum_permutation _ (map s_count (map to_stat (fold_left bump lines [])))).
  - rewrite map_map.
    replace (map (fun x => s_count (to_stat x)) (fold_left bump lines []))
      with (map snd (fold_left bump lines []));
      [now rewrite sum_snd_fold_bump | apply map_ext; now intros [d c]].
  - apply Permutation_map, sort_by_perm.
Qed.

Lemma histogram_counts_positive (lines : list string) :
  Forall (fun s => (1 <= s_count s)%Z) (histogram lines).
Proof.
  apply Forall_forall. intros s Hs. apply histogram_In in Hs.
  destruct Hs as [Hin ->]. unfold occurrences.
  apply (count_occ_In string_dec) in Hin. lia.
Qed.

Lemma sorted_nodup_strict {A} (R S : A -> A -> Prop) (l : list A) :
  (forall a b, In a l -> In b l -> R a b -> a <> b -> S a b) ->
  StronglySorted R l -> NoDup l -> StronglySorted S l.
Proof.
  intros H Hs. induction Hs as [|a l Hs IH Ha]; intros Hn; constructor.
  - apply IH; [|now inversion Hn].
    intros x y Hx Hy. apply H; now right.
  - inversion Hn as [|? ? Hna _]; subst. rewrite Forall_forall in *.
    intros b Hb. apply H; [now left | now right | now apply Ha |].
    intros ->. contradiction.
Qed.

Lemma histogram_strictly_sorted (lines : list string) :
  StronglySorted later_day (histogram lines).
Proof.
  apply (sorted_nodup_strict (may_precede by_date_desc)).
  - intros a b Ha Hb Hab Hne. apply by_date_desc_precede in Hab.
    unfold later_day, String.ltb. unfold String.leb in Hab.
    destruct (String.compare (s_date b) (s_date a)) eqn:E;
      [|reflexivity | discriminate].
    apply String.compare_eq_iff in E. exfalso. apply Hne.
    symmetry. now apply (same_date_same_stat lines).
  - apply histogram_sorted.
  - eapply NoDup_of_map, histogram_dates_nodup.
Qed.

(** X8.  Whatever [getGitActivity] reports: the days are in strictly
    descending order, every count is at least 1, the counts add up to the
    number of lines of the log that were kept, the date is that of the
    first entry, and counts are never reported without a date. *)
Theorem getGitActivity_report (env : Env) (dirPath : string) (st st' : State)
        (lastActivity : option string) (stats : list Stat) :
  getGitActivity env dirPath st = (inr (lastActivity, stats), st') ->
  StronglySorted later_day stats
  /\ Forall (fun s => (1 <= s_count s)%Z) stats
  /\ (stats <> [] ->
      lastActivity = option_map s_date (hd_error stats)
      /\ exists stdout,
           exec env dirPath git_log_30_days = Some stdout
           /\ sum_counts stats = Z.of_nat (length (log_lines stdout)))
  /\ (lastActivity = None -> stats = []).
Proof.
  destruct (getGitActivity_cases env dirPath) as (r & lines & H & _ & H1 & H2 & H3).
  rewrite H. intros [= -> _].
  destruct (access env (path_join env dirPath ".git")) eqn:Ha.
  2:{ destruct (H1 eq_refl) as [[= -> ->] _].
      repeat split; try constructor; try easy. }
  destruct (exec env dirPath git_log_30_days) as [stdout|] eqn:He.
  2:{ destruct (H2 eq_refl eq_refl) as [[= -> ->] _].
      repeat split; try constructor; try easy. }
  destruct (H3 stdout eq_refl eq_refl) as (_ & Hempty & Hfull).
  destruct (log_lines stdout) as [|l0 ls] eqn:El.
  - injection (Hempty eq_refl) as -> ->. repeat split; try constructor; try easy.
  - destruct Hfull as [Hs Hl]; [discriminate|]. simpl in Hs, Hl. subst.
    split; [apply histogram_strictly_sorted|].
    split; [apply histogram_counts_positive|]. split.
    + intros _. split; [reflexivity|]. exists stdout. split; [reflexivity|].
      rewrite El. apply histogram_sum.
    + destruct (histogram_nonempty (l0 :: ls)) as (first & rest & Hh);
        [discriminate|]. rewrite Hh. discriminate.
Qed.

Lemma getGitActivity_report_witness :
  exists stats,
    getGitActivity (repository_env three_commits) "/home/u/p" initial_state
    = (inr (Some "2024-01-02", stats), initial_state)
    /\ StronglySorted later_day stats
    /\ sum_counts stats = 3%Z.
Proof.
  assert (E : getGitActivity (repository_env three_commits) "/home/u/p" initial_state
              = (inr (Some "2024-01-02",
                      [{| s_date := "2024-01-02"; s_count := 1 |};
                       {| s_date := "2024-01-01"; s_count := 2 |}]),
                 initial_state)) by (vm_compute; reflexivity).
  destruct (getGitActivity_report _ _ _ _ _ _ E) as (Hs & _ & _ & _).
  eexists. split; [exact E|]. split; [exact Hs | reflexivity].
Defined.

(** ** The walk when a [stat] fails *)

Lemma visit_bounds (e : FsNode) :
  forall latest,
    match visit e latest with
    | Normal l | Thrown l =>
        (latest <= l)%Z /\ (l = latest \/ In l (node_mtimes e))
    end.
Proof.
  induction e as [n m | n | n | n entries IH] using FsNode_tree_ind; intros latest.
  - simpl. destruct (skip_name n); [split; [lia | now left]|].
    destruct m as [m|]; [|split; [lia | now left]].
    simpl. destruct (Z.gtb_spec m latest);
      [split; [lia | right; now left] | split; [lia | now left]].
  - simpl. destruct (skip_name n); split; try lia; now left.
  - simpl. destruct (skip_name n); split; try lia; now left.
  - rewrite visit_dir. simpl. destruct (skip_name n); [split; [lia | now left]|].
    revert latest. induction IH as [|e es He _ IHes]; intros latest.
    + simpl. split; [lia | now left].
    + simpl. specialize (He latest).
      destruct (visit e latest) as [l | l].
      * destruct He as [H1 H2]. destruct (IHes l) as [H3 H4]. split; [lia|].
        destruct H4 as [-> | H4].
        -- destruct H2 as [-> | H2]; [now left | right; apply in_or_app; now left].
        -- right. apply in_or_app. now right.
      * destruct He as [H1 H2]. split; [exact H1|].
        destruct H2 as [-> | H2]; [now left | right; apply in_or_app; now left].
Qed.

Lemma walk_entries_bounds (entries : list FsNode) (latest : Z) :
  (latest <= walk_entries entries latest)%Z
  /\ (walk_entries entries latest = latest
      \/ In (walk_entries entries latest) (visible_mtimes entries)).
Proof.
  revert latest. induction entries as [|e es IH]; intros latest.
  - simpl. split; [lia | now left].
  - simpl. pose proof (visit_bounds e latest) as He.
    unfold visible_mtimes. simpl.
    destruct (visit e latest) as [l | l].
    + destruct He as [H1 H2]. destruct (IH l) as [H3 H4]. split; [lia|].
      destruct H4 as [-> | H4].
      * destruct H2 as [-> | H2]; [now left | right; apply in_or_app; now left].
      * right. apply in_or_app. now right.
    + destruct He as [H1 H2]. split; [exact H1|].
      destruct H2 as [-> | H2]; [now left | right; apply in_or_app; now left].
Qed.

Lemma walk_entries_stat_failure (pre post : list FsNode) (n : string) (latest : Z) :
  stats_succeed pre = true -> skip_name n = false ->
  walk_entries (pre ++ FileNode n None :: post) latest = walk_entries pre latest.
Proof.
  revert latest. induction pre as [|e pre IH]; intros latest Hok Hn.
  - simpl. now rewrite Hn.
  - simpl in Hok. apply andb_true_iff in Hok. destruct Hok as [He Hpre].
    simpl. rewrite (visit_succeeds e latest He). now apply IH.
Qed.

Lemma newest_not_negative (env : Env) (dirPath : string) :
  (0 <= newest env dirPath)%Z.
Proof.
  unfold newest. destruct (fs_tree env dirPath) as [entries|]; simpl; [|lia].
  apply walk_entries_bounds.
Qed.

(** What [getFileActivity] does, by cases on the newest modification
    time seen: it leaves the state alone also when it throws. *)
Lemma getFileActivity_value (env : Env) (dirPath : string) (st : State) :
  getFileActivity env dirPath st
  = (if (newest env dirPath =? 0)%Z then inr None
     else if (newest env dirPath <=? MAX_TIME_VALUE)%Z
          then inr (Some (toISOString env (newest env dirPath)))
          else inl invalid_time, st).
Proof.
  unfold getFileActivity. fold (newest env dirPath).
  destruct (newest env dirPath =? 0)%Z; [reflexivity|].
  unfold bind, Date_toISOString.
  rewrite (Z.abs_eq _ (newest_not_negative env dirPath)).
  now destruct (newest env dirPath <=? MAX_TIME_VALUE)%Z.
Qed.

(** X9.  What [getFileActivity] reports is never made up: it is the time
    stamp of a modification time after the epoch, and within the range
    of a [Date], of a file that the walk may see (not hidden, not under
    a generated-artifact name, not in an unreadable directory), also
    when some [stat] fails.  The call throws only when such a file has a
    modification time beyond that range, and then a [RangeError].  A failing
    [stat] ends the walk of the directory it occurs in: the entries after
    it in that directory are not looked at, those of the parent are. *)
Theorem getFileActivity_reports_visible_file (env : Env) (dirPath : string)
        (st : State) :
  (exists r, getFileActivity env dirPath st = (r, st)
             /\ (forall text, r = inr (Some text) ->
                  exists entries m,
                    fs_tree env dirPath = Some entries
                    /\ In m (visible_mtimes entries)
                    /\ (0 < m <= MAX_TIME_VALUE)%Z
                    /\ text = toISOString env m)
             /\ (forall e, r = inl e ->
                  e = invalid_time
                  /\ exists entries m,
                       fs_tree env dirPath = Some entries
                       /\ In m (visible_mtimes entries)
                       /\ (MAX_TIME_VALUE < m)%Z))
  /\ (forall pre n post latest,
        stats_succeed pre = true -> skip_name n = false ->
        walk_entries (pre ++ FileNode n None :: post) latest
        = walk_entries pre latest)
  /\ (forall d pre n post siblings latest,
        stats_succeed pre = true -> skip_name n = false -> skip_name d = false ->
        walk_entries (DirNode d (Some (pre ++ FileNode n None :: post)) :: siblings)
                     latest
        = walk_entries siblings (walk_entries pre latest)).
Proof.
  split; [|split].
  - rewrite getFileActivity_value. eexists. split; [reflexivity|].
    assert (Hseen : newest env dirPath <> 0%Z ->
                    exists entries,
                      fs_tree env dirPath = Some entries
                      /\ In (newest env dirPath) (visible_mtimes entries)
                      /\ (0 < newest env dirPath)%Z).
    { unfold newest. intros E.
      destruct (fs_tree env dirPath) as [entries|]; [|now contradiction E].
      simpl in *. destruct (walk_entries_bounds entries 0) as [H1 [H2 | H2]];
        [congruence|].
      exists entries. split; [reflexivity|]. split; [exact H2 | lia]. }
    destruct (Z.eqb_spec (newest env dirPath) 0) as [E | E];
      [split; [discriminate | discriminate]|].
    destruct (Hseen E) as (entries & Ht & Hin & Hpos).
    destruct (Z.leb_spec (newest env dirPath) MAX_TIME_VALUE) as [Hr | Hr].
    + split; [|discriminate]. intros text [= <-].
      exists entries, (newest env dirPath). repeat split; assumption.
    + split; [discriminate|]. intros e [= <-]. split; [reflexivity|].
      exists entries, (newest env dirPath). repeat split; assumption.
  - intros pre n post latest. apply walk_entries_stat_failure.
  - intros d pre n post siblings latest Hok Hn Hd.
    cbn [walk_entries]. rewrite visit_dir, Hd.
    now rewrite walk_entries_stat_failure.
Qed.

Lemma getFileActivity_reports_visible_file_witness :
  walk_entries racing_tree 0 = 1700000000000%Z
  /\ getFileActivity (with_tree (Some racing_tree) blank_env) "/home/u/notes"
                     initial_state
     = (inr (Some "2023-11-14T22:13:20.000Z"), initial_state)
  /\ getFileActivity (with_tree (Some far_future_tree) blank_env) "/home/u/notes"
                     initial_state
     = (inl invalid_time, initial_state).
Proof.
  destruct (getFileActivity_reports_visible_file
              (with_tree (Some racing_tree) blank_env) "/home/u/notes" initial_state)
    as (_ & _ & H).
  assert (E : walk_entries racing_tree 0 = 1700000000000%Z).
  { etransitivity;
      [exact (H "src" [FileNode "a.txt" (Some 1600000000000%Z)] "gone.txt"
                [FileNode "b.txt" (Some 1800000000000%Z)]
                [FileNode "c.txt" (Some 1700000000000%Z)] 0%Z
                eq_refl eq_refl eq_refl)
      | reflexivity]. }
  split; [exact E|]. split; reflexivity.
Defined.

(** ** The analysis of a stored project *)

Section Analysis.

Context (env : Env).

Lemma getProjectByPath_value (p : string) (st : State) :
  getProjectByPath p st = (inr (project_at (db st) p), st).
Proof. reflexivity. Qed.

Lemma activity_value (project : Project) (st : State) :
  out_of_range env project = false ->
  exists st',
    (if is_git project
     then getGitActivity env (path project)
     else d <- getFileActivity env (path project) ;; ret (d, [])) st
    = (inr (activity_of env project), st')
    /\ db st' = db st /\ ticks st' = ticks st.
Proof.
  unfold activity_of, out_of_range. destruct (is_git project).
  - intros _.
    destruct (getGitActivity_cases env (path project)) as (r & lines & H & _).
    rewrite (H initial_state), (H st). simpl. eexists. now repeat split.
  - cbn [negb andb]. intros Hr. unfold bind.
    rewrite !getFileActivity_value.
    destruct (newest env (path project) =? 0)%Z;
      [exists st; now repeat split|].
    apply Z.ltb_ge in Hr. apply Z.leb_le in Hr. rewrite Hr.
    exists st. now repeat split.
Qed.

Lemma activity_throws (project : Project) (st : State) :
  out_of_range env project = true ->
  (if is_git project
   then getGitActivity env (path project)
   else d <- getFileActivity env (path project) ;; ret (d, [])) st
  = (inl invalid_time, st).
Proof.
  unfold out_of_range. destruct (is_git project); [discriminate|].
  cbn [negb andb]. intros Hr. unfold bind. rewrite getFileActivity_value.
  apply Z.ltb_lt in Hr.
  destruct (Z.eqb_spec (newest env (path project)) 0) as [E|_];
    [unfold MAX_TIME_VALUE in Hr; lia|].
  destruct (Z.leb_spec (newest env (path project)) MAX_TIME_VALUE); [lia|].
  reflexivity.
Qed.

Lemma analyzeProjectActivity_throws (projectPath : string) (st : State)
      (project : Project) :
  project_at (db st) projectPath = Some project ->
  out_of_range env project = true ->
  analyzeProjectActivity env projectPath st = (inl invalid_time, st).
Proof.
  intros Hf Hr. unfold analyzeProjectActivity.
  rewrite (bind_inr _ (getProjectByPath_value projectPath st)), Hf.
  unfold bind at 1. now rewrite (activity_throws project st Hr).
Qed.

Lemma analyzeProjectActivity_found (projectPath : string) (st : State)
      (project : Project) :
  project_at (db st) projectPath = Some project ->
  out_of_range env project = false ->
  exists st',
    analyzeProjectActivity env projectPath st = (inr tt, st')
    /\ db st' = analysed env project (db st)
    /\ ticks st' = ticks st.
Proof.
  intros Hf Hr. unfold analyzeProjectActivity.
  rewrite (bind_inr _ (getProjectByPath_value projectPath st)), Hf.
  destruct (activity_value project st Hr) as (s1 & E & Hd & Ht).
  rewrite (bind_inr _ E). unfold analysed.
  destruct (activity_of env project) as [lad stats]. cbn [fst snd].
  unfold is_news, upsert_row.
  destruct (or_null lad) as [v|];
    [destruct (match last_activity_date project with
               | Some stored => negb (stored =? v)
               | None => true
               end)|];
    (destruct (id project) as [i|];
     [destruct ((0 <? length stats)%nat && negb (i =? 0)%Z)|]);
    eexists; (split; [reflexivity|]); cbn; rewrite ?Hd, ?Ht; split; reflexivity.
Qed.

Lemma analyzeProjectActivity_not_found (projectPath : string) (st : State) :
  project_at (db st) projectPath = None ->
  analyzeProjectActivity env projectPath st
  = (inr tt, logged (not_found_line projectPath) st).
Proof.
  intros Hf. unfold analyzeProjectActivity.
  now rewrite (bind_inr _ (getProjectByPath_value projectPath st)), Hf.
Qed.

End Analysis.

Lemma unique_path_row (d : Database) (r1 r2 : Project) :
  unique_paths d -> In r1 (projects d) -> In r2 (projects d) ->
  path r1 = path r2 -> r1 = r2.
Proof.
  unfold unique_paths. induction (projects d) as [|row rows IH]; [intros _ []|].
  simpl. intros Hn H1 H2 Hp. inversion Hn as [|? ? Hnot Hn']; subst.
  destruct H1 as [-> | H1], H2 as [-> | H2].
  - reflexivity.
  - exfalso. apply Hnot. rewrite Hp. now apply in_map.
  - exfalso. apply Hnot. rewrite <- Hp. now apply in_map.
  - now apply IH.
Qed.

Lemma project_at_some (d : Database) (p : string) (project : Project) :
  project_at d p = Some project -> In project (projects d) /\ path project = p.
Proof.
  unfold project_at. intros H. apply find_some in H. destruct H as [H1 H2].
  split; [exact H1 | now apply String.eqb_eq].
Qed.

Lemma or_null_some (x : option string) (v : string) :
  or_null x = Some v -> x = Some v /\ v <> "".
Proof.
  destruct x as [[|c s]|]; simpl; try discriminate.
  intros [= <-]. split; [reflexivity | discriminate].
Qed.

Lemma do_update_last_activity (project : Project) (v : string) :
  normalised project -> v <> "" ->
  do_update (bound_parameters (set_last_activity (Some v) project)) project
  = set_last_activity (Some v) project.
Proof.
  unfold normalised, bound_parameters. intros Hn Hv.
  destruct project. cbn in *. injection Hn as H1 H2 H3 H4 H5 H6.
  unfold do_update, set_last_activity. cbn.
  rewrite H1, H2, H3, H4, H5.
  destruct v; [contradiction|]. reflexivity.
Qed.

(** The upsert of the analysis rewrites one column of one row. *)
Lemma upsert_last_activity (d : Database) (project : Project) (v : string) :
  well_formed d -> In project (projects d) -> v <> "" ->
  projects (upsert_row d (set_last_activity (Some v) project))
  = map (fun row => if path row =? path project
                    then set_last_activity (Some v) row else row) (projects d).
Proof.
  intros Hwf Hin Hv.
  destruct (upsert_row_present (set_last_activity (Some v) project) d) as [E1 _].
  { cbn [path set_last_activity]. now apply in_map. }
  rewrite E1. apply map_ext_in. intros row Hrow.
  unfold rewritten_row. cbn [path set_last_activity].
  destruct (String.eqb_spec (path row) (path project)) as [Hp|]; [|reflexivity].
  rewrite (unique_path_row d row project (wf_paths d Hwf) Hrow Hin Hp).
  apply do_update_last_activity; [|exact Hv].
  pose proof (wf_normalised d Hwf) as Hn. rewrite Forall_forall in Hn.
  now apply Hn.
Qed.

Lemma Forall2_map_same {A} (R : A -> A -> Prop) (f : A -> A) (l : list A) :
  (forall a, R a (f a)) -> Forall2 R l (map f l).
Proof. intros H. induction l; simpl; constructor; auto. Qed.


Section AnalysisEffect.

Context (env : Env) (project : Project) (d : Database).

Hypothesis store_ok : well_formed d.
Hypothesis stored : In project (projects d).

Lemma dated_rows :
  exists v', projects (dated env project d)
             = map (fun row => if path row =? path project
                               then set_last_activity v' row else row) (projects d)
             /\ v' = analysed_date env project.
Proof.
  assert (Hsame : projects d
                  = map (fun row => if path row =? path project
                                    then set_last_activity (last_activity_date project) row
                                    else row) (projects d)).
  { transitivity (map (fun x : Project => x) (projects d)); [symmetry; apply map_id|].
    apply map_ext_in. intros row Hrow.
    destruct (String.eqb_spec (path row) (path project)) as [Hp|]; [|reflexivity].
    rewrite (unique_path_row d row project (wf_paths d store_ok) Hrow stored Hp).
    now destruct project. }
  unfold dated, analysed_date. destruct (or_null (fst (activity_of env project))) as [v|] eqn:E.
  - exists (Some v). split; [|reflexivity].
    apply or_null_some in E. destruct E as [_ Hv].
    unfold is_news. destruct (last_activity_date project) as [old|] eqn:Ho.
    + destruct (String.eqb_spec old v) as [->|]; simpl.
      * exact Hsame.
      * now apply upsert_last_activity.
    + now apply upsert_last_activity.
  - exists (last_activity_date project). split; [exact Hsame | reflexivity].
Qed.

Lemma dated_well_formed : well_formed (dated env project d).
Proof.
  unfold dated. destruct (or_null _); [|exact store_ok].
  destruct (is_news project _); [|exact store_ok].
  now apply upsert_row_well_formed.
Qed.

Lemma dated_rest :
  activity_stats (dated env project d) = activity_stats d
  /\ activity_stats_seq (dated env project d) = activity_stats_seq d.
Proof.
  unfold dated. destruct (or_null _) as [v|]; [|now split].
  destruct (is_news project v); [|now split].
  destruct (upsert_row_rest d (set_last_activity (Some v) project)) as (E1 & E2 & _).
  now split.
Qed.

Lemma analysed_unfold :
  exists i, id project = Some i /\ (0 < i)%Z
            /\ analysed env project d
               = fold_left (insert_stat i) (snd (activity_of env project))
                           (dated env project d).
Proof.
  pose proof (wf_id_range d store_ok) as Hr. rewrite Forall_forall in Hr.
  destruct (Hr project stored) as (i & Hi & Hrange).
  exists i. split; [exact Hi|]. split; [lia|].
  unfold analysed. fold (dated env project d). rewrite Hi.
  destruct (Z.eqb_spec i 0) as [|_]; [lia|]. rewrite andb_true_r.
  now destruct (snd (activity_of env project)).
Qed.

End AnalysisEffect.

Section AnalysisTheorems.

Context (env : Env).

Lemma map_id_touched (p : string) (v : option string) (rows : list Project) :
  map id (map (fun row => if path row =? p
                          then set_last_activity v row else row) rows)
  = map id rows.
Proof.
  rewrite map_map. apply map_ext. intros row. now destruct (path row =? p).
Qed.

Lemma analysed_rows (project : Project) (d : Database) :
  well_formed d -> In project (projects d) ->
  projects (analysed env project d)
  = map (fun row => if path row =? path project
                    then set_last_activity (analysed_date env project) row
                    else row) (projects d).
Proof.
  intros Hwf Hin.
  destruct (analysed_unfold env project d Hwf Hin) as (i & _ & _ & ->).
  destruct (fold_insert_projects i (snd (activity_of env project))
                                 (dated env project d)) as [-> _].
  destruct (dated_rows env project d Hwf Hin) as (v' & E & ->).
  exact E.
Qed.

Lemma analysed_counts (project : Project) (d : Database) (i : Z) :
  well_formed d -> In project (projects d) -> id project = Some i ->
  forall pid day,
    stored_count (analysed env project d) pid day
    = if (pid =? i)%Z
      then match produced_count (snd (activity_of env project)) day with
           | Some c => Some c
           | None => stored_count d pid day
           end
      else stored_count d pid day.
Proof.
  intros Hwf Hin Hi pid day.
  destruct (analysed_unfold env project d Hwf Hin) as (j & Hj & _ & ->).
  assert (j = i) by congruence. subst j.
  rewrite insert_all_stored.
  assert (E : stored_count (dated env project d) pid day = stored_count d pid day).
  { unfold stored_count.
    now rewrite (proj1 (dated_rest env project d)). }
  now rewrite E.
Qed.

Lemma analysed_well_formed (project : Project) (d : Database) :
  well_formed d -> In project (projects d) ->
  well_formed (analysed env project d).
Proof.
  intros Hwf Hin.
  destruct (analysed_unfold env project d Hwf Hin) as (i & Hi & _ & ->).
  apply fold_insert_well_formed.
  - now apply dated_well_formed.
  - destruct (dated_rows env project d Hwf Hin) as (v' & -> & _).
    rewrite map_id_touched, <- Hi. now apply in_map.
Qed.


Lemma project_at_analysed (project : Project) (d : Database) :
  well_formed d -> In project (projects d) ->
  project_at (analysed env project d) (path project)
  = Some (set_last_activity (analysed_date env project) project).
Proof.
  intros Hwf Hin. unfold project_at.
  rewrite (analysed_rows project d Hwf Hin).
  rewrite find_map_keeping.
  - assert (F : find (fun row => path row =? path project) (projects d)
                = Some project).
    { destruct (find (fun row => path row =? path project) (projects d))
        as [row|] eqn:F.
      - apply find_some in F. destruct F as [F1 F2].
        apply String.eqb_eq in F2.
        now rewrite (unique_path_row d row project (wf_paths d Hwf) F1 Hin F2).
      - exfalso. apply (find_none _ _ F) in Hin.
        now rewrite String.eqb_refl in Hin. }
    rewrite F. simpl. now rewrite String.eqb_refl.
  - intros row. cbv beta.
    destruct (path row =? path project) eqn:E; [|exact E].
    cbn [path set_last_activity]. exact E.
Qed.


(** A second analysis changes nothing in the rows: the date is not news
    and the counts are those that are there. *)
Lemma analysed_twice (project : Project) (d : Database) :
  projects (analysed env (set_last_activity (analysed_date env project) project)
                     (analysed env project d))
  = projects (analysed env project d)
  /\ activity_stats
       (analysed env (set_last_activity (analysed_date env project) project)
                 (analysed env project d))
     = activity_stats (analysed env project d).
Proof.
  set (project' := set_last_activity (analysed_date env project) project).
  assert (Hd : forall d', dated env project' d' = d').
  { intros d'. unfold dated.
    change (activity_of env project') with (activity_of env project).
    unfold project', analysed_date, is_news.
    destruct (or_null (fst (activity_of env project))) as [v|]; [|reflexivity].
    cbn [last_activity_date set_last_activity].
    now rewrite String.eqb_refl. }
  assert (Hsecond : forall d',
            analysed env project' d'
            = match id project with
              | Some projectId =>
                  if (0 <? length (snd (activity_of env project)))%nat
                     && negb (projectId =? 0)%Z
                  then fold_left (insert_stat projectId)
                                 (snd (activity_of env project)) d'
                  else d'
              | None => d'
              end).
  { intros d'. unfold analysed. fold (dated env project' d'). rewrite Hd.
    reflexivity. }
  rewrite Hsecond. unfold analysed. fold (dated env project d).
  destruct (id project) as [i|]; [|now split].
  destruct ((0 <? length (snd (activity_of env project)))%nat
            && negb (i =? 0)%Z); [|now split].
  split; [|apply fold_insert_idempotent].
  now rewrite !(proj1 (fold_insert_projects i _ _)).
Qed.

(** X10.  What the analysis of a stored project does to the store.  When
    the project is not a repository and the newest file the walk sees
    lies beyond the range of a [Date], the call throws a [RangeError]
    and nothing is written.  Otherwise it returns; one column of one row
    of [projects] is written, and it is never cleared; the counts of the
    project's own days are replaced by those found, all other counts
    stay; the store stays well formed. *)
Theorem analyzeProjectActivity_effect (projectPath : string) (st : State)
        (project : Project) :
  well_formed (db st) ->
  project_at (db st) projectPath = Some project ->
  (out_of_range env project = true ->
   analyzeProjectActivity env projectPath st = (inl invalid_time, st))
  /\ (out_of_range env project = false ->
      exists st' i,
        analyzeProjectActivity env projectPath st = (inr tt, st')
        /\ id project = Some i
        /\ projects (db st')
           = map (fun row => if path row =? projectPath
                             then set_last_activity (analysed_date env project) row
                             else row) (projects (db st))
        /\ (last_activity_date project <> None ->
            analysed_date env project <> None)
        /\ (forall pid day,
              stored_count (db st') pid day
              = if (pid =? i)%Z
                then match produced_count (snd (activity_of env project)) day with
                     | Some c => Some c
                     | None => stored_count (db st) pid day
                     end
                else stored_count (db st) pid day)
        /\ well_formed (db st')).
Proof.
  intros Hwf Hf. split; [now apply analyzeProjectActivity_throws|]. intros Hr.
  destruct (project_at_some _ _ _ Hf) as [Hin Hp].
  destruct (analyzeProjectActivity_found env projectPath st project Hf Hr)
    as (st' & E & Hd & _).
  pose proof (wf_id_range _ Hwf) as Hrange. rewrite Forall_forall in Hrange.
  destruct (Hrange project Hin) as (i & Hi & _).
  exists st', i. split; [exact E|]. split; [exact Hi|]. rewrite Hd.
  split; [|split; [|split]].
  - rewrite <- Hp. now apply analysed_rows.
  - unfold analysed_date. now destruct (or_null _).
  - now apply analysed_counts.
  - now apply analysed_well_formed.
Qed.

(** X11.  Analysing a project a second time changes nothing in the rows of
    the two tables, whether the analysis returns or throws.  (The
    sequence of [activity_stats] does move: the counts are inserted
    again and each insert takes a value.) *)
Theorem analyzeProjectActivity_idempotent (projectPath : string) (st : State) :
  well_formed (db st) ->
  let once := db (snd (analyzeProjectActivity env projectPath st)) in
  let twice :=
    db (snd (analyzeProjectActivity env projectPath
               (snd (analyzeProjectActivity env projectPath st)))) in
  projects twice = projects once
  /\ activity_stats twice = activity_stats once.
Proof.
  intros Hwf. cbv zeta.
  destruct (project_at (db st) projectPath) as [project|] eqn:Hf.
  - destruct (out_of_range env project) eqn:Hr.
    + rewrite (analyzeProjectActivity_throws env projectPath st project Hf Hr).
      cbn [snd].
      rewrite (analyzeProjectActivity_throws env projectPath st project Hf Hr).
      now split.
    + destruct (project_at_some _ _ _ Hf) as [Hin Hp].
      destruct (analyzeProjectActivity_found env projectPath st project Hf Hr)
        as (st1 & E1 & Hd1 & _).
      rewrite E1. cbn [snd].
      assert (Hf1 : project_at (db st1) projectPath
                    = Some (set_last_activity (analysed_date env project) project)).
      { rewrite Hd1, <- Hp. now apply project_at_analysed. }
      destruct (analyzeProjectActivity_found env projectPath st1 _ Hf1 Hr)
        as (st2 & E2 & Hd2 & _).
      rewrite E2. cbn [snd]. rewrite Hd2, Hd1. apply analysed_twice.
  - rewrite (analyzeProjectActivity_not_found env projectPath st Hf). cbn [snd].
    rewrite analyzeProjectActivity_not_found; [now split | exact Hf].
Qed.

End AnalysisTheorems.

Section AnalyseMany.

Context (env : Env).

Lemma analysed_row_idempotent (row : Project) :
  analysed_row env (analysed_row env row) = analysed_row env row.
Proof.
  unfold analysed_row, analysed_date.
  change (activity_of env (set_last_activity _ row)) with (activity_of env row).
  destruct (or_null (fst (activity_of env row))); reflexivity.
Qed.


Lemma analysed_row_refreshed (row : Project) :
  date_refreshed row (analysed_row env row).
Proof.
  split; [reflexivity|].
  unfold analysed_row, analysed_date. cbn [last_activity_date set_last_activity].
  now destruct (or_null (fst (activity_of env row))).
Qed.

Lemma analysed_rows_at_refreshed (paths : list string) (rows : list Project) :
  Forall2 date_refreshed rows (analysed_rows_at env paths rows).
Proof.
  apply Forall2_map_same. intros row.
  destruct (existsb (String.eqb (path row)) paths);
    [apply analysed_row_refreshed | now split].
Qed.

Lemma date_refreshed_refl (rows : list Project) :
  Forall2 date_refreshed rows rows.
Proof. induction rows; constructor; [now split | assumption]. Qed.

Lemma date_refreshed_trans (l1 l2 l3 : list Project) :
  Forall2 date_refreshed l1 l2 -> Forall2 date_refreshed l2 l3 ->
  Forall2 date_refreshed l1 l3.
Proof.
  intros H. revert l3. induction H as [|a b l1 l2 [Hab Hd] _ IH]; intros l3 H23.
  - inversion H23. constructor.
  - inversion H23 as [|b' c l2' l3' [Hbc Hd'] H23']; subst.
    constructor; [|now apply IH].
    split; [unfold same_but_last_activity in *; congruence | auto].
Qed.

Lemma existsb_pointwise {A} (f g : A -> bool) (l : list A) :
  (forall a, f a = g a) -> existsb f l = existsb g l.
Proof. intros H. induction l as [|a l IH]; simpl; [reflexivity | now rewrite H, IH]. Qed.

Lemma existsb_permutation {A} (f : A -> bool) (l l' : list A) :
  Permutation l l' -> existsb f l = existsb f l'.
Proof.
  induction 1 as [|a l l' _ IH | a b l | l1 l2 l3 _ IH1 _ IH2]; simpl.
  - reflexivity.
  - now rewrite IH.
  - now destruct (f a), (f b).
  - congruence.
Qed.

(** Whether the analysis at a path throws does not depend on analyses
    made before. *)
Lemma throws_at_analysed (d d' : Database) (paths : list string) (q : string) :
  projects d' = analysed_rows_at env paths (projects d) ->
  throws_at env d' q = throws_at env d q.
Proof.
  intros H. unfold throws_at, project_at. rewrite H. unfold analysed_rows_at.
  rewrite find_map_keeping.
  - destruct (find (fun row => path row =? q) (projects d)) as [row|];
      [|reflexivity].
    simpl. now destruct (existsb (String.eqb (path row)) paths).
  - intros row. now destruct (existsb (String.eqb (path row)) paths).
Qed.

(** One analysis, for any path. *)
Lemma analyzeProjectActivity_throws_at (p : string) (st : State) :
  throws_at env (db st) p = true ->
  analyzeProjectActivity env p st = (inl invalid_time, st).
Proof.
  unfold throws_at. destruct (project_at (db st) p) as [project|] eqn:Hf;
    [|discriminate].
  now apply analyzeProjectActivity_throws.
Qed.

Lemma analyzeProjectActivity_rows (p : string) (st : State) :
  well_formed (db st) ->
  throws_at env (db st) p = false ->
  exists st',
    analyzeProjectActivity env p st = (inr tt, st')
    /\ projects (db st') = analysed_rows_at env [p] (projects (db st))
    /\ well_formed (db st')
    /\ ticks st' = ticks st.
Proof.
  intros Hwf Hr. unfold analysed_rows_at. unfold throws_at in Hr.
  destruct (project_at (db st) p) as [project|] eqn:Hf.
  - destruct (project_at_some _ _ _ Hf) as [Hin Hp].
    destruct (analyzeProjectActivity_found env p st project Hf Hr)
      as (st' & E & Hd & Ht).
    exists st'. split; [exact E|]. rewrite Hd.
    split; [|split; [now apply analysed_well_formed | exact Ht]].
    rewrite (analysed_rows env project (db st) Hwf Hin).
    apply map_ext_in. intros row Hrow. cbn [existsb].
    rewrite orb_false_r, Hp.
    destruct (String.eqb_spec (path row) p) as [Hrp|]; [|reflexivity].
    now rewrite (unique_path_row (db st) row project (wf_paths _ Hwf) Hrow Hin)
      by congruence.
  - rewrite (analyzeProjectActivity_not_found env p st Hf).
    eexists. split; [reflexivity|].
    change (db (logged (not_found_line p) st)) with (db st).
    change (ticks (logged (not_found_line p) st)) with (ticks st).
    split; [|split; [exact Hwf | reflexivity]].
    transitivity (map (fun x : Project => x) (projects (db st)));
      [symmetry; apply map_id|].
    apply map_ext_in. intros row Hrow. cbn [existsb]. rewrite orb_false_r.
    destruct (String.eqb_spec (path row) p) as [Hrp|]; [|reflexivity].
    exfalso. unfold project_at in Hf. apply (find_none _ _ Hf) in Hrow.
    apply String.eqb_eq in Hrp. congruence.
Qed.

Lemma analyze_each_rows (paths : list string) :
  forall st,
  well_formed (db st) ->
  existsb (throws_at env (db st)) paths = false ->
  exists st',
    analyze_each env paths st = (inr tt, st')
    /\ projects (db st') = analysed_rows_at env paths (projects (db st))
    /\ well_formed (db st')
    /\ ticks st' = ticks st.
Proof.
  induction paths as [|p rest IH]; intros st Hwf Hr.
  - exists st. split; [reflexivity|]. unfold analysed_rows_at. cbn [existsb].
    split; [|split; [exact Hwf | reflexivity]].
    symmetry. transitivity (map (fun x : Project => x) (projects (db st)));
      [reflexivity | apply map_id].
  - cbn [existsb] in Hr. apply orb_false_iff in Hr. destruct Hr as [Hp Hrest].
    destruct (analyzeProjectActivity_rows p st Hwf Hp)
      as (st1 & E1 & R1 & W1 & T1).
    assert (Hrest1 : existsb (throws_at env (db st1)) rest = false).
    { rewrite <- Hrest. apply existsb_pointwise. intros q.
      now apply (throws_at_analysed _ _ [p]). }
    destruct (IH st1 W1 Hrest1) as (st2 & E2 & R2 & W2 & T2).
    exists st2. cbn [analyze_each]. rewrite (bind_inr _ E1).
    split; [exact E2|].
    split; [|split; [exact W2 | congruence]].
    rewrite R2, R1. unfold analysed_rows_at. rewrite map_map.
    apply map_ext. intros row. cbn [existsb]. rewrite orb_false_r.
    destruct (path row =? p) eqn:Hrp.
    + cbn [orb]. unfold analysed_row at 1 2. cbn [path set_last_activity].
      fold (analysed_row env row).
      destruct (existsb (String.eqb (path row)) rest);
        [apply analysed_row_idempotent | reflexivity].
    + reflexivity.
Qed.

(** The loop ends at the first analysis that throws. *)
Lemma analyze_each_throws (paths : list string) :
  forall st,
  well_formed (db st) ->
  existsb (throws_at env (db st)) paths = true ->
  exists st',
    analyze_each env paths st = (inl invalid_time, st')
    /\ Forall2 date_refreshed (projects (db st)) (projects (db st'))
    /\ well_formed (db st')
    /\ ticks st' = ticks st.
Proof.
  induction paths as [|p rest IH]; intros st Hwf Hr; [discriminate|].
  cbn [existsb] in Hr. cbn [analyze_each].
  destruct (throws_at env (db st) p) eqn:Hp.
  - exists st. unfold bind at 1.
    rewrite (analyzeProjectActivity_throws_at p st Hp).
    split; [reflexivity|].
    split; [apply date_refreshed_refl | split; [exact Hwf | reflexivity]].
  - cbn [orb] in Hr.
    destruct (analyzeProjectActivity_rows p st Hwf Hp)
      as (st1 & E1 & R1 & W1 & T1).
    assert (Hrest1 : existsb (throws_at env (db st1)) rest = true).
    { rewrite <- Hr. apply existsb_pointwise. intros q.
      now apply (throws_at_analysed _ _ [p]). }
    destruct (IH st1 W1 Hrest1) as (st2 & E2 & R2 & W2 & T2).
    exists st2. rewrite (bind_inr _ E1).
    split; [exact E2|].
    split; [|split; [exact W2 | congruence]].
    eapply date_refreshed_trans; [|exact R2].
    rewrite R1. apply analysed_rows_at_refreshed.
Qed.

Lemma analysed_rows_at_all (rows : list Project) :
  analysed_rows_at env (map path rows) rows = map (analysed_row env) rows.
Proof.
  unfold analysed_rows_at. apply map_ext_in. intros row Hrow.
  assert (E : existsb (String.eqb (path row)) (map path rows) = true).
  { apply existsb_exists. exists (path row).
    split; [now apply in_map | apply String.eqb_refl]. }
  now rewrite E.
Qed.

Lemma analysed_rows_at_permutation (paths paths' : list string)
      (rows : list Project) :
  Permutation paths paths' ->
  analysed_rows_at env paths rows = analysed_rows_at env paths' rows.
Proof.
  intros H. unfold analysed_rows_at. apply map_ext. intros row.
  now rewrite (existsb_permutation _ _ _ H).
Qed.

(** X12.  The handler of [analyze_project_activity], on a well formed
    store.  It throws exactly when one of the projects it is to analyse
    is not a repository and has its newest file beyond the range of a
    [Date], and then a [RangeError]; otherwise it answers with its text
    and the rows of the projects it was to analyse carry the date found
    for them, where one is found: all rows when no path is given.
    Whether it returns or throws, it leaves every row of [projects] in
    place and writes no column but [last_activity_date], which it never
    clears, and the store stays well formed. *)
Theorem analyze_project_activity_effect (project_path : option string)
        (st : State) :
  well_formed (db st) ->
  exists r st',
    analyze_project_activity env project_path st = (r, st')
    /\ Forall2 date_refreshed (projects (db st)) (projects (db st'))
    /\ well_formed (db st')
    /\ (existsb (throws_at env (db st)) (targets project_path (db st)) = true ->
        r = inl invalid_time)
    /\ (existsb (throws_at env (db st)) (targets project_path (db st)) = false ->
        r = inr (analysis_answer project_path (db st))
        /\ projects (db st')
           = analysed_rows_at env (targets project_path (db st))
                              (projects (db st))
        /\ (or_null project_path = None ->
            projects (db st') = map (analysed_row env) (projects (db st)))).
Proof.
  intros Hwf. unfold analyze_project_activity, targets, analysis_answer.
  destruct (or_null project_path) as [p|].
  - cbn [existsb]. rewrite orb_false_r.
    destruct (throws_at env (db st) p) eqn:Hp.
    + exists (inl invalid_time), st. unfold bind at 1.
      rewrite (analyzeProjectActivity_throws_at p st Hp).
      split; [reflexivity|]. split; [apply date_refreshed_refl|].
      split; [exact Hwf|]. split; [reflexivity | discriminate].
    + destruct (analyzeProjectActivity_rows p st Hwf Hp) as (st' & E & R & W & _).
      exists (inr ("Analyzed activity for project at " ++ p)%string), st'.
      rewrite (bind_inr _ E). split; [reflexivity|].
      split; [rewrite R; apply analysed_rows_at_refreshed|].
      split; [exact W|]. split; [discriminate|]. intros _.
      split; [reflexivity|]. split; [exact R | discriminate].
  - assert (Ep : all_paths st
                 = (inr (sort_by String.compare (map path (projects (db st)))), st))
      by reflexivity.
    rewrite (bind_inr _ Ep).
    pose proof (sort_by_perm String.compare (map path (projects (db st)))) as Hperm.
    rewrite <- (existsb_permutation (throws_at env (db st)) _ _ Hperm).
    destruct (existsb (throws_at env (db st))
                      (sort_by String.compare (map path (projects (db st)))))
      eqn:Hr.
    + destruct (analyze_each_throws _ st Hwf Hr) as (st' & E & R & W & _).
      exists (inl invalid_time), st'. unfold bind at 1. rewrite E.
      split; [reflexivity|]. split; [exact R|]. split; [exact W|].
      split; [reflexivity | discriminate].
    + destruct (analyze_each_rows _ st Hwf Hr) as (st' & E & R & W & _).
      rewrite (bind_inr _ E).
      rewrite (analysed_rows_at_permutation _ _ _ Hperm) in R.
      eexists. exists st'. split; [reflexivity|].
      split; [rewrite R; apply analysed_rows_at_refreshed|].
      split; [exact W|]. split; [discriminate|]. intros _.
      split; [now rewrite sort_by_length, length_map|].
      split; [exact R | intros _; rewrite R; apply analysed_rows_at_all].
Qed.

End AnalyseMany.

(** ** What a scan returns and what it leaves in the store *)

Lemma last_with_path_some (p : string) (xs : list Project) (x : Project) :
  last_with_path p xs = Some x -> In x xs /\ path x = p.
Proof.
  induction xs as [|y xs IH]; simpl; [discriminate|].
  destruct (last_with_path p xs) as [z|].
  - intros [= ->]. destruct (IH eq_refl) as [H1 H2]. split; [now right | exact H2].
  - destruct (String.eqb_spec (path y) p) as [Hp|]; [|discriminate].
    intros [= ->]. split; [now left | exact Hp].
Qed.

Lemma last_with_path_present (p : string) (xs : list Project) :
  In p (map path xs) -> exists x, last_with_path p xs = Some x.
Proof.
  induction xs as [|y xs IH]; simpl; [intros []|].
  intros [H|H].
  - destruct (last_with_path p xs) as [z|]; [now exists z|].
    exists y. now rewrite H, String.eqb_refl.
  - destruct (IH H) as (x & ->). now exists x.
Qed.

Lemma last_with_path_absent (p : string) (xs : list Project) :
  ~ In p (map path xs) -> last_with_path p xs = None.
Proof.
  intros H. destruct (last_with_path p xs) as [x|] eqn:E; [|reflexivity].
  apply last_with_path_some in E. destruct E as [E1 E2].
  exfalso. apply H. rewrite <- E2. now apply in_map.
Qed.

Lemma replayed_keeps (xs : list Project) (row : Project) :
  path (replayed xs row) = path row /\ id (replayed xs row) = id row.
Proof.
  unfold replayed. now destruct (last_with_path (path row) xs).
Qed.

(** The rows of the store after a series of upserts: those that were
    there, in place and rewritten, then the rows added. *)
Lemma fold_upsert_rows (xs : list Project) (d : Database) :
  exists added,
    projects (fold_left upsert_row xs d) = map (replayed xs) (projects d) ++ added
    /\ Forall (fun row => In (path row) (map path xs)
                           /\ ~ In (path row) (map path (projects d))) added.
Proof.
  induction xs as [|x xs IH] using rev_ind.
  - exists []. simpl. rewrite app_nil_r. split; [|constructor].
    symmetry. transitivity (map (fun r : Project => r) (projects d));
      [reflexivity | apply map_id].
  - destruct IH as (added & E & Hadded).
    rewrite fold_left_app. cbn [fold_left]. rewrite upsert_row_rows.
    assert (Hold : forall row, path row <> path x ->
                               replayed (xs ++ [x]) row = replayed xs row).
    { intros row Hp. unfold replayed. rewrite last_with_path_snoc.
      destruct (String.eqb_spec (path x) (path row)); [congruence | reflexivity]. }
    assert (Hwiden : Forall (fun row => In (path row) (map path (xs ++ [x]))
                                        /\ ~ In (path row) (map path (projects d)))
                            added).
    { eapply Forall_impl; [|exact Hadded]. intros row [Hrow Hnew].
      split; [|exact Hnew]. rewrite map_app. apply in_or_app. now left. }
    destruct (existsb (fun row => path row =? path x)
                      (projects (fold_left upsert_row xs d))) eqn:Ex.
    + exists (map (rewritten_row x) added). rewrite E, map_app, map_map. split.
      * f_equal. apply map_ext. intros row. unfold rewritten_row.
        rewrite (proj1 (replayed_keeps xs row)).
        destruct (String.eqb_spec (path row) (path x)) as [Hp|Hp].
        -- unfold replayed at 2. rewrite last_with_path_snoc, Hp, String.eqb_refl.
           apply do_update_twice; apply replayed_keeps.
        -- symmetry. now apply Hold.
      * apply Forall_forall. intros row Hrow. apply in_map_iff in Hrow.
        destruct Hrow as (r & <- & Hr).
        rewrite (proj1 (rewritten_keeps x r)).
        rewrite Forall_forall in Hwiden. now apply Hwiden.
    + exists (added ++ [new_row (projects_seq (fold_left upsert_row xs d) + 1)
                                (bound_parameters x)]).
      rewrite E, <- app_assoc. split.
      * f_equal. apply map_ext_in. intros row Hrow. symmetry. apply Hold.
        intros Hp.
        assert (Hin : In (path x) (map path (projects (fold_left upsert_row xs d)))).
        { apply fold_upsert_keeps_paths. rewrite <- Hp. now apply in_map. }
        apply path_in_table in Hin. congruence.
      * apply Forall_app. split; [exact Hwiden|]. constructor; [|constructor].
        cbn [path new_row bound_parameters]. split.
        -- rewrite map_app. apply in_or_app. right. now left.
        -- intros Hin.
           apply (fold_upsert_keeps_paths xs) in Hin.
           apply path_in_table in Hin. congruence.
Qed.

Lemma fold_upsert_rest (xs : list Project) (d : Database) :
  activity_stats (fold_left upsert_row xs d) = activity_stats d
  /\ activity_stats_seq (fold_left upsert_row xs d) = activity_stats_seq d.
Proof.
  revert d. induction xs as [|x xs IH]; intros d; simpl; [now split|].
  destruct (IH (upsert_row d x)) as [-> ->].
  destruct (upsert_row_rest d x) as (E1 & E2 & _). now split.
Qed.

Section ScanRecords.

Context (env : Env) (rootPath : string).


Lemma plan_scanned (entries : list Dirent) :
  Forall (scanned env rootPath entries) (fst (plan env rootPath entries)).
Proof.
  assert (G : forall all, incl entries all ->
                          Forall (scanned env rootPath all) (fst (plan env rootPath entries))).
  2:{ apply G. apply incl_refl. }
  intros all. induction entries as [|entry rest IH]; intros Hincl; [constructor|].
  assert (Hrest : Forall (scanned env rootPath all) (fst (plan env rootPath rest))).
  { apply IH. intros x Hx. apply Hincl. now right. }
  cbn [plan]. destruct (is_candidate entry) eqn:Hc; [|exact Hrest].
  destruct (isGitRepo env (path_join env rootPath (d_name entry)))
    as [e | isGit] eqn:Hg; [constructor|].
  destruct (detectTechStack env (path_join env rootPath (d_name entry)))
    as [e | techStack] eqn:Ht; [constructor|].
  destruct (isGit || truthy techStack) eqn:Hq; [|exact Hrest].
  cbn [fst]. constructor; [|exact Hrest].
  unfold is_candidate in Hc.
  destruct (d_kind entry) eqn:Hk; try discriminate.
  apply andb_true_iff in Hc. destruct Hc as [Hdot Hnm].
  apply negb_true_iff in Hdot. apply negb_true_iff in Hnm.
  unfold scanned, found_project.
  cbn [name path id status last_activity_date is_git tech_stack
       remote_url sync_status branch_name].
  split; [exists entry; split; [apply Hincl; now left | now repeat split]|].
  split; [exact Hdot|].
  split; [now apply String.eqb_neq|].
  split; [reflexivity|]. split; [reflexivity|]. split; [reflexivity|].
  split; [exact Hg|]. split; [exact Ht|].
  split; [now apply orb_true_iff|].
  split.
  - intros ->. now repeat split.
  - intros ->. now eexists.
Qed.

Lemma stamp_Forall (P : Project -> Prop) (clock : nat -> string) (k : nat)
      (xs : list Project) :
  (forall x t, P x -> P (set_last_scanned t x)) ->
  Forall P xs -> Forall P (stamp clock k xs).
Proof.
  intros HP H. revert k. induction H as [|x xs Hx _ IH]; intros k; simpl;
    constructor; auto.
Qed.

Lemma scanDirectory_success (st st' : State) (ps : list Project) :
  scanDirectory env rootPath st = (inr ps, st') ->
  exists entries,
    readdir env rootPath = inr entries
    /\ ps = stamp (now env) (ticks st) (fst (plan env rootPath entries))
    /\ db st' = fold_left upsert_row ps (db st).
Proof.
  intros H.
  destruct (scanDirectory_summary env rootPath st) as (st1 & E & Hd & _).
  rewrite H in E. unfold scan_summary in *.
  destruct (fst (validatePath env rootPath [allowed_root env] initial_state));
    [discriminate|].
  destruct (readdir env rootPath) as [e | entries]; [discriminate|].
  exists entries. split; [reflexivity|].
  destruct (snd (plan env rootPath entries)); [discriminate|].
  injection E as -> ->. split; [reflexivity | exact Hd].
Qed.

Lemma stamp_nth (clock : nat -> string) (xs : list Project) :
  forall k n p, nth_error (stamp clock k xs) n = Some p ->
                last_scanned p = clock (k + n)%nat.
Proof.
  induction xs as [|x xs IH]; intros k n p; [now destruct n|].
  destruct n as [|n]; simpl.
  - intros [= <-]. now rewrite Nat.add_0_r.
  - intros H. rewrite <- Nat.add_succ_comm. now apply IH.
Qed.

(** X13.  The records a scan returns.  Each is built from an entry of the
    listing of the root that is a directory, is not hidden and is not
    [node_modules], and that is a repository or has a recognised
    technology; it has no id and no activity date, the status [active],
    the git columns only of a repository, and the reading of the clock
    made for it. *)
Theorem scanDirectory_records (st st' : State) (ps : list Project) :
  scanDirectory env rootPath st = (inr ps, st') ->
  exists entries,
    readdir env rootPath = inr entries
    /\ Forall (scanned env rootPath entries) ps
    /\ (forall n p, nth_error ps n = Some p ->
                    last_scanned p = now env (ticks st + n)%nat)
    /\ ticks st' = (ticks st + length ps)%nat.
Proof.
  intros H. destruct (scanDirectory_success st st' ps H) as (entries & Hr & -> & _).
  exists entries. split; [exact Hr|]. split; [|split].
  - apply stamp_Forall; [intros x t Hx; exact Hx | apply plan_scanned].
  - intros n p. apply stamp_nth.
  - destruct (scanDirectory_summary env rootPath st) as (st1 & E & _ & Ht).
    rewrite H in E. unfold scan_summary in *.
    destruct (fst (validatePath env rootPath [allowed_root env] initial_state));
      [discriminate|].
    rewrite Hr in *. destruct (snd (plan env rootPath entries)); [discriminate|].
    assert (st' = st1) by congruence. subst st1. rewrite stamp_length. exact Ht.
Qed.

(** X14.  What a scan that returns leaves in the store.  The rows that were
    there stay in place with their ids and paths; a row whose path was
    not discovered is not touched; a row whose path was discovered is
    rewritten from the record of the scan, and its activity date is
    cleared.  Rows are only added, each for a discovered path that had
    none. The table of activity is not touched, and a well formed store
    stays so. *)
Theorem scanDirectory_store (st st' : State) (ps : list Project) :
  scanDirectory env rootPath st = (inr ps, st') ->
  (exists rows added,
      projects (db st') = rows ++ added
      /\ Forall2 (rescanned ps) (projects (db st)) rows
      /\ Forall (fun row => In (path row) (map path ps)
                             /\ ~ In (path row) (map path (projects (db st))))
                added)
  /\ activity_stats (db st') = activity_stats (db st)
  /\ (well_formed (db st) -> well_formed (db st')).
Proof.
  intros H. destruct (scanDirectory_success st st' ps H) as (entries & Hr & Hps & Hd).
  assert (Hshape : Forall (scanned env rootPath entries) ps).
  { rewrite Hps. apply stamp_Forall; [intros x t Hx; exact Hx | apply plan_scanned]. }
  rewrite Hd. split; [|split].
  - destruct (fold_upsert_rows ps (db st)) as (added & E & Hadded).
    exists (map (replayed ps) (projects (db st))), added.
    split; [exact E|]. split.
    + apply Forall2_map_same. intros row. unfold rescanned.
      split; [apply replayed_keeps|]. split; [apply replayed_keeps|]. split.
      * intros Hn. unfold replayed. now rewrite last_with_path_absent.
      * intros Hin. destruct (last_with_path_present _ _ Hin) as (p & Hp).
        unfold replayed. rewrite Hp.
        destruct (last_with_path_some _ _ _ Hp) as [Hpin Hpp].
        rewrite Forall_forall in Hshape.
        destruct (Hshape p Hpin) as (_ & _ & _ & _ & Hst & Hlad & _).
        cbn [status last_activity_date do_update bound_parameters name is_git
             tech_stack last_scanned].
        rewrite Hst, Hlad. split; [reflexivity|]. split; [reflexivity|].
        exists p. split; [exact Hpin|]. split; [exact Hpp|].
        split; [reflexivity|]. split; [now destruct (is_git p)|].
        split; reflexivity.
    + exact Hadded.
  - apply fold_upsert_rest.
  - apply fold_upsert_well_formed.
Qed.

End ScanRecords.

(** ** Paging through the listing *)

Lemma firstn_skipn_add {A} (a b : nat) (l : list A) :
  firstn a l ++ firstn b (skipn a l) = firstn (a + b) l.
Proof.
  revert l. induction a as [|a IH]; intros l; [reflexivity|].
  destruct l as [|x l]; simpl.
  - now rewrite firstn_nil.
  - now rewrite IH.
Qed.

Lemma by_name_total (x y : Project) :
  by_name x y = Gt -> may_precede by_name y x.
Proof.
  unfold may_precede, by_name. intros H. apply string_compare_gt_lt in H.
  congruence.
Qed.

Lemma by_name_trans (x y z : Project) :
  may_precede by_name x y -> may_precede by_name y z -> may_precede by_name x z.
Proof.
  unfold may_precede, by_name. intros H1 H2.
  assert (L1 : String.leb (name x) (name y) = true).
  { unfold String.leb. now destruct (String.compare (name x) (name y)). }
  assert (L2 : String.leb (name y) (name z) = true).
  { unfold String.leb. now destruct (String.compare (name y) (name z)). }
  pose proof (string_leb_trans _ _ _ L1 L2) as L3. unfold String.leb in L3.
  now destruct (String.compare (name x) (name z)).
Qed.

Lemma firstn_In {A} (n : nat) (l : list A) (x : A) :
  In x (firstn n l) -> In x l.
Proof.
  revert l. induction n as [|n IH]; intros l; [intros []|].
  destruct l as [|y l]; simpl; [intros []|].
  intros [H|H]; [now left | right; now apply IH].
Qed.

Lemma StronglySorted_firstn {A} (R : A -> A -> Prop) (n : nat) (l : list A) :
  StronglySorted R l -> StronglySorted R (firstn n l).
Proof.
  intros H. revert n. induction H as [|x l Hs IH Hx]; intros n.
  - rewrite firstn_nil. constructor.
  - destruct n as [|n]; simpl; constructor; [apply IH|].
    rewrite Forall_forall in *. intros y Hy. apply Hx.
    now apply (firstn_In n).
Qed.

Lemma StronglySorted_skipn {A} (R : A -> A -> Prop) (n : nat) (l : list A) :
  StronglySorted R l -> StronglySorted R (skipn n l).
Proof.
  intros H. revert n. induction H as [|x l Hs IH Hx]; intros n.
  - rewrite skipn_nil. constructor.
  - destruct n as [|n]; simpl; [now constructor | apply IH].
Qed.

Section Paging.

Context (st : State) (lim : Z).

Hypothesis lim_positive : (1 <= lim)%Z.

Lemma page_rows (off : Z) :
  page st lim off
  = firstn (Z.to_nat (Z.min lim 50))
           (skipn (Z.to_nat off) (sort_by by_name (projects (db st)))).
Proof.
  unfold page, list_projects, bind, get_db, ret. cbn [fst data].
  unfold sql_limit_offset.
  destruct (Z.ltb_spec (Z.min lim 50) 0); [lia | reflexivity].
Qed.

Lemma more_flag (off : Z) :
  more st lim off
  = (off + Z.min lim 50 <? Z.of_nat (length (projects (db st))))%Z.
Proof. reflexivity. Qed.

Lemma pages_rows (n : nat) :
  pages st lim n
  = firstn (n * Z.to_nat (Z.min lim 50)) (sort_by by_name (projects (db st))).
Proof.
  induction n as [|n IH]; [reflexivity|].
  cbn [pages]. rewrite IH, page_rows.
  assert (E : Z.to_nat (Z.of_nat n * Z.min lim 50)
              = (n * Z.to_nat (Z.min lim 50))%nat) by lia.
  rewrite E, firstn_skipn_add. f_equal. lia.
Qed.

(** X15.  One page.  With a limit of at least one and an offset that is not
    negative, the page holds the rows of the name ordering from the
    offset on, as many as the capped limit unless the table ends before;
    the rows are in the order of their names; and [has_more] is set
    exactly when the page at the offset that follows has a row. *)
Theorem list_projects_page (off : Z) :
  (0 <= off)%Z ->
  length (page st lim off)
  = Nat.min (Z.to_nat (Z.min lim 50))
            (length (projects (db st)) - Z.to_nat off)
  /\ StronglySorted (may_precede by_name) (page st lim off)
  /\ (more st lim off = true <-> page st lim (off + Z.min lim 50) <> []).
Proof.
  intros Hoff. split; [|split].
  - rewrite page_rows, length_firstn, length_skipn, sort_by_length. reflexivity.
  - rewrite page_rows. apply StronglySorted_firstn, StronglySorted_skipn.
    apply sort_by_sorted; [exact by_name_total | exact by_name_trans].
  - rewrite more_flag.
    assert (Hlen : length (page st lim (off + Z.min lim 50))
                   = Nat.min (Z.to_nat (Z.min lim 50))
                             (length (projects (db st))
                              - Z.to_nat (off + Z.min lim 50))).
    { rewrite page_rows, length_firstn, length_skipn, sort_by_length. reflexivity. }
    split.
    + intros H. apply Z.ltb_lt in H. intros E. rewrite E in Hlen. simpl in Hlen. lia.
    + intros H. apply Z.ltb_lt.
      destruct (page st lim (off + Z.min lim 50)) as [|x l]; [contradiction|].
      simpl in Hlen. lia.
Qed.

(** X16.  Following the pages.  The first [n] pages, each asked for where the
    one before ended, are together the first [n] times the capped limit
    rows of the name ordering; as soon as that reaches the number of
    projects they hold every project exactly once, in the order of the
    names, and they are together what the handler answered in one piece
    before it was paginated. *)
Theorem list_projects_walk (n : nat) :
  (length (projects (db st)) <= n * Z.to_nat (Z.min lim 50))%nat ->
  Permutation (pages st lim n) (projects (db st))
  /\ StronglySorted (may_precede by_name) (pages st lim n)
  /\ list_projects_unpaginated st = (inr (pages st lim n), st).
Proof.
  intros Hn. rewrite pages_rows, firstn_all2 by (now rewrite sort_by_length).
  split; [apply sort_by_perm|]. split; [|reflexivity].
  apply sort_by_sorted; [exact by_name_total | exact by_name_trans].
Qed.

End Paging.

(** ** The tool [scan_projects] *)

Section ScanTool.

Context (env : Env).



(** The line logged between the scan and the analysis. *)
Lemma scan_and_analyze_success (root : string) (st st1 : State)
      (ps : list Project) :
  scanDirectory env root st = (inr ps, st1) ->
  scan_and_analyze env root st
  = (match fst (analyze_each env (map path ps)
                  (logged ("Starting activity analysis for "
                           ++ show_count (length ps) ++ " projects...") st1)) with
     | inr _ => inr (scan_report root ps)
     | inl e => inl e
     end,
     snd (analyze_each env (map path ps)
            (logged ("Starting activity analysis for "
                     ++ show_count (length ps) ++ " projects...") st1))).
Proof.
  intros H. unfold scan_and_analyze. rewrite (bind_inr _ H).
  unfold logger_info.
  assert (E : console_error ("Starting activity analysis for "
                             ++ show_count (length ps) ++ " projects...") st1
              = (inr tt, logged ("Starting activity analysis for "
                                 ++ show_count (length ps) ++ " projects...") st1))
    by reflexivity.
  rewrite (bind_inr _ E). unfold bind at 1.
  destruct (analyze_each env (map path ps)
              (logged ("Starting activity analysis for "
                       ++ show_count (length ps) ++ " projects...") st1))
    as [[e | []] st2]; reflexivity.
Qed.


(** The rows of a store after a scan, for the analysis that follows. *)
Lemma scanned_rows_dateless (root : string) (st st1 : State) (ps : list Project) :
  scanDirectory env root st = (inr ps, st1) ->
  forall row, In row (projects (db st1)) -> In (path row) (map path ps) ->
              last_activity_date row = None.
Proof.
  intros H row Hrow Hin.
  destruct (scanDirectory_success env root st st1 ps H) as (entries & Hr & Hps & Hd).
  assert (Hshape : Forall (scanned env root entries) ps).
  { rewrite Hps. apply stamp_Forall; [intros x t Hx; exact Hx | apply plan_scanned]. }
  destruct (last_with_path_present _ _ Hin) as (p & Hp).
  rewrite Hd in Hrow. rewrite (fold_upsert_holds ps (db st) row p Hrow Hp).
  destruct (last_with_path_some _ _ _ Hp) as [Hpin _].
  rewrite Forall_forall in Hshape.
  destruct (Hshape p Hpin) as (_ & _ & _ & _ & _ & Hlad & _).
  cbn [last_activity_date do_update bound_parameters]. now rewrite Hlad.
Qed.

(** Whether the analysis of a discovered path throws is told by the
    record of the scan. *)
Lemma scanned_throws_at (root : string) (st st1 : State) (ps : list Project)
      (p : Project) :
  scanDirectory env root st = (inr ps, st1) -> In p ps ->
  throws_at env (db st1) (path p) = out_of_range env p.
Proof.
  intros H Hp.
  destruct (scanDirectory_success env root st st1 ps H) as (entries & Hr & Hps & Hd).
  assert (Hshape : Forall (scanned env root entries) ps).
  { rewrite Hps. apply stamp_Forall; [intros x t Hx; exact Hx | apply plan_scanned]. }
  rewrite Forall_forall in Hshape.
  assert (Hin : In (path p) (map path (projects (db st1)))).
  { rewrite Hd. now apply fold_upsert_adds_paths. }
  unfold throws_at, project_at.
  destruct (find (fun row => path row =? path p) (projects (db st1)))
    as [row|] eqn:F.
  - apply find_some in F. destruct F as [Hrow Hpath].
    apply String.eqb_eq in Hpath.
    destruct (last_with_path_present (path row) ps) as (x & Hx).
    { rewrite Hpath. now apply in_map. }
    rewrite Hd in Hrow. pose proof (fold_upsert_holds ps (db st) row x Hrow Hx) as E.
    destruct (last_with_path_some _ _ _ Hx) as [Hxin Hxp].
    destruct (Hshape x Hxin) as (_ & _ & _ & _ & _ & _ & Hgx & _).
    destruct (Hshape p Hp) as (_ & _ & _ & _ & _ & _ & Hgp & _).
    assert (Hg : is_git x = is_git p).
    { rewrite Hxp, Hpath in Hgx. rewrite Hgx in Hgp. now injection Hgp. }
    unfold out_of_range. rewrite Hpath, <- Hg, E.
    cbn [is_git do_update bound_parameters]. now destruct (is_git x).
  - exfalso. apply in_map_iff in Hin. destruct Hin as (row & Hpath & Hrow).
    apply (find_none _ _ F) in Hrow. rewrite Hpath, String.eqb_refl in Hrow.
    discriminate.
Qed.

Lemma existsb_map_in {A B} (f : B -> bool) (g : A -> B) (h : A -> bool)
      (l : list A) :
  (forall a, In a l -> f (g a) = h a) -> existsb f (map g l) = existsb h l.
Proof.
  induction l as [|a l IH]; intros H; simpl; [reflexivity|].
  rewrite (H a (or_introl eq_refl)), IH; [reflexivity|].
  intros b Hb. apply H. now right.
Qed.

(** X18.  The tool [scan_projects], when the scan returns, on a well formed
    store.  If a discovered project is not a repository and has its
    newest file beyond the range of a [Date], the handler throws a
    [RangeError] after the scan.  Otherwise the answer is the report of
    the scan; the analysis that follows the scan touches the rows of the
    discovered paths only, and the activity date of each of them is then
    the one found now, or none where nothing is found: the date it had
    before the scan is not kept.  The store stays well formed. *)
Theorem scan_projects_effect (root_path : option string) (st st1 : State)
        (ps : list Project) :
  well_formed (db st) ->
  scanDirectory env (scan_root env root_path) st = (inr ps, st1) ->
  (existsb (out_of_range env) ps = true ->
   exists st',
     scan_projects env root_path st = (inl invalid_time, st')
     /\ well_formed (db st'))
  /\ (existsb (out_of_range env) ps = false ->
      exists st',
        scan_projects env root_path st
        = (inr (scan_report (scan_root env root_path) ps), st')
        /\ projects (db st')
           = analysed_rows_at env (map path ps) (projects (db st1))
        /\ (forall row, In row (projects (db st')) ->
                        In (path row) (map path ps) ->
                        last_activity_date row
                        = or_null (fst (activity_of env row)))
        /\ well_formed (db st')).
Proof.
  intros Hwf H. unfold scan_projects.
  rewrite (scan_and_analyze_success _ _ _ _ H).
  set (line := ("Starting activity analysis for "
                ++ show_count (length ps) ++ " projects...")%string).
  assert (Hwf1 : well_formed (db (logged line st1))).
  { change (db (logged line st1)) with (db st1).
    destruct (scanDirectory_success env _ st st1 ps H) as (_ & _ & _ & ->).
    now apply fold_upsert_well_formed. }
  assert (Hthrows : existsb (throws_at env (db (logged line st1))) (map path ps)
                    = existsb (out_of_range env) ps).
  { change (db (logged line st1)) with (db st1). apply existsb_map_in.
    intros p Hp. now apply (scanned_throws_at _ _ _ _ _ H). }
  split; intros Hr; rewrite <- Hthrows in Hr.
  - destruct (analyze_each_throws env (map path ps) (logged line st1) Hwf1 Hr)
      as (st' & E & _ & W & _).
    rewrite E. cbn [fst snd]. now exists st'.
  - destruct (analyze_each_rows env (map path ps) (logged line st1) Hwf1 Hr)
      as (st' & E & R & W & _).
    rewrite E. cbn [fst snd]. exists st'. split; [reflexivity|].
    change (db (logged line st1)) with (db st1) in R.
    split; [exact R|]. split; [|exact W].
    intros row Hrow Hin. rewrite R in Hrow. unfold analysed_rows_at in Hrow.
    apply in_map_iff in Hrow. destruct Hrow as (row1 & Hrow & Hrow1).
    assert (Hp : path row = path row1).
    { rewrite <- Hrow.
      now destruct (existsb (String.eqb (path row1)) (map path ps)). }
    assert (Ex : existsb (String.eqb (path row1)) (map path ps) = true).
    { apply existsb_exists. exists (path row1). rewrite <- Hp.
      split; [exact Hin | apply String.eqb_refl]. }
    rewrite Ex in Hrow. subst row.
    pose proof (scanned_rows_dateless _ _ _ _ H row1 Hrow1) as Hnone.
    rewrite <- Hp in Hnone. specialize (Hnone Hin).
    unfold analysed_row, analysed_date.
    change (activity_of env (set_last_activity _ row1)) with (activity_of env row1).
    cbn [last_activity_date set_last_activity]. rewrite Hnone.
    now destruct (or_null (fst (activity_of env row1))).
Qed.

End ScanTool.

(** ** The health report and the summary *)

Lemma fold_left_append {A} (f : A -> string) (l : list A) (acc : string) :
  fold_left (fun r x => (r ++ f x)%string) l acc
  = (acc ++ String.concat "" (map f l))%string.
Proof.
  revert acc. induction l as [|x l IH]; intros acc; simpl.
  - clear. induction acc as [|c acc IH]; simpl; congruence.
  - rewrite IH. destruct l as [|y l].
    + simpl. clear.
      induction acc as [|c acc IH]; simpl; [|now rewrite IH].
      induction (f x) as [|c s IH]; simpl; congruence.
    + cbn [map String.concat]. cbn [append].
      clear. induction acc as [|c acc IH]; simpl; [reflexivity | now rewrite IH].
Qed.

Lemma needs_attention_out_of_sync (row : Project) :
  scanner_status row -> needs_attention row = out_of_sync row.
Proof.
  unfold scanner_status, needs_attention, out_of_sync.
  destruct (is_git row).
  - intros (s & ->). now destruct s.
  - now intros ->.
Qed.

(** X19.  The report of [get_project_health] on a store whose sync statuses
    are those the scanner writes: it counts and lists, in the order of
    their names, exactly the projects that are ahead of their remote,
    behind it or diverged, one line each, and says that all are in sync
    when there is none.  The store is not changed. *)
Theorem get_project_health_report (st : State) :
  Forall scanner_status (projects (db st)) ->
  let listed := sort_by by_name (filter out_of_sync (projects (db st))) in
  get_project_health st
  = (inr (health_header (length listed)
          ++ match listed with
             | [] => "All git projects are in sync with their remotes!"
             | _ => String.concat "" (map health_line listed)
             end)%string, st).
Proof.
  intros Hs listed. unfold get_project_health, bind, get_db, ret.
  assert (E : filter needs_attention (projects (db st))
              = filter out_of_sync (projects (db st))).
  { apply filter_ext_in. intros row Hrow. apply needs_attention_out_of_sync.
    rewrite Forall_forall in Hs. now apply Hs. }
  rewrite E. fold listed. f_equal. f_equal.
  destruct listed as [|p l] eqn:El; [reflexivity|].
  cbn [length Nat.eqb]. apply fold_left_append.
Qed.

Lemma NoDup_map_Some {A} (l : list A) : NoDup l -> NoDup (map Some l).
Proof.
  induction 1 as [|x l Hx _ IH]; simpl; constructor; [|exact IH].
  intros Hin. apply in_map_iff in Hin. destruct Hin as (y & [= ->] & Hy).
  contradiction.
Qed.

Lemma nodup_filter_length (d : Database) (cutoff : string) :
  well_formed d ->
  length (nodup Z.eq_dec
            (map project_id (filter (on_or_after cutoff) (activity_stats d))))
  = length (filter (recently_active d cutoff) (projects d)).
Proof.
  intros Hwf.
  set (L := nodup Z.eq_dec
              (map project_id (filter (on_or_after cutoff) (activity_stats d)))).
  transitivity (length (map Some L)); [now rewrite length_map|].
  transitivity (length (map id (filter (recently_active d cutoff) (projects d))));
    [|now rewrite length_map].
  apply Permutation_length, NoDup_Permutation.
  - apply NoDup_map_Some, NoDup_nodup.
  - pose proof (wf_ids d Hwf) as Hn. clear -Hn.
    induction (projects d) as [|p l IH]; simpl; [constructor|].
    inversion Hn as [|? ? Hnot Hn']; subst.
    destruct (recently_active d cutoff p); simpl; [|now apply IH].
    constructor; [|now apply IH].
    intros Hin. apply Hnot. apply in_map_iff in Hin.
    destruct Hin as (q & Hq & Hin). apply filter_In in Hin.
    rewrite <- Hq. apply in_map. tauto.
  - intros x. split.
    + intros Hin. apply in_map_iff in Hin. destruct Hin as (i & <- & Hi).
      apply nodup_In, in_map_iff in Hi. destruct Hi as (s & Hs & Hin).
      apply filter_In in Hin. destruct Hin as [Hin Hrecent].
      pose proof (wf_references d Hwf) as Href. rewrite Forall_forall in Href.
      specialize (Href s Hin). unfold refers in Href.
      apply in_map_iff in Href. destruct Href as (p & Hp & Hpin).
      rewrite Hs in Hp. rewrite <- Hp. apply in_map. apply filter_In.
      split; [exact Hpin|]. unfold recently_active. rewrite Hp.
      apply existsb_exists. exists s. split; [exact Hin|].
      now rewrite Hs, Z.eqb_refl, Hrecent.
    + intros Hin. apply in_map_iff in Hin. destruct Hin as (p & <- & Hp).
      apply filter_In in Hp. destruct Hp as [Hpin Hrecent].
      unfold recently_active in Hrecent.
      destruct (id p) as [i|]; [|discriminate].
      apply existsb_exists in Hrecent. destruct Hrecent as (s & Hin & Hs).
      apply andb_true_iff in Hs. destruct Hs as [Hi Hrecent].
      apply Z.eqb_eq in Hi. apply in_map. apply nodup_In.
      rewrite <- Hi. apply in_map. apply filter_In. now split.
Qed.

(** X20.  The summary of a well formed store: the number of active projects is
    the number of stored projects that have a row of activity on or after
    the cutoff, so it is at most the total; the store is not changed and
    the clock is read once. *)
Theorem projects_summary_counts (env : Env) (cutoff : string) (st : State) :
  well_formed (db st) ->
  exists s st',
    projects_summary env cutoff st = (inr s, st')
    /\ db st' = db st
    /\ total_projects s = Z.of_nat (length (projects (db st)))
    /\ active_last_7_days s
       = Z.of_nat (length (filter (recently_active (db st) cutoff)
                                  (projects (db st))))
    /\ (0 <= active_last_7_days s <= total_projects s)%Z
    /\ generated_at s = now env (ticks st).
Proof.
  intros Hwf.
  exists {| total_projects := Z.of_nat (length (projects (db st)));
            active_last_7_days :=
              Z.of_nat (length (nodup Z.eq_dec
                                  (map project_id
                                       (filter (on_or_after cutoff)
                                               (activity_stats (db st))))));
            generated_at := now env (ticks st) |},
         {| db := db st; log := log st; ticks := S (ticks st) |}.
  split; [reflexivity|].
  cbn [db total_projects active_last_7_days generated_at].
  rewrite (nodup_filter_length _ cutoff Hwf).
  split; [reflexivity|]. split; [reflexivity|]. split; [reflexivity|].
  split; [|reflexivity].
  pose proof (filter_length_le (recently_active (db st) cutoff) (projects (db st))).
  lia.
Qed.

(** ** The statements on the stores of the examples *)

Ltac concrete_store :=
  constructor;
  unfold unique_paths, unique_stats, row_id_ok, stat_id_ok, refers, normalised;
  simpl;
  repeat match goal with
         | |- NoDup _ => constructor
         | |- Forall _ _ => constructor
         | |- ~ _ => simpl; intuition discriminate
         | |- exists _, _ => eexists; split; [reflexivity | lia]
         | |- In _ _ => simpl; tauto
         | |- _ \/ _ => simpl; tauto
         | |- _ = _ => reflexivity
         | |- _ => simpl; lia
         end.

Lemma one_project_well_formed : well_formed (db one_project_state).
Proof. concrete_store. Qed.

Lemma tracked_well_formed : well_formed (db tracked_state).
Proof. concrete_store. Qed.

Lemma getProjectDescription_result_witness :
  getProjectDescription
    (with_files [("/home/u/api/README.md", readme_text)] blank_env)
    "/home/u/api" initial_state
  = (inr (Some "The billing API."), initial_state).
Proof.
  destruct (getProjectDescription_result
              (with_files [("/home/u/api/README.md", readme_text)] blank_env)
              "/home/u/api" initial_state) as (d & E & _ & _ & H).
  rewrite E, (proj1 (H readme_text eq_refl eq_refl eq_refl)). reflexivity.
Defined.

Lemma getGitActivity_edges_witness :
  getGitActivity blank_env "/home/u/p" initial_state
  = (inr (None, []), initial_state)
  /\ getGitActivity (with_access ["/home/u/p/.git"] blank_env) "/home/u/p"
                    initial_state
     = (inr (None, []),
        logged (git_activity_failure_line "/home/u/p") initial_state).
Proof.
  split.
  - apply (proj1 (getGitActivity_edges blank_env "/home/u/p" initial_state)).
    reflexivity.
  - apply (proj1 (proj2 (getGitActivity_edges
                           (with_access ["/home/u/p/.git"] blank_env)
                           "/home/u/p" initial_state))); reflexivity.
Defined.

Lemma analyzeProjectActivity_effect_witness :
  (exists st',
     analyzeProjectActivity (repository_env three_commits) "/home/u/p"
                            one_project_state = (inr tt, st')
     /\ map last_activity_date (projects (db st')) = [Some "2024-01-02"]
     /\ stored_count (db st') 1 "2024-01-01" = Some 2%Z
     /\ stored_count (db st') 1 "2024-01-02" = Some 1%Z
     /\ well_formed (db st'))
  /\ analyzeProjectActivity (with_tree (Some far_future_tree) blank_env)
                            "/home/u/old" tracked_state
     = (inl invalid_time, tracked_state).
Proof.
  split.
  - destruct (proj2 (analyzeProjectActivity_effect (repository_env three_commits)
                       "/home/u/p" one_project_state stored_project
                       one_project_well_formed eq_refl) eq_refl)
      as (st' & i & E & Hi & Hrows & _ & Hcounts & Hwf).
    exists st'. split; [exact E|].
    injection Hi as <-.
    split; [rewrite Hrows; reflexivity|].
    split; [rewrite Hcounts; reflexivity|].
    split; [rewrite Hcounts; reflexivity | exact Hwf].
  - apply (proj1 (analyzeProjectActivity_effect
                    (with_tree (Some far_future_tree) blank_env)
                    "/home/u/old" tracked_state tracked_old
                    tracked_well_formed eq_refl)).
    reflexivity.
Defined.

Lemma analyzeProjectActivity_idempotent_witness :
  projects
    (db (snd (analyzeProjectActivity (repository_env three_commits) "/home/u/p"
                (snd (analyzeProjectActivity (repository_env three_commits)
                        "/home/u/p" one_project_state)))))
  = projects
      (db (snd (analyzeProjectActivity (repository_env three_commits) "/home/u/p"
                  one_project_state)))
  /\ activity_stats
       (db (snd (analyzeProjectActivity (repository_env three_commits) "/home/u/p"
                   (snd (analyzeProjectActivity (repository_env three_commits)
                           "/home/u/p" one_project_state)))))
     = activity_stats
         (db (snd (analyzeProjectActivity (repository_env three_commits)
                     "/home/u/p" one_project_state))).
Proof.
  apply (analyzeProjectActivity_idempotent (repository_env three_commits)
           "/home/u/p" one_project_state one_project_well_formed).
Defined.

Lemma analyze_project_activity_effect_witness :
  (exists st',
     analyze_project_activity (repository_env three_commits) None tracked_state
     = (inr "Analyzed activity for all 2 projects.", st')
     /\ Forall2 date_refreshed (projects (db tracked_state)) (projects (db st'))
     /\ map last_activity_date (projects (db st')) = [Some "2024-01-05"; None]
     /\ well_formed (db st'))
  /\ (exists st',
        analyze_project_activity (with_tree (Some far_future_tree) blank_env)
                                 None tracked_state
        = (inl invalid_time, st')).
Proof.
  split.
  - destruct (analyze_project_activity_effect (repository_env three_commits) None
                tracked_state tracked_well_formed)
      as (r & st' & E & Hr & Hwf & _ & Hreturns).
    destruct (Hreturns eq_refl) as (-> & _ & Hall).
    exists st'. split; [exact E|]. split; [exact Hr|].
    split; [rewrite (Hall eq_refl); reflexivity | exact Hwf].
  - destruct (analyze_project_activity_effect
                (with_tree (Some far_future_tree) blank_env) None
                tracked_state tracked_well_formed)
      as (r & st' & E & _ & _ & Hthrows & _).
    exists st'. now rewrite <- (Hthrows eq_refl).
Defined.

Lemma scanDirectory_records_witness :
  Forall (scanned home_env "/home/u" home_entries)
         [api_record "0"; web_record "1"].
Proof.
  assert (E : scanDirectory home_env "/home/u" initial_state
              = (inr [api_record "0"; web_record "1"],
                 snd (scanDirectory home_env "/home/u" initial_state)))
    by (vm_compute; reflexivity).
  destruct (scanDirectory_records home_env "/home/u" _ _ _ E)
    as (entries & Hr & H & _).
  injection Hr as <-. exact H.
Defined.

Lemma scanDirectory_store_witness :
  map (fun row => (id row, path row, status row, last_activity_date row))
      (projects (db (snd (scanDirectory home_env "/home/u" tracked_state))))
  = [(Some 1%Z, "/home/u/api", "active", None);
     (Some 2%Z, "/home/u/old", "active", None);
     (Some 4%Z, "/home/u/web", "active", None)]
  /\ well_formed (db (snd (scanDirectory home_env "/home/u" tracked_state))).
Proof.
  assert (E : scanDirectory home_env "/home/u" tracked_state
              = (inr [api_record "0"; web_record "1"],
                 snd (scanDirectory home_env "/home/u" tracked_state)))
    by (vm_compute; reflexivity).
  destruct (scanDirectory_store home_env "/home/u" _ _ _ E) as (_ & _ & Hwf).
  split; [vm_compute; reflexivity | exact (Hwf tracked_well_formed)].
Defined.

Lemma list_projects_page_witness :
  length (page sixty_projects_state 25 50) = 10%nat
  /\ more sixty_projects_state 25 25 = true
  /\ page sixty_projects_state 25 50 <> [].
Proof.
  assert (Hlim : (1 <= 25)%Z) by lia.
  assert (H50 : (0 <= 50)%Z) by lia.
  assert (H25 : (0 <= 25)%Z) by lia.
  destruct (list_projects_page sixty_projects_state 25 Hlim 50 H50)
    as (Hlen & _ & _).
  destruct (list_projects_page sixty_projects_state 25 Hlim 25 H25)
    as (_ & _ & Hmore).
  split; [rewrite Hlen; reflexivity|].
  split; [reflexivity | apply Hmore; reflexivity].
Defined.

Lemma list_projects_walk_witness :
  Permutation (pages sixty_projects_state 25 3)
              (projects (db sixty_projects_state))
  /\ StronglySorted (may_precede by_name) (pages sixty_projects_state 25 3)
  /\ list_projects_unpaginated sixty_projects_state
     = (inr (pages sixty_projects_state 25 3), sixty_projects_state).
Proof.
  apply (list_projects_walk sixty_projects_state 25); [lia|].
  vm_compute. repeat constructor.
Defined.

Lemma scan_projects_effect_witness :
  (exists st',
     scan_projects home_env (Some "/home/u") tracked_state
     = (inr (scan_report "/home/u" [api_record "0"; web_record "1"]), st')
     /\ map (fun row => (path row, last_activity_date row)) (projects (db st'))
        = [("/home/u/api", None); ("/home/u/old", None); ("/home/u/web", None)]
     /\ well_formed (db st'))
  /\ (exists st',
        scan_projects (with_tree (Some far_future_tree) home_env)
                      (Some "/home/u") tracked_state
        = (inl invalid_time, st')).
Proof.
  split; [|
    assert (E : scanDirectory (with_tree (Some far_future_tree) home_env)
                  (scan_root (with_tree (Some far_future_tree) home_env)
                             (Some "/home/u")) tracked_state
                = (inr [api_record "0"; web_record "1"],
                   snd (scanDirectory (with_tree (Some far_future_tree) home_env)
                                      "/home/u" tracked_state)))
      by (vm_compute; reflexivity);
    destruct (proj1 (scan_projects_effect
                       (with_tree (Some far_future_tree) home_env)
                       (Some "/home/u") _ _ _ tracked_well_formed E) eq_refl)
      as (st' & E' & _); now exists st'].
  assert (E : scanDirectory home_env (scan_root home_env (Some "/home/u"))
                            tracked_state
              = (inr [api_record "0"; web_record "1"],
                 snd (scanDirectory home_env "/home/u" tracked_state)))
    by (vm_compute; reflexivity).
  destruct (proj2 (scan_projects_effect home_env (Some "/home/u") _ _ _
                     tracked_well_formed E) eq_refl)
    as (st' & E' & Hrows & _ & Hwf).
  exists st'. split; [exact E'|]. split; [|exact Hwf].
  rewrite Hrows. vm_compute. reflexivity.
Defined.

Lemma get_project_health_report_witness :
  get_project_health tracked_state
  = (inr (health_header 1 ++ health_line tracked_api)%string, tracked_state).
Proof.
  etransitivity; [apply (get_project_health_report tracked_state)|].
  - repeat constructor. now exists Behind.
  - vm_compute. reflexivity.
Defined.

Lemma projects_summary_counts_witness :
  exists s st',
    projects_summary blank_env "2024-01-01" tracked_state = (inr s, st')
    /\ total_projects s = 2%Z
    /\ active_last_7_days s = 1%Z.
Proof.
  destruct (projects_summary_counts blank_env "2024-01-01" tracked_state
              tracked_well_formed) as (s & st' & E & _ & Ht & Ha & _).
  exists s, st'. split; [exact E|]. split; [rewrite Ht | rewrite Ha]; reflexivity.
Defined.
